(** * srt_trans: batched subtitle translation pipeline

    A shallow embedding of [src/srt_trans.py] and the properties of its
    parser, batch planner, marker codec, fallback path, reassembly loop,
    resume logic and configuration reader.

    Modelling conventions.
    - A Python [str] is a list of Unicode code points ([list N]), so [len]
      is [length].  [str.strip], [str.splitlines] and friends follow CPython's
      tables for white space and line boundaries.
    - Digits are Unicode's, from the tables of CPython 3.11 (Unicode 14.0):
      [int] and the regular expression class [\d] take the decimal digits
      of every script, [str.isdigit] also the superscript, circled and
      similar digits, which [int] rejects.  The bound CPython puts on the
      length of a numeral is an interpreter setting and is not modelled.
      [str.lower] is modelled on the ASCII letters.
    - A [dict] keyed by unit id is a [gmap Z _]; the configuration is a
      [gmap string value] whose values are the host's objects ([Host]).
    - Exceptions are the [Err] results of a state-and-error monad.
    - A file is its decoded text.  The main thread acts on the output file
      and records what it does in a trace ([sys]); console output
      ([show_bar], [print]) and the creation of the output directory are not
      modelled.
    - A worker sees the network as a script of replies consumed by
      [post_chat], which logs every request ([world]); a pause is logged,
      not waited for.  The thread pool is the list of the batch sequence
      indices in the order their futures complete, each future being the
      run of [run_batch] against the script of its own worker. *)

From Stdlib Require Import ZArith NArith Lia Bool List Ascii String Sorted Permutation.
From stdpp Require Import gmap strings list.
From Equations Require Import Equations.

Local Open Scope Z_scope.

(** ** Python strings *)

Module Py.

Definition char := N.
Definition str := list N.

Definition LF : char := 10%N.
Definition CR : char := 13%N.

(** An ASCII literal as a Python string. *)
Fixpoint lit (s : string) : str :=
  match s with
  | EmptyString => []
  | String a s' => N_of_ascii a :: lit s'
  end.

(** [str.isspace] on one character (CPython's [_PyUnicode_IsWhitespace]). *)
Definition is_space (c : char) : bool :=
  ((9 <=? c) && (c <=? 13) || (28 <=? c) && (c <=? 32) || (c =? 133)
   || (c =? 160) || (c =? 5760) || (8192 <=? c) && (c <=? 8202)
   || (c =? 8232) || (c =? 8233) || (c =? 8239) || (c =? 8287)
   || (c =? 12288))%N.

(** Line boundaries of [str.splitlines] (CPython's [_PyUnicode_IsLinebreak]). *)
Definition is_linebreak (c : char) : bool :=
  ((10 <=? c) && (c <=? 13) || (28 <=? c) && (c <=? 30) || (c =? 133)
   || (c =? 8232) || (c =? 8233))%N.

(** The digit zero of every run of decimal digits (general category Nd):
    each is followed by the digits one to nine of its script. *)
Definition decimal_zeros : list char :=
  [48; 1632; 1776; 1984; 2406; 2534; 2662; 2790; 2918; 3046; 3174; 3302;
   3430; 3558; 3664; 3792; 3872; 4160; 4240; 6112; 6160; 6470; 6608; 6784;
   6800; 6992; 7088; 7232; 7248; 42528; 43216; 43264; 43472; 43504; 43600;
   44016; 65296; 66720; 68912; 69734; 69872; 69942; 70096; 70384; 70736;
   70864; 71248; 71360; 71472; 71904; 72016; 72784; 73040; 73120; 92768;
   92864; 93008; 120782; 120792; 120802; 120812; 120822; 123200; 123632;
   125264; 130032]%N.

(** The value of a decimal digit (CPython's [Py_UNICODE_TODECIMAL]). *)
Definition to_decimal (c : char) : option Z :=
  (fun z => Z.of_N (c - z))
    <$> List.find (fun z => (z <=? c) && negb (z + 9 <? c))%N decimal_zeros.

(** The class [\d] of a [str] pattern and the digits [int] reads
    ([Py_UNICODE_ISDECIMAL]). *)
Definition is_decimal (c : char) : bool :=
  match to_decimal c with Some _ => true | None => false end.

(** The digits that are not decimal digits: superscripts, subscripts,
    circled, parenthesized and dotted digits and the like, as ranges. *)
Definition other_digits : list (char * char) :=
  [(178, 179); (185, 185); (4969, 4977); (6618, 6618); (8304, 8304);
   (8308, 8313); (8320, 8329); (9312, 9320); (9332, 9340); (9352, 9360);
   (9450, 9450); (9461, 9469); (9471, 9471); (10102, 10110); (10112, 10120);
   (10122, 10130); (68160, 68163); (69216, 69224); (69714, 69722);
   (127232, 127242)]%N.

(** [str.isdigit] on one character ([Py_UNICODE_ISDIGIT]). *)
Definition is_digit (c : char) : bool :=
  is_decimal c || existsb (fun r => (r.1 <=? c) && negb (r.2 <? c))%N other_digits.

(** The white space [int] skips around a numeral: that of [str.isspace]
    but for the separators 28 to 31. *)
Definition is_int_space (c : char) : bool :=
  is_space c && negb ((28 <=? c) && (c <=? 31))%N.

Arguments is_space : simpl never.
Arguments is_linebreak : simpl never.
Arguments is_decimal : simpl never.
Arguments is_digit : simpl never.
Arguments is_int_space : simpl never.

Definition digit_val (c : char) : Z := default 0 (to_decimal c).

Definition digit_chr (d : Z) : char := Z.to_N (d + 48).

(** Truthiness of a list or string: non-empty. *)
Definition truthy {A} (l : list A) : bool :=
  match l with [] => false | _ => true end.

(** [s.splitlines()].  [after_cr] records that the previous character was a
    carriage return, so that a following line feed belongs to the same
    boundary; [acc] is the line being read. *)
Fixpoint splitlines_go (after_cr : bool) (acc : str) (s : str) : list str :=
  match s with
  | [] => if truthy acc then [acc] else []
  | c :: s' =>
      if after_cr && (c =? LF)%N then splitlines_go false acc s'
      else if is_linebreak c then acc :: splitlines_go (c =? CR)%N [] s'
      else splitlines_go false (acc ++ [c]) s'
  end.

Definition splitlines (s : str) : list str := splitlines_go false [] s.

(** [sep.join(parts)] *)
Fixpoint join (sep : str) (parts : list str) : str :=
  match parts with
  | [] => []
  | [p] => p
  | p :: ps => p ++ sep ++ join sep ps
  end.

Fixpoint lstrip (s : str) : str :=
  match s with
  | [] => []
  | c :: s' => if is_space c then lstrip s' else s
  end.

Fixpoint rstrip (s : str) : str :=
  match s with
  | [] => []
  | c :: s' =>
      let r := rstrip s' in
      if is_space c && negb (truthy r) then [] else c :: r
  end.

Definition strip (s : str) : str := rstrip (lstrip s).

(** [s.rstrip("\n")] *)
Fixpoint rstrip_lf (s : str) : str :=
  match s with
  | [] => []
  | c :: s' =>
      let r := rstrip_lf s' in
      if (c =? LF)%N && negb (truthy r) then [] else c :: r
  end.

Fixpoint startswith (p s : str) : bool :=
  match p, s with
  | [], _ => true
  | _ :: _, [] => false
  | a :: p', b :: s' => (a =? b)%N && startswith p' s'
  end.

(** [p in s] for strings *)
Fixpoint contains (p s : str) : bool :=
  startswith p s || match s with [] => false | _ :: s' => contains p s' end.

(** [s.isdigit()] *)
Definition isdigit (s : str) : bool := truthy s && forallb is_digit s.

(** Value of a run of digits, most significant first. *)
Definition digits_val (ds : str) : Z :=
  fold_left (fun acc c => 10 * acc + digit_val c) ds 0.

(** Digits of an integer literal: groups of digits separated by single
    underscores.  [prev_digit] tells whether the previous character was a
    digit; the result is the digits with the underscores removed. *)
Fixpoint int_digits (prev_digit : bool) (s : str) : option str :=
  match s with
  | [] => if prev_digit then Some [] else None
  | c :: s' =>
      if is_decimal c then cons c <$> int_digits true s'
      else if (c =? 95)%N && prev_digit then
        match s' with
        | [] => None
        | _ => int_digits false s'
        end
      else None
  end.

(** The white space skipped before and after a numeral. *)
Fixpoint int_lstrip (s : str) : str :=
  match s with
  | [] => []
  | c :: s' => if is_int_space c then int_lstrip s' else s
  end.

Fixpoint int_rstrip (s : str) : str :=
  match s with
  | [] => []
  | c :: s' =>
      let r := int_rstrip s' in
      if is_int_space c && negb (truthy r) then [] else c :: r
  end.

(** [int(s)] for a string: surrounding white space, an optional sign, then
    the digits.  [None] is [ValueError]. *)
Definition int (s : str) : option Z :=
  match int_rstrip (int_lstrip s) with
  | [] => None
  | c :: s' =>
      if (c =? 45)%N then (fun ds => - digits_val ds) <$> int_digits false s'
      else if (c =? 43)%N then digits_val <$> int_digits false s'
      else digits_val <$> int_digits false (c :: s')
  end.

(** Decimal digits of a natural number, most significant first. *)
Fixpoint digits_fuel (fuel : nat) (n : Z) (acc : str) : str :=
  match fuel with
  | O => acc
  | S fuel' =>
      let acc' := digit_chr (n mod 10) :: acc in
      if n <? 10 then acc' else digits_fuel fuel' (n / 10) acc'
  end.

Definition digits_of (n : Z) : str := digits_fuel (S (Z.to_nat (Z.log2 n))) n [].

(** [str(z)], also [f"{z}"] *)
Definition repr (z : Z) : str :=
  if z <? 0 then 45%N :: digits_of (- z) else digits_of z.

(** [f"{z:06d}"]: zero padding to width 6, after the sign. *)
Definition repr06 (z : Z) : str :=
  let body := digits_of (Z.abs z) in
  let sign := if z <? 0 then [45%N] else [] in
  let pad := (6 - length sign - length body)%nat in
  sign ++ replicate pad 48%N ++ body.

End Py.

Import Py.

(** ** SRT blocks *)

Record SrtBlock := mkSrtBlock {
  idx : Z;
  time : str;
  lines : list str;
}.


(** ** Exceptions and the state-and-error monad *)

Inductive exn :=
| KeyError | ValueError | IndexError | OSError | TransportError.

Inductive result (A : Type) :=
| Ok (a : A)
| Err (e : exn).
Arguments Ok {A} a.
Arguments Err {A} e.

Definition is_ok {A} (r : result A) : bool :=
  match r with Ok _ => true | Err _ => false end.

(** A computation over a mutable state [S] that may raise: the state
    reached when the exception is raised is kept. *)
Definition M (S A : Type) : Type := S -> result A * S.

Definition ret {S A} (a : A) : M S A := fun s => (Ok a, s).

Definition raise {S A} (e : exn) : M S A := fun s => (Err e, s).

Definition bind {S A B} (m : M S A) (k : A -> M S B) : M S B :=
  fun s => match m s with
           | (Ok a, s') => k a s'
           | (Err e, s') => (Err e, s')
           end.

Definition lift {S A} (r : result A) : M S A := fun s => (r, s).

Definition modify {S} (f : S -> S) : M S unit := fun s => (Ok tt, f s).

Declare Scope monad_scope.
Delimit Scope monad_scope with monad.
Notation "x <- m ;; k" := (bind m (fun x => k))
  (at level 100, m at next level, right associativity) : monad_scope.
Notation "m ;;; k" := (bind m (fun _ => k))
  (at level 100, right associativity) : monad_scope.
Local Open Scope monad_scope.

(** [for x in xs: body(x)] *)
Fixpoint for_each {S A} (xs : list A) (body : A -> M S unit) : M S unit :=
  match xs with
  | [] => ret tt
  | x :: xs' => body x ;;; for_each xs' body
  end.

(** [d[k]] on a dict: [KeyError] when the key is absent. *)
Definition getitem `{Countable K} {V} (d : gmap K V) (k : K) : result V :=
  match d !! k with
  | Some v => Ok v
  | None => Err KeyError
  end.

(** [None] of a conversion is [ValueError]. *)
Definition or_value_error {A} (o : option A) : result A :=
  match o with
  | Some a => Ok a
  | None => Err ValueError
  end.

(** ** Parser *)

Definition blank (l : str) : bool := negb (truthy (strip l)).

(** The inner loop collecting text lines: the lines up to the first blank
    one, and what follows them. *)
Fixpoint take_text (ls : list str) : list str :=
  match ls with
  | [] => []
  | l :: ls' => if blank l then [] else rstrip_lf l :: take_text ls'
  end.

Fixpoint drop_text (ls : list str) : list str :=
  match ls with
  | [] => []
  | l :: ls' => if blank l then ls else drop_text ls'
  end.

(** The loop skipping the blank run after a block. *)
Fixpoint drop_blank (ls : list str) : list str :=
  match ls with
  | [] => []
  | l :: ls' => if blank l then drop_blank ls' else ls
  end.

(** The main loop of [parse_srt]; [ls] is [lines[i:]]. *)
Equations? parse_loop (ls : list str) : result (list SrtBlock) by wf (length ls) lt :=
  parse_loop [] := Ok [];
  parse_loop (l :: rest) with blank l := {
    | true := parse_loop rest
    | false with int (strip l) := {
      | None := Err ValueError
      | Some i with rest := {
        | [] := Err IndexError
        | t :: rest' with parse_loop (drop_blank (drop_text rest')) := {
          | Ok blocks := Ok (mkSrtBlock i (strip t) (take_text rest') :: blocks)
          | Err e := Err e } } } }.
Proof.
  all: simpl; try lia.
  assert (Htext : forall ls, (length (drop_text ls) <= length ls)%nat).
  { intros ls. induction ls as [|x ls IH]; simpl; [lia|].
    destruct (blank x); simpl; lia. }
  assert (Hblank : forall ls, (length (drop_blank ls) <= length ls)%nat).
  { intros ls. induction ls as [|x ls IH]; simpl; [lia|].
    destruct (blank x); simpl; lia. }
  specialize (Htext rest'). specialize (Hblank (drop_text rest')). lia.
Qed.

Definition parse_srt (s : str) : result (list SrtBlock) :=
  parse_loop (splitlines s).

(** ** Writer *)

(** Each line followed by a line feed. *)
Definition write_lines (ls : list str) : str :=
  concat (map (fun l => l ++ [LF]) ls).

(** [write_bi_srt_line(f, b, zh_lines)]: the file content after the call. *)
Definition write_bi_srt_line (f : str) (b : SrtBlock) (zh_lines : list str) : str :=
  let f := f ++ repr (idx b) ++ [LF] in
  let f := f ++ time b ++ [LF] in
  let f := if truthy zh_lines then f ++ write_lines zh_lines else f in
  let f := if truthy (lines b) then f ++ write_lines (lines b) else f in
  f ++ [LF].

(** ** Batch planner *)

(** The character estimate of one unit: [len("\n".join(b.lines)) + 32]. *)
Definition add_chars (b : SrtBlock) : Z :=
  Z.of_nat (length (join [LF] (lines b))) + 32.

Record split_state := mkSplit {
  batches : list (list SrtBlock);
  cur : list SrtBlock;
  cur_chars : Z;
}.

(** One iteration of the loop of [split_batches]. *)
Definition split_step (max_blocks max_chars : Z) (st : split_state) (b : SrtBlock)
  : split_state :=
  let hit_blocks := truthy (cur st) && (max_blocks <=? Z.of_nat (length (cur st))) in
  let hit_chars := truthy (cur st) && (max_chars <? cur_chars st + add_chars b) in
  let st := if hit_blocks || hit_chars
            then mkSplit (batches st ++ [cur st]) [] 0
            else st in
  mkSplit (batches st) (cur st ++ [b]) (cur_chars st + add_chars b).

Definition split_batches (blocks : list SrtBlock) (max_blocks max_chars : Z)
  : list (list SrtBlock) :=
  let st := fold_left (split_step max_blocks max_chars) blocks (mkSplit [] [] 0) in
  if truthy (cur st) then batches st ++ [cur st] else batches st.

(** Sum of the character estimates of a batch. *)
Definition batch_chars (batch : list SrtBlock) : Z :=
  fold_right (fun b acc => add_chars b + acc) 0 batch.

(** What the planner guarantees of a batch. *)
Definition bounded (max_blocks max_chars : Z) (batch : list SrtBlock) : Prop :=
  batch <> []
  /\ Z.of_nat (length batch) <= Z.max max_blocks 1
  /\ ((2 <= length batch)%nat -> batch_chars batch <= max_chars).

(** The loop invariant of [split_batches]. *)
Definition split_inv (max_blocks max_chars : Z) (st : split_state) : Prop :=
  Forall (bounded max_blocks max_chars) (batches st)
  /\ cur_chars st = batch_chars (cur st)
  /\ (cur st <> [] -> bounded max_blocks max_chars (cur st)).

(** ** Marker codec *)

(** [mk_mark(idx)] *)
Definition mk_mark (i : Z) : str := lit "<<<SRT:" ++ repr06 i ++ lit ">>>".

(** [mk_batch_text(blocks)] *)
Definition mk_batch_text (blocks : list SrtBlock) : str :=
  let out := flat_map (fun b => mk_mark (idx b) ::
                         (if truthy (lines b) then lines b else [[]])) blocks in
  join [LF] out ++ [LF].

(** A match of [MARK_RE]: where it starts, where it ends, and group 1. *)
Record mark := mkMark {
  m_start : nat;
  m_end : nat;
  m_group : str;
}.

(** [MARK_RE] matched at the head of [s]: the six digits of group 1. *)
Definition match_mark (s : str) : option str :=
  let g := take 6 (drop 7 s) in
  if startswith (lit "<<<SRT:") s && (length g =? 6)%nat && forallb is_decimal g
     && startswith (lit ">>>") (drop 13 s)
  then Some g else None.

(** [MARK_RE.finditer]: the non-overlapping matches from left to right.
    [pos] is the offset of [s] in the text, [skip] the number of characters
    still inside the previous match. *)
Fixpoint finditer_go (pos skip : nat) (s : str) : list mark :=
  match s with
  | [] => []
  | _ :: s' =>
      match skip with
      | S k => finditer_go (S pos) k s'
      | O =>
          match match_mark s with
          | Some g => mkMark pos (pos + 16) g :: finditer_go (S pos) 15 s'
          | None => finditer_go (S pos) 0 s'
          end
      end
  end.

Definition finditer (s : str) : list mark := finditer_go 0 0 s.

(** [s[a:b]] for [0 <= a], [0 <= b] *)
Definition slice (s : str) (a b : nat) : str := take (b - a) (drop a s).

Definition fence : str := lit "```".

Definition is_fence_line (x : str) : bool := startswith fence (strip x).

(** The response with its code-fence lines removed. *)
Definition clean (content : str) : str :=
  join [LF] (List.filter (fun x => negb (is_fence_line x)) (splitlines content)).

(** The lines kept from a segment: the non-blank ones, right-stripped. *)
Definition seg_lines (seg : str) : list str :=
  map rstrip (List.filter (fun x => truthy (strip x)) (splitlines seg)).

(** The loop of [parse_zh_map] over [enumerate(marks)]; [marks] is
    [marks[i:]], so its second element is [marks[i + 1]]. *)
Fixpoint zh_loop (cleaned : str) (marks : list mark) (out : gmap Z (list str))
  : result (gmap Z (list str)) :=
  match marks with
  | [] => Ok out
  | m :: rest =>
      match or_value_error (int (m_group m)) with
      | Err e => Err e
      | Ok i =>
          let seg_start := m_end m in
          let seg_end := match rest with
                         | m' :: _ => m_start m'
                         | [] => length cleaned
                         end in
          let seg := strip (slice cleaned seg_start seg_end) in
          zh_loop cleaned rest (<[i := seg_lines seg]> out)
      end
  end.

Definition parse_zh_map (content : str) : result (gmap Z (list str)) :=
  let cleaned := clean content in
  zh_loop cleaned (finditer cleaned) ∅.

(** The id a match stands for. *)
Definition mark_id (m : mark) : Z := digits_val (m_group m).

(** Where the segment of a match ends: at the start of the next match, or
    at the end of the text. *)
Definition seg_end (cleaned : str) (rest : list mark) : nat :=
  match rest with
  | m' :: _ => m_start m'
  | [] => length cleaned
  end.

(** The lines bound to a match followed by the matches [rest]. *)
Definition mark_lines (cleaned : str) (m : mark) (rest : list mark) : list str :=
  seg_lines (strip (slice cleaned (m_end m) (seg_end cleaned rest))).

(** The text of a marker with the given digits. *)
Definition marker_text (g : str) : str := lit "<<<SRT:" ++ g ++ lit ">>>".


Definition all_space (s : str) : bool := forallb is_space s.

Definition no_linebreak (s : str) : bool := forallb (fun c => negb (is_linebreak c)) s.

(** ** Resume locator *)

Definition arrow : str := lit "-->".

(** The loop of [last_idx_in_srt] over [enumerate(lines[:-1])]: every line
    but the last, together with the line after it. *)
Fixpoint last_idx_loop (ls : list str) (last : Z) : result Z :=
  match ls with
  | l :: ((l' :: _) as rest) =>
      if isdigit (strip l) && contains arrow l' then
        match or_value_error (int (strip l)) with
        | Ok n => last_idx_loop rest n
        | Err e => Err e
        end
      else last_idx_loop rest last
  | _ => Ok last
  end.

(** [last_idx_in_srt] on the text of the file at [path]. *)
Definition last_idx_in_srt (text : str) : result Z :=
  last_idx_loop (splitlines text) 0.

(** ** Configuration values

    The configuration is a dict of Python objects produced by the
    configuration reader, which lies outside the pipeline.  Their
    conversions are the interpreter's. *)

Class Host := {
  value : Type;
  float : Type;
  str_of : value -> str;              (* str(v) *)
  int_of : value -> result Z;         (* int(v) *)
  float_of : value -> result float;   (* float(v) *)
  float_pos : float -> bool;          (* f > 0 *)
}.

(** ** Translation client *)

Section Pipeline.
Context `{Host}.

(** The two fixed system instructions. *)
Inductive prompt := BatchPrompt | SinglePrompt.

(** One request to the chat endpoint. *)
Record request := mkRequest {
  r_api_key : str;
  r_timeout_s : Z;
  r_model : value;
  r_temperature : value;
  r_system : prompt;
  r_user : str;
}.

(** What the service makes of one request: the text at
    [res["choices"][0]["message"]["content"]], or the exception raised on
    the way to it. *)
Definition reply : Type := result str.

(** A worker's view of the outside: the replies it is going to receive,
    the requests it has sent, and the pauses it has taken. *)
Record world := mkWorld {
  script : list reply;
  sent : list request;
  slept : list float;
}.

(** [post_chat] followed by the extraction of the reply's content. *)
Definition post_chat (req : request) : M world str :=
  fun w =>
    match script w with
    | [] => (Err TransportError, mkWorld [] (sent w ++ [req]) (slept w))
    | r :: rs => (r, mkWorld rs (sent w ++ [req]) (slept w))
    end.

Definition sleep (f : float) : M world unit :=
  modify (fun w => mkWorld (script w) (sent w) (slept w ++ [f])).

Definition one_lines (content : str) : list str :=
  map rstrip
    (List.filter (fun x => truthy (strip x) && negb (startswith fence (strip x)))
       (splitlines content)).

Definition translate_one (cfg : gmap string value) (src_lines : list str)
  : M world (list str) :=
  if negb (truthy src_lines) then ret []
  else
    model <- lift (getitem cfg "model");;
    temperature <- lift (getitem cfg "temperature");;
    api_key <- lift (getitem cfg "api_key");;
    timeout_v <- lift (getitem cfg "timeout_s");;
    timeout_s <- lift (int_of timeout_v);;
    content <- post_chat (mkRequest (str_of api_key) timeout_s model temperature
                            SinglePrompt (join [LF] src_lines));;
    ret (one_lines content).

(** The fallback loop of [translate_batch]. *)
Fixpoint fallback (cfg : gmap string value) (missing : list Z)
    (blocks : list SrtBlock) (zh_map : gmap Z (list str))
  : M world (gmap Z (list str)) :=
  match blocks with
  | [] => ret zh_map
  | b :: blocks' =>
      if bool_decide (idx b ∈ missing) then
        zh <- translate_one cfg (lines b);;
        fallback cfg missing blocks' (<[idx b := zh]> zh_map)
      else fallback cfg missing blocks' zh_map
  end.

Definition translate_batch (cfg : gmap string value) (blocks : list SrtBlock)
  : M world (gmap Z (list str)) :=
  model <- lift (getitem cfg "model");;
  temperature <- lift (getitem cfg "temperature");;
  api_key <- lift (getitem cfg "api_key");;
  timeout_v <- lift (getitem cfg "timeout_s");;
  timeout_s <- lift (int_of timeout_v);;
  content <- post_chat (mkRequest (str_of api_key) timeout_s model temperature
                          BatchPrompt (mk_batch_text blocks));;
  zh_map <- lift (parse_zh_map content);;
  let need : gset Z := list_to_set (map idx blocks) in
  let got : gset Z := dom zh_map in
  let missing := elements (need ∖ got) in
  if truthy missing then fallback cfg missing blocks zh_map
  else ret zh_map.

Definition run_batch (cfg : gmap string value) (batch : list SrtBlock)
  : M world (gmap Z (list str)) :=
  zh_map <- translate_batch cfg batch;;
  pause_v <- lift (getitem cfg "pause_s");;
  pause_s <- lift (float_of pause_v);;
  (if float_pos pause_s then sleep pause_s else ret tt);;;
  ret zh_map.

(** ** Orchestrator *)

Inductive event :=
| EvParse
| EvOpen (append : bool)
| EvSubmit (i : nat) (batch : list SrtBlock)
| EvWrite (b : SrtBlock) (zh_lines : list str).

(** What the main thread acts on: the output file ([None] while it does
    not exist) and the trace of what has been done. *)
Record sys := mkSys {
  out_file : option str;
  trace : list event;
}.

Definition emit (e : event) : M sys unit :=
  modify (fun s => mkSys (out_file s) (trace s ++ [e])).

(** [out_srt.open(mode)] with mode "a" or "w" *)
Definition open_out (append : bool) : M sys unit :=
  modify (fun s =>
    mkSys (if append then Some (default [] (out_file s)) else Some [])
          (trace s ++ [EvOpen append])).

(** One call of the writer on the open output. *)
Definition write_unit (b : SrtBlock) (zh_lines : list str) : M sys unit :=
  modify (fun s =>
    mkSys (Some (write_bi_srt_line (default [] (out_file s)) b zh_lines))
          (trace s ++ [EvWrite b zh_lines])).

(** [l[i]] on a list *)
Definition index {A} (l : list A) (i : nat) : result A :=
  match l !! i with
  | Some x => Ok x
  | None => Err IndexError
  end.

Definition write_batch (batch : list SrtBlock) (zh_map : gmap Z (list str))
  : M sys unit :=
  for_each batch (fun b => zh <- lift (getitem zh_map (idx b));; write_unit b zh).

(** A value together with the fact that it is the value of [x]. *)
Definition inspect {A : Type} (x : A) : { y : A | x = y } := exist _ x eq_refl.

(** The drain loop: [while next_write in pending]. *)
Equations? drain (batches : list (list SrtBlock))
    (pending : gmap nat (gmap Z (list str))) (next_write : nat) (s : sys)
  : result (gmap nat (gmap Z (list str)) * nat) * sys
  by wf (size pending) lt :=
  drain batches pending next_write s with inspect (pending !! next_write) := {
    | exist _ (Some zh_map) Hin :=
        match (batch <- lift (index batches next_write);;
               write_batch batch zh_map) s with
        | (Ok _, s') => drain batches (delete next_write pending) (S next_write) s'
        | (Err e, s') => (Err e, s')
        end
    | exist _ None _ := (Ok (pending, next_write), s) }.
Proof.
  rewrite map_size_delete, Hin.
  destruct (size pending) eqn:E; [|simpl; lia].
  apply map_size_empty_inv in E. subst pending.
  rewrite lookup_empty in Hin. discriminate.
Qed.

(** [fut.result()] of the future of batch [i]: the worker runs [run_batch]
    against the replies the service gives it. *)
Definition future_result (cfg : gmap string value) (script_i : list reply)
    (batch : list SrtBlock) : result (gmap Z (list str)) :=
  fst (run_batch cfg batch (mkWorld script_i [] [])).

(** What the future of batch [i] returned, if it succeeded. *)
Definition future_map (cfg : gmap string value) (replies : nat -> list reply)
    (batches : list (list SrtBlock)) (i : nat) : gmap Z (list str) :=
  match future_result cfg (replies i) (default [] (batches !! i)) with
  | Ok zh_map => zh_map
  | Err _ => ∅
  end.

(** The future of batch [i] succeeded. *)
Definition future_ok (cfg : gmap string value) (replies : nat -> list reply)
    (batches : list (list SrtBlock)) (i : nat) : Prop :=
  is_ok (future_result cfg (replies i) (default [] (batches !! i))) = true.

(** The loop over [as_completed]: [order] lists the batch sequence indices
    in the order their futures complete.  The batch of a future is looked
    up first, to name the future; a sequence index of a submitted batch is
    always in range. *)
Fixpoint collect (cfg : gmap string value) (replies : nat -> list reply)
    (batches : list (list SrtBlock)) (order : list nat)
    (pending : gmap nat (gmap Z (list str))) (next_write : nat)
  : M sys (gmap nat (gmap Z (list str)) * nat) :=
  match order with
  | [] => ret (pending, next_write)
  | i :: order' =>
      batch <- lift (index batches i);;
      zh_map <- lift (future_result cfg (replies i) batch);;
      st <- drain batches (<[i := zh_map]> pending) next_write;;
      collect cfg replies batches order' (fst st) (snd st)
  end.

Definition cfg_int (cfg : gmap string value) (key : string) : result Z :=
  match getitem cfg key with
  | Ok v => int_of v
  | Err e => Err e
  end.

(** [read_text] on a path whose file holds [input], if it exists. *)
Definition read_text (input : option str) : result str :=
  match input with
  | Some text => Ok text
  | None => Err OSError
  end.

Definition submit_all (batches : list (list SrtBlock)) : M sys unit :=
  for_each (imap (fun i b => (i, b)) batches) (fun ib => emit (EvSubmit ib.1 ib.2)).

(** [last_idx_in_srt(out_srt) if out_srt.exists() else 0] *)
Definition resume_point : M sys Z :=
  fun s => (match out_file s with
            | Some old => last_idx_in_srt old
            | None => Ok 0
            end, s).

(** [[b for b in blocks if b.idx > done]] *)
Definition todo_units (done : Z) (blocks : list SrtBlock) : list SrtBlock :=
  List.filter (fun b => done <? idx b) blocks.

(** [main]: [input] is the text of the file named by [in_srt], the state's
    [out_file] the text of the derived output path. *)
Definition main (cfg : gmap string value) (input : option str)
    (replies : nat -> list reply) (order : list nat) : M sys unit :=
  in_srt <- lift (getitem cfg "in_srt");;
  text <- lift (read_text input);;
  emit EvParse;;;
  blocks <- lift (parse_srt text);;
  done <- resume_point;;
  let todo := todo_units done blocks in
  if negb (truthy todo) then
    _ <- lift (cfg_int cfg "progress_len");;
    ret tt
  else
    max_blocks <- lift (cfg_int cfg "max_blocks");;
    max_chars <- lift (cfg_int cfg "max_chars");;
    let batches := split_batches todo max_blocks max_chars in
    max_workers <- lift (cfg_int cfg "max_workers");;
    bar_len <- lift (cfg_int cfg "progress_len");;
    open_out (negb (done =? 0));;;
    (if max_workers <=? 0 then raise ValueError else ret tt);;;
    submit_all batches;;;
    _ <- collect cfg replies batches order ∅ 0%nat;;
    ret tt.

(** The client options of a configuration, as the requests carry them. *)
Definition client_cfg (cfg : gmap string value) (model temperature : value)
    (api_key : str) (timeout_s : Z) : Prop :=
  exists k t,
    cfg !! "model" = Some model /\ cfg !! "temperature" = Some temperature
    /\ cfg !! "api_key" = Some k /\ str_of k = api_key
    /\ cfg !! "timeout_s" = Some t /\ int_of t = Ok timeout_s.

Definition batch_request (model temperature : value) (api_key : str)
    (timeout_s : Z) (blocks : list SrtBlock) : request :=
  mkRequest api_key timeout_s model temperature BatchPrompt (mk_batch_text blocks).

Definition single_request (model temperature : value) (api_key : str)
    (timeout_s : Z) (b : SrtBlock) : request :=
  mkRequest api_key timeout_s model temperature SinglePrompt (join [LF] (lines b)).

(** The units of a batch that a decoded response leaves without an entry,
    and those among them that have text to send. *)
Definition missing_units (zh_map : gmap Z (list str)) (blocks : list SrtBlock)
  : list SrtBlock :=
  List.filter (fun b => bool_decide (zh_map !! idx b = None)) blocks.

Definition with_text (blocks : list SrtBlock) : list SrtBlock :=
  List.filter (fun b => truthy (lines b)) blocks.

(** ** What the writer is handed *)

(** A batch paired with the translations its result holds. *)
Definition batch_units (zh_map : gmap Z (list str)) (batch : list SrtBlock)
  : list (SrtBlock * list str) :=
  map (fun b => (b, default [] (zh_map !! idx b))) batch.

(** The units of the first [k] batches, in order, each with the
    translation found in the result of its own batch. *)
Definition prefix_units (res : nat -> gmap Z (list str))
    (batches : list (list SrtBlock)) (k : nat) : list (SrtBlock * list str) :=
  concat (imap (fun i batch => batch_units (res i) batch) (take k batches)).

Definition unit_events (units : list (SrtBlock * list str)) : list event :=
  map (fun u => EvWrite u.1 u.2) units.

(** The file after the writer has been called on [units] in turn. *)
Definition render (units : list (SrtBlock * list str)) (f : str) : str :=
  fold_left (fun f u => write_bi_srt_line f u.1 u.2) units f.

(** The reassembly buffer when [done] lists the batches whose futures have
    completed: it holds the results not yet written, everything below the
    cursor is written, and the file holds the units of those batches. *)
Definition drain_inv (res : nat -> gmap Z (list str))
    (batches : list (list SrtBlock)) (s0 : sys) (done : list nat)
    (pending : gmap nat (gmap Z (list str))) (next_write : nat) (s : sys) : Prop :=
  (forall i z, pending !! i = Some z <-> In i done /\ (next_write <= i)%nat /\ z = res i)
  /\ (forall i, (i < next_write)%nat -> In i done)
  /\ (next_write <= length batches)%nat
  /\ trace s = trace s0 ++ unit_events (prefix_units res batches next_write)
  /\ default [] (out_file s)
     = render (prefix_units res batches next_write) (default [] (out_file s0)).

(** From [s] to [s'] the writer was called on [units] and nothing else
    happened. *)
Definition wrote (units : list (SrtBlock * list str)) (s s' : sys) : Prop :=
  trace s' = trace s ++ unit_events units
  /\ default [] (out_file s') = render units (default [] (out_file s))
  /\ (is_Some (out_file s) -> is_Some (out_file s')).


End Pipeline.

(** ** Written files read back *)

(** A line as the parser keeps it and the writer can emit it. *)
Definition good_line (l : str) : Prop :=
  no_linebreak l = true /\ blank l = false.

(** A block as the parser produces it. *)
Definition wf_block (b : SrtBlock) : Prop :=
  strip (time b) = time b /\ no_linebreak (time b) = true
  /\ Forall good_line (lines b).

(** The lines the writer emits for one unit. *)
Definition unit_lines (u : SrtBlock * list str) : list str :=
  [repr (idx u.1); time u.1] ++ u.2 ++ lines u.1 ++ [[]].

(** The block read back from what the writer emitted for one unit: the
    translated lines above the original ones. *)
Definition merged (u : SrtBlock * list str) : SrtBlock :=
  mkSrtBlock (idx u.1) (time u.1) (u.2 ++ lines u.1).

(** The file written for [blocks], from empty, when [zh] translates them. *)
Definition write_all (zh : SrtBlock -> list str) (blocks : list SrtBlock) : str :=
  render (map (fun b => (b, zh b)) blocks) [].

(** A unit as a well-formed subtitle file holds it: a non-negative id, a
    timing line with the arrow, and no arrow in the text. *)
Definition plain_unit (u : SrtBlock * list str) : Prop :=
  0 <= idx u.1 /\ contains arrow (time u.1) = true
  /\ Forall (fun l => contains arrow l = false) (u.2 ++ lines u.1).

(** ** Lines and markers in transit *)

(** Each line followed by a carriage return and a line feed. *)
Definition crlf_lines (ls : list str) : str :=
  concat (map (fun l => l ++ [CR; LF]) ls).

(** A line as the decoders keep it. *)
Definition kept_line (l : str) : Prop :=
  l <> [] /\ blank l = false /\ rstrip l = l /\ no_linebreak l = true.

(** A line without white space at either end. *)
Definition tidy_line (l : str) : Prop :=
  l <> [] /\ lstrip l = l /\ rstrip l = l /\ no_linebreak l = true.

(** The text that opens every marker. *)
Definition mark_head : str := lit "<<<SRT:".

(** The lines a unit decodes to when the response echoes the request. *)
Definition echoed (b : SrtBlock) : list str :=
  seg_lines (strip (join [LF] (lines b))).

(** A unit whose marker and text survive the trip through the codec. *)
Definition echo_safe (b : SrtBlock) : Prop :=
  0 <= idx b < 1000000
  /\ Forall (fun l => no_linebreak l = true /\ is_fence_line l = false
                      /\ contains mark_head l = false) (lines b).

(** The dict an echoed request decodes to. *)
Definition echo_map (blocks : list SrtBlock) : gmap Z (list str) :=
  fold_left (fun zh b => <[idx b := echoed b]> zh) blocks ∅.

(** ** Configuration reader

    [load_yaml_kv] types a value by its literal form.  [str.lower] is
    modelled on the ASCII letters; the float literals are the
    interpreter's. *)

(** [s.endswith(p)] *)
Definition endswith (p s : str) : bool := startswith (rev p) (rev s).

(** [s.lower()], on the ASCII letters *)
Definition lower (s : str) : str :=
  map (fun c => if (65 <=? c) && (c <=? 90) then c + 32 else c)%N s.

(** [k, v = raw.split(":", 1)]: [None] is the [ValueError] raised by the
    unpacking when [raw] has no colon. *)
Fixpoint split_colon (raw : str) : option (str * str) :=
  match raw with
  | [] => None
  | c :: raw' =>
      if (c =? 58)%N then Some ([], raw')
      else (fun kv : str * str => (c :: kv.1, kv.2)) <$> split_colon raw'
  end.

(** The values [load_yaml_kv] stores. *)
Inductive yaml_value (F : Type) :=
| YStr (s : str)
| YBool (b : bool)
| YInt (z : Z)
| YFloat (f : F).
Arguments YStr {F} s.
Arguments YBool {F} b.
Arguments YInt {F} z.
Arguments YFloat {F} f.

Section Config.
Variable F : Type.
(** [float(val)] on a string; [None] is [ValueError]. *)
Variable float_of_str : str -> option F.

(** [val.startswith(q) and val.endswith(q)] for a quote character *)
Definition quoted (q : char) (val : str) : bool :=
  startswith [q] val && endswith [q] val.

(** The typing of a value by its literal form. *)
Definition yaml_scalar (val : str) : yaml_value F :=
  if quoted 34%N val || quoted 39%N val then YStr (slice val 1 (length val - 1))
  else if bool_decide (lower val = lit "true") then YBool true
  else if bool_decide (lower val = lit "false") then YBool false
  else match int val with
       | Some z => YInt z
       | None =>
           match float_of_str val with
           | Some f => YFloat f
           | None => YStr val
           end
       end.

(** A line that is neither blank nor a comment. *)
Definition significant (raw : str) : bool :=
  truthy (strip raw) && negb (startswith (lit "#") (strip raw)).

(** The loop of [load_yaml_kv] over the lines of the file. *)
Fixpoint load_lines (ls : list str) (out : gmap str (yaml_value F))
  : result (gmap str (yaml_value F)) :=
  match ls with
  | [] => Ok out
  | raw :: ls' =>
      let line := strip raw in
      if negb (truthy line) || startswith (lit "#") line then load_lines ls' out
      else
        match split_colon raw with
        | None => Err ValueError
        | Some (k, v) => load_lines ls' (<[strip k := yaml_scalar (strip v)]> out)
        end
  end.

(** [load_yaml_kv] on the text of the file at [path]. *)
Definition load_yaml_kv (text : str) : result (gmap str (yaml_value F)) :=
  load_lines (splitlines text) ∅.

End Config.

(** ** A concrete host and sample data

    Configuration values that are strings, booleans or integers; pauses are
    whole seconds. *)

Inductive pyval :=
| VStr (s : str)
| VBool (b : bool)
| VInt (z : Z).

#[export] Instance sample_host : Host := {|
  value := pyval;
  float := Z;
  str_of v := match v with
              | VStr s => s
              | VBool b => if b then lit "True" else lit "False"
              | VInt z => repr z
              end;
  int_of v := match v with
              | VStr s => or_value_error (int s)
              | VBool b => Ok (if b then 1 else 0)
              | VInt z => Ok z
              end;
  float_of v := match v with
                | VStr s => or_value_error (int s)
                | VBool b => Ok (if b then 1 else 0)
                | VInt z => Ok z
                end;
  float_pos f := 0 <? f;
|}.

Definition sample_cfg : gmap string (@value sample_host) :=
  list_to_map [("in_srt", VStr (lit "in.srt")); ("model", VStr (lit "m"));
               ("temperature", VInt 1); ("api_key", VStr (lit "k"));
               ("timeout_s", VInt 60); ("max_blocks", VInt 2);
               ("max_chars", VInt 2000); ("max_workers", VInt 4);
               ("pause_s", VInt 0); ("progress_len", VInt 30)].

(** Lines joined by line feeds, each line terminated. *)
Definition text_of (ls : list string) : str := write_lines (map lit ls).

Definition sample_input : str :=
  text_of ["1"; "00:00:01,000 --> 00:00:02,000"; "Hello"; "";
           "2"; "00:00:03,000 --> 00:00:04,000"; "World"; "";
           "3"; "00:00:05,000 --> 00:00:06,000"; "Test"; ""].

Definition sample_blocks : list SrtBlock :=
  [mkSrtBlock 1 (lit "00:00:01,000 --> 00:00:02,000") [lit "Hello"];
   mkSrtBlock 2 (lit "00:00:03,000 --> 00:00:04,000") [lit "World"];
   mkSrtBlock 3 (lit "00:00:05,000 --> 00:00:06,000") [lit "Test"]].

(** A reply that echoes the markers of units 1 and 3 only. *)
Definition sample_reply : str :=
  text_of ["<<<SRT:000001>>>"; "ni hao"; "<<<SRT:000003>>>"; "ce shi"].

Definition sample_decoded : gmap Z (list str) :=
  <[3 := [lit "ce shi"]]> (<[1 := [lit "ni hao"]]> ∅).


(** A reply that echoes every marker. *)
Definition full_reply : str :=
  text_of ["<<<SRT:000001>>>"; "ni hao"; "<<<SRT:000002>>>"; "shi jie";
           "<<<SRT:000003>>>"; "ce shi"].


(** The translations of the end-to-end example, as code points. *)
Definition ni_hao : str := [20320; 22909]%N.
Definition shi_jie : str := [19990; 30028]%N.
Definition ce_shi : str := [27979; 35797]%N.

(** The reply of the mock service to the one batch of the example. *)
Definition example_reply : str :=
  write_lines [lit "<<<SRT:000001>>>"; ni_hao; lit "<<<SRT:000002>>>"; shi_jie;
               lit "<<<SRT:000003>>>"; ce_shi].

(** The bilingual file expected for the example. *)
Definition example_output : str :=
  write_lines [lit "1"; lit "00:00:01,000 --> 00:00:02,000"; ni_hao; lit "Hello"; [];
               lit "2"; lit "00:00:03,000 --> 00:00:04,000"; shi_jie; lit "World"; [];
               lit "3"; lit "00:00:05,000 --> 00:00:06,000"; ce_shi; lit "Test"; []].

(** * Properties *)

(** ** Characters and integers *)

Ltac char_cases :=
  try (apply not_true_is_false; intros ?);
  unfold is_int_space, is_space, is_linebreak, LF, CR in *;
  rewrite ?orb_true_iff, ?andb_true_iff, ?negb_true_iff, ?andb_false_iff,
    ?N.leb_le, ?N.leb_gt, ?N.eqb_eq in *;
  lia.

Lemma linebreak_is_space c : is_linebreak c = true -> is_space c = true.
Proof. intros H. char_cases. Qed.

Lemma int_space_is_space c : is_int_space c = true -> is_space c = true.
Proof. unfold is_int_space. intros H. apply andb_prop in H. tauto. Qed.

(** The white space characters, one by one. *)
Definition spaces : list char :=
  [9; 10; 11; 12; 13; 28; 29; 30; 31; 32; 133; 160; 5760; 8192; 8193; 8194;
   8195; 8196; 8197; 8198; 8199; 8200; 8201; 8202; 8232; 8233; 8239; 8287;
   12288]%N.

Lemma is_space_spaces c : is_space c = true -> In c spaces.
Proof.
  intros H. unfold spaces. cbn [In].
  unfold is_space in H.
  rewrite ?orb_true_iff, ?andb_true_iff, ?N.leb_le, ?N.eqb_eq in H. lia.
Qed.

(** A decimal digit lies in the run of ten that starts at its zero. *)
Lemma to_decimal_spec c d :
  to_decimal c = Some d ->
  exists z, In z decimal_zeros /\ (z <= c <= z + 9)%N /\ d = Z.of_N (c - z).
Proof.
  unfold to_decimal. intros H. apply fmap_Some in H as (z & Hfind & ->).
  apply find_some in Hfind as [Hin Hz].
  apply andb_prop in Hz as [H1 H2]. apply N.leb_le in H1.
  apply negb_true_iff, N.ltb_ge in H2. eauto.
Qed.

Lemma is_decimal_val c : is_decimal c = true -> to_decimal c = Some (digit_val c).
Proof.
  unfold is_decimal, digit_val. destruct (to_decimal c); [reflexivity|discriminate].
Qed.

Lemma digit_val_range c : is_decimal c = true -> 0 <= digit_val c <= 9.
Proof.
  intros Hc. apply is_decimal_val, to_decimal_spec in Hc as (z & _ & Hz & ->). lia.
Qed.

(** Below 1632 the decimal digits are the ASCII ones. *)
Lemma decimal_ascii c :
  is_decimal c = true -> (c < 1632)%N ->
  (48 <= c <= 57)%N /\ digit_val c = Z.of_N c - 48.
Proof.
  intros Hc Hlow. apply is_decimal_val in Hc.
  apply to_decimal_spec in Hc as (z & Hin & Hz & ->).
  unfold decimal_zeros in Hin. cbn [In] in Hin. lia.
Qed.

(** No white space character is a digit. *)
Lemma digit_not_space c : is_decimal c = true -> is_space c = false.
Proof.
  intros Hc. apply not_true_is_false. intros Hs.
  apply is_space_spaces in Hs.
  assert (Hall : forallb (fun s => negb (is_decimal s)) spaces = true)
    by (vm_compute; reflexivity).
  rewrite forallb_forall in Hall. specialize (Hall c Hs).
  rewrite Hc in Hall. discriminate.
Qed.


Lemma is_decimal_digit c : is_decimal c = true -> is_digit c = true.
Proof. unfold is_digit. intros ->. reflexivity. Qed.

(** A decimal digit is not the given character, which is none. *)
Lemma decimal_neq c x : is_decimal c = true -> is_decimal x = false -> (c =? x)%N = false.
Proof.
  intros Hc Hx. apply N.eqb_neq. intros ->. congruence.
Qed.

Lemma truthy_false {A} (l : list A) : truthy l = false <-> l = [].
Proof. destruct l; simpl; split; congruence. Qed.

Lemma truthy_true {A} (l : list A) : truthy l = true <-> l <> [].
Proof. destruct l; simpl; split; congruence. Qed.

(** A string without white space is its own strip. *)
Lemma rstrip_no_space s :
  forallb (fun c => negb (is_space c)) s = true -> rstrip s = s.
Proof.
  induction s as [|c s IH]; simpl; [reflexivity|].
  intros H. apply andb_prop in H as [Hc Hs]. rewrite (IH Hs).
  destruct (is_space c); simpl in *; [discriminate | reflexivity].
Qed.

Lemma strip_no_space s :
  forallb (fun c => negb (is_space c)) s = true -> strip s = s.
Proof.
  intros H. unfold strip.
  assert (lstrip s = s) as ->.
  { destruct s as [|c s]; simpl in *; [reflexivity|].
    apply andb_prop in H as [Hc _].
    destruct (is_space c); simpl in *; [discriminate | reflexivity]. }
  apply rstrip_no_space, H.
Qed.

(** [int] skips nothing around a string that has no white space. *)
Lemma int_strip_no_space s :
  forallb (fun c => negb (is_space c)) s = true -> int_rstrip (int_lstrip s) = s.
Proof.
  intros H.
  assert (Hns : forall c, is_space c = false -> is_int_space c = false).
  { intros c Hc. destruct (is_int_space c) eqn:E; [|reflexivity].
    apply int_space_is_space in E. congruence. }
  assert (int_lstrip s = s) as ->.
  { destruct s as [|c s]; simpl in *; [reflexivity|].
    apply andb_prop in H as [Hc _]. apply negb_true_iff in Hc.
    rewrite (Hns c Hc). reflexivity. }
  induction s as [|c s IH]; simpl; [reflexivity|].
  simpl in H. apply andb_prop in H as [Hc Hs]. apply negb_true_iff in Hc.
  rewrite (IH Hs), (Hns c Hc). reflexivity.
Qed.

Lemma digits_no_space s :
  forallb is_decimal s = true -> forallb (fun c => negb (is_space c)) s = true.
Proof.
  induction s as [|c s IH]; simpl; [reflexivity|].
  intros H. apply andb_prop in H as [Hc Hs].
  rewrite (digit_not_space _ Hc), (IH Hs). reflexivity.
Qed.

Lemma int_digits_all b s :
  forallb is_decimal s = true -> s <> [] \/ b = true -> int_digits b s = Some s.
Proof.
  revert b. induction s as [|c s IH]; intros b Hs Hne; simpl.
  - destruct Hne as [Hne| ->]; [by destruct Hne | reflexivity].
  - simpl in Hs. apply andb_prop in Hs as [Hc Hs]. rewrite Hc.
    rewrite (IH true Hs) by auto. reflexivity.
Qed.

(** [int] of a non-empty run of digits. *)
Lemma int_digits_str s :
  forallb is_decimal s = true -> s <> [] -> int s = Some (digits_val s).
Proof.
  intros Hs Hne. unfold int.
  rewrite (int_strip_no_space s (digits_no_space s Hs)).
  destruct s as [|c s]; [congruence|].
  assert (Hc : is_decimal c = true) by (simpl in Hs; apply andb_prop in Hs; tauto).
  rewrite (decimal_neq c 45%N Hc eq_refl), (decimal_neq c 43%N Hc eq_refl).
  rewrite int_digits_all; auto.
Qed.

(** ** Printing integers *)

Lemma digit_cases d :
  0 <= d <= 9 ->
  d = 0 \/ d = 1 \/ d = 2 \/ d = 3 \/ d = 4 \/ d = 5 \/ d = 6 \/ d = 7 \/ d = 8 \/ d = 9.
Proof. lia. Qed.

Lemma digit_chr_digit d : 0 <= d <= 9 -> is_decimal (digit_chr d) = true.
Proof.
  intros Hd. apply digit_cases in Hd.
  repeat (destruct Hd as [->|Hd]; [reflexivity|]). subst d. reflexivity.
Qed.

Lemma digit_val_chr d : 0 <= d <= 9 -> digit_val (digit_chr d) = d.
Proof.
  intros Hd. apply digit_cases in Hd.
  repeat (destruct Hd as [->|Hd]; [reflexivity|]). subst d. reflexivity.
Qed.

Lemma digits_val_snoc ds c : digits_val (ds ++ [c]) = 10 * digits_val ds + digit_val c.
Proof. unfold digits_val. rewrite fold_left_app. reflexivity. Qed.

(** With enough fuel the digits of [n] are produced, all of them. *)
Lemma digits_fuel_spec fuel :
  forall n acc,
  0 <= n < 2 ^ Z.of_nat fuel -> (1 <= fuel)%nat ->
  exists ds,
    digits_fuel fuel n acc = ds ++ acc
    /\ ds <> [] /\ forallb is_decimal ds = true /\ digits_val ds = n.
Proof.
  induction fuel as [|fuel IH]; intros n acc Hn Hfuel; [lia|]. simpl.
  assert (Hmod : 0 <= n mod 10 <= 9) by (pose proof (Z.mod_pos_bound n 10); lia).
  destruct (n <? 10) eqn:Esmall.
  - apply Z.ltb_lt in Esmall. exists [digit_chr (n mod 10)].
    split; [reflexivity|]. split; [discriminate|]. split.
    + simpl. rewrite digit_chr_digit by exact Hmod. reflexivity.
    + unfold digits_val. simpl. rewrite digit_val_chr by exact Hmod.
      rewrite Z.mod_small; lia.
  - apply Z.ltb_ge in Esmall.
    assert (Hdiv : 1 <= n / 10 /\ 2 * (n / 10) <= n).
    { pose proof (Z.div_mod n 10). lia. }
    assert (Hpow : 2 ^ Z.of_nat (S fuel) = 2 * 2 ^ Z.of_nat fuel)
      by (rewrite Nat2Z.inj_succ, Z.pow_succ_r; lia).
    assert (Hfuel' : (1 <= fuel)%nat).
    { destruct fuel; [simpl in Hn; lia|lia]. }
    destruct (IH (n / 10) (digit_chr (n mod 10) :: acc)) as (ds & Hrun & Hne & Hdig & Hval);
      [lia|exact Hfuel'|].
    exists (ds ++ [digit_chr (n mod 10)]). rewrite Hrun, <- app_assoc.
    split; [reflexivity|]. split; [destruct ds; discriminate|]. split.
    + rewrite forallb_app. apply andb_true_intro. split; [exact Hdig|].
      simpl. rewrite digit_chr_digit by exact Hmod. reflexivity.
    + rewrite digits_val_snoc, Hval, digit_val_chr by exact Hmod.
      pose proof (Z.div_mod n 10). lia.
Qed.

Lemma digits_of_spec n :
  0 <= n ->
  digits_of n <> [] /\ forallb is_decimal (digits_of n) = true
  /\ digits_val (digits_of n) = n.
Proof.
  intros Hn. unfold digits_of.
  destruct (digits_fuel_spec (S (Z.to_nat (Z.log2 n))) n []) as (ds & Hrun & Hrest);
    [|lia|rewrite Hrun, app_nil_r; exact Hrest].
  split; [exact Hn|]. rewrite Nat2Z.inj_succ, Z2Nat.id by apply Z.log2_nonneg.
  destruct (Z.eq_dec n 0) as [->|Hpos]; [reflexivity|].
  apply Z.log2_spec. lia.
Qed.

(** The characters of a printed integer: no white space. *)
Lemma repr_no_space z : forallb (fun c => negb (is_space c)) (repr z) = true.
Proof.
  unfold repr. destruct (z <? 0) eqn:E.
  - apply Z.ltb_lt in E. destruct (digits_of_spec (- z)) as (_ & Hdig & _); [lia|].
    simpl. rewrite (digits_no_space _ Hdig). reflexivity.
  - apply Z.ltb_ge in E. destruct (digits_of_spec z E) as (_ & Hdig & _).
    apply digits_no_space, Hdig.
Qed.

Lemma repr_nonempty z : repr z <> [].
Proof.
  unfold repr. destruct (z <? 0) eqn:E; [discriminate|].
  apply Z.ltb_ge in E. apply (digits_of_spec z E).
Qed.

(** Reading back a printed integer. *)
Lemma int_repr z : int (repr z) = Some z.
Proof.
  unfold int. rewrite (int_strip_no_space _ (repr_no_space z)).
  unfold repr. destruct (z <? 0) eqn:E.
  - apply Z.ltb_lt in E. destruct (digits_of_spec (- z)) as (Hne & Hdig & Hval); [lia|].
    simpl. rewrite int_digits_all by auto. simpl. rewrite Hval. f_equal. lia.
  - apply Z.ltb_ge in E. destruct (digits_of_spec z E) as (Hne & Hdig & Hval).
    rewrite <- (int_strip_no_space _ (digits_no_space _ Hdig)) at 1.
    fold (int (digits_of z)). rewrite int_digits_str by assumption. rewrite Hval.
    reflexivity.
Qed.

(** ** Stripping *)

Lemma lstrip_nil_iff s : lstrip s = [] <-> all_space s = true.
Proof.
  induction s as [|c s IH]; simpl; [tauto|].
  destruct (is_space c); simpl; [exact IH|]. split; discriminate.
Qed.

Lemma rstrip_nil_iff s : rstrip s = [] <-> all_space s = true.
Proof.
  induction s as [|c s IH]; simpl; [tauto|].
  destruct (is_space c); simpl.
  - destruct (rstrip s) eqn:E; simpl.
    + split; [intros _; apply IH; reflexivity|reflexivity].
    + split; [discriminate|]. intros Hs. apply IH in Hs. discriminate.
  - split; discriminate.
Qed.

Lemma all_space_lstrip s : all_space (lstrip s) = all_space s.
Proof.
  induction s as [|c s IH]; simpl; [reflexivity|].
  destruct (is_space c) eqn:E; simpl; [exact IH|]. rewrite E. reflexivity.
Qed.

Lemma all_space_rstrip s : all_space (rstrip s) = all_space s.
Proof.
  induction s as [|c s IH]; simpl; [reflexivity|].
  destruct (is_space c) eqn:E; simpl.
  - destruct (rstrip s) eqn:Er; simpl.
    + symmetry. apply rstrip_nil_iff. exact Er.
    + rewrite E. simpl. rewrite <- IH. reflexivity.
  - rewrite E. reflexivity.
Qed.

Lemma strip_nil_iff s : strip s = [] <-> all_space s = true.
Proof. unfold strip. rewrite rstrip_nil_iff, all_space_lstrip. tauto. Qed.

Lemma blank_all_space s : blank s = all_space s.
Proof.
  unfold blank. destruct (all_space s) eqn:E.
  - apply strip_nil_iff in E. rewrite E. reflexivity.
  - destruct (strip s) eqn:Es; [|reflexivity].
    apply strip_nil_iff in Es. congruence.
Qed.

Lemma rstrip_idem s : rstrip (rstrip s) = rstrip s.
Proof.
  induction s as [|c s IH]; simpl; [reflexivity|].
  destruct (is_space c && negb (truthy (rstrip s))) eqn:E; simpl; [reflexivity|].
  rewrite IH, E. reflexivity.
Qed.

Lemma lstrip_head s : lstrip (rstrip (lstrip s)) = rstrip (lstrip s).
Proof.
  induction s as [|c s IH]; simpl; [reflexivity|].
  destruct (is_space c) eqn:E; [exact IH|].
  simpl. rewrite E. simpl. rewrite E. reflexivity.
Qed.

Lemma strip_idem s : strip (strip s) = strip s.
Proof. unfold strip. rewrite lstrip_head. apply rstrip_idem. Qed.

(** A line kept by a filter on non-blank lines: once right-stripped it is
    still non-empty, non-blank and free of trailing white space. *)
Lemma rstrip_kept x :
  truthy (strip x) = true ->
  rstrip x <> [] /\ blank (rstrip x) = false /\ rstrip (rstrip x) = rstrip x.
Proof.
  intros Hx. assert (Hs : all_space x = false).
  { destruct (all_space x) eqn:E; [|reflexivity].
    apply strip_nil_iff in E. rewrite E in Hx. discriminate. }
  split; [|split; [|apply rstrip_idem]].
  - intros Hnil. apply rstrip_nil_iff in Hnil. congruence.
  - rewrite blank_all_space, all_space_rstrip. exact Hs.
Qed.

(** ** Lines *)

Lemma no_linebreak_app s t :
  no_linebreak (s ++ t) = no_linebreak s && no_linebreak t.
Proof. apply forallb_app. Qed.

Lemma splitlines_go_no_linebreak s :
  forall after_cr acc l,
  no_linebreak acc = true ->
  In l (splitlines_go after_cr acc s) -> no_linebreak l = true.
Proof.
  induction s as [|c s IH]; intros after_cr acc l Hacc; simpl.
  - destruct acc; simpl; [tauto|]. intros [<-|[]]. exact Hacc.
  - destruct (after_cr && (c =? LF)%N); [apply IH, Hacc|].
    destruct (is_linebreak c) eqn:E.
    + intros [<-|Hl]; [exact Hacc|]. eapply IH; [|exact Hl]. reflexivity.
    + apply IH. rewrite no_linebreak_app, Hacc. simpl. rewrite E. reflexivity.
Qed.

Lemma splitlines_no_linebreak s l : In l (splitlines s) -> no_linebreak l = true.
Proof. apply splitlines_go_no_linebreak. reflexivity. Qed.

Lemma splitlines_go_line l :
  forall acc rest,
  no_linebreak l = true ->
  splitlines_go false acc (l ++ LF :: rest) = (acc ++ l) :: splitlines_go false [] rest.
Proof.
  induction l as [|c l IH]; intros acc rest Hl; simpl.
  - rewrite app_nil_r. reflexivity.
  - simpl in Hl. apply andb_prop in Hl as [Hc Hl].
    apply negb_true_iff in Hc. rewrite Hc.
    rewrite (IH _ _ Hl), <- app_assoc. reflexivity.
Qed.

(** Lines written one per line are read back as they were. *)
Lemma splitlines_write_lines ls :
  Forall (fun l => no_linebreak l = true) ls -> splitlines (write_lines ls) = ls.
Proof.
  unfold splitlines, write_lines.
  induction 1 as [|l ls Hl Hls IH]; simpl; [reflexivity|].
  rewrite <- app_assoc. simpl. rewrite (splitlines_go_line l [] _ Hl). simpl.
  rewrite IH. reflexivity.
Qed.

(** ** Parser and writer *)

Lemma parse_loop_cons l rest :
  parse_loop (l :: rest)
  = if blank l then parse_loop rest
    else match int (strip l) with
         | None => Err ValueError
         | Some i =>
             match rest with
             | [] => Err IndexError
             | t :: rest' =>
                 match parse_loop (drop_blank (drop_text rest')) with
                 | Ok blocks => Ok (mkSrtBlock i (strip t) (take_text rest') :: blocks)
                 | Err e => Err e
                 end
             end
         end.
Proof.
  simp parse_loop. destruct (blank l); simpl; [reflexivity|].
  destruct (int (strip l)); simpl; [|reflexivity].
  destruct rest; simpl; [reflexivity|].
  destruct (parse_loop _); reflexivity.
Qed.

Lemma rstrip_lf_id l : no_linebreak l = true -> rstrip_lf l = l.
Proof.
  induction l as [|c l IH]; simpl; [reflexivity|]. intros Hl.
  apply andb_prop in Hl as [Hc Hl]. rewrite (IH Hl).
  destruct (c =? LF)%N eqn:E; [|reflexivity].
  apply N.eqb_eq in E. subst c. discriminate.
Qed.

Lemma no_linebreak_lstrip s : no_linebreak s = true -> no_linebreak (lstrip s) = true.
Proof.
  induction s as [|c s IH]; simpl; [reflexivity|]. intros Hs.
  destruct (is_space c); [|exact Hs]. apply andb_prop in Hs as [_ Hs]. apply IH, Hs.
Qed.

Lemma no_linebreak_rstrip s : no_linebreak s = true -> no_linebreak (rstrip s) = true.
Proof.
  induction s as [|c s IH]; simpl; [reflexivity|]. intros Hs.
  apply andb_prop in Hs as [Hc Hs].
  destruct (is_space c && negb (truthy (rstrip s))); simpl; [reflexivity|].
  rewrite Hc. apply IH, Hs.
Qed.

Lemma no_linebreak_strip s : no_linebreak s = true -> no_linebreak (strip s) = true.
Proof. intros Hs. apply no_linebreak_rstrip, no_linebreak_lstrip, Hs. Qed.

Lemma take_text_good ls :
  Forall (fun l => no_linebreak l = true) ls -> Forall good_line (take_text ls).
Proof.
  induction 1 as [|l ls Hl Hls IH]; simpl; [constructor|].
  destruct (blank l) eqn:E; [constructor|].
  rewrite (rstrip_lf_id l Hl). constructor; [split; assumption|exact IH].
Qed.

Lemma drop_text_suffix ls : exists pre, ls = pre ++ drop_text ls.
Proof.
  induction ls as [|l ls [pre IH]]; simpl; [exists []; reflexivity|].
  destruct (blank l); [exists []; reflexivity|].
  exists (l :: pre). simpl. f_equal. exact IH.
Qed.

Lemma drop_blank_suffix ls : exists pre, ls = pre ++ drop_blank ls.
Proof.
  induction ls as [|l ls [pre IH]]; simpl; [exists []; reflexivity|].
  destruct (blank l); [|exists []; reflexivity].
  exists (l :: pre). simpl. f_equal. exact IH.
Qed.

(** What is left after a block is a suffix of the lines. *)
Lemma after_block_suffix ls : exists pre, ls = pre ++ drop_blank (drop_text ls).
Proof.
  destruct (drop_text_suffix ls) as [p1 H1].
  destruct (drop_blank_suffix (drop_text ls)) as [p2 H2].
  exists (p1 ++ p2). rewrite <- app_assoc, <- H2. exact H1.
Qed.

(** Every block the parser returns is well formed. *)
Lemma parse_loop_wf n :
  forall ls blocks,
  (length ls <= n)%nat ->
  Forall (fun l => no_linebreak l = true) ls ->
  parse_loop ls = Ok blocks -> Forall wf_block blocks.
Proof.
  induction n as [|n IH]; intros ls blocks Hlen Hls.
  - destruct ls; [|simpl in Hlen; lia]. simp parse_loop. intros [= <-]. constructor.
  - destruct ls as [|l rest]; [simp parse_loop; intros [= <-]; constructor|].
    rewrite parse_loop_cons. simpl in Hlen.
    apply Forall_cons in Hls as [Hl Hrest].
    destruct (blank l); [apply IH; [lia|exact Hrest]|].
    destruct (int (strip l)) as [i|]; [|discriminate].
    destruct rest as [|t rest']; [discriminate|].
    apply Forall_cons in Hrest as [Ht Hrest'].
    destruct (after_block_suffix rest') as [pre Hpre].
    destruct (parse_loop (drop_blank (drop_text rest'))) as [tail|] eqn:Etail;
      [|discriminate].
    intros [= <-]. constructor.
    + split; [apply strip_idem|]. split; [apply no_linebreak_strip, Ht|].
      apply take_text_good, Hrest'.
    + apply (IH _ _) in Etail; [exact Etail| |].
      * apply (f_equal (@length _)) in Hpre. rewrite length_app in Hpre.
        simpl in Hlen. lia.
      * rewrite Hpre in Hrest'. apply Forall_app in Hrest'. tauto.
Qed.

Lemma parse_srt_wf text blocks : parse_srt text = Ok blocks -> Forall wf_block blocks.
Proof.
  unfold parse_srt. apply (parse_loop_wf (length (splitlines text))); [lia|].
  apply List.Forall_forall. intros l Hl. apply splitlines_no_linebreak in Hl. exact Hl.
Qed.

Lemma write_lines_app ls ms : write_lines (ls ++ ms) = write_lines ls ++ write_lines ms.
Proof. unfold write_lines. rewrite map_app, concat_app. reflexivity. Qed.

Lemma write_lines_cons l ls : write_lines (l :: ls) = l ++ LF :: write_lines ls.
Proof. unfold write_lines. simpl. rewrite <- app_assoc. reflexivity. Qed.

(** The writer appends the lines of the unit, each terminated. *)
Lemma write_bi_srt_line_lines f b zh :
  write_bi_srt_line f b zh = f ++ write_lines (unit_lines (b, zh)).
Proof.
  unfold write_bi_srt_line.
  assert (Hif : forall (x : str) ls,
             (if truthy ls then x ++ write_lines ls else x) = x ++ write_lines ls).
  { intros x [|l ls]; simpl; [rewrite app_nil_r|]; reflexivity. }
  rewrite !Hif.
  change (unit_lines (b, zh)) with (repr (idx b) :: time b :: (zh ++ lines b ++ [[]])).
  rewrite !write_lines_cons, !write_lines_app, write_lines_cons.
  change (write_lines []) with (@nil N).
  rewrite <- !app_assoc. reflexivity.
Qed.

Lemma render_lines units :
  forall f, render units f = f ++ write_lines (flat_map unit_lines units).
Proof.
  unfold render. induction units as [|u units IH]; intros f; simpl.
  - rewrite app_nil_r. reflexivity.
  - rewrite IH. destruct u as [b zh]. simpl fst. simpl snd.
    rewrite write_bi_srt_line_lines, <- app_assoc. f_equal. symmetry.
    apply (write_lines_app (unit_lines (b, zh))).
Qed.

Lemma blank_repr z : blank (repr z) = false.
Proof.
  rewrite blank_all_space. pose proof (repr_no_space z) as Hns.
  pose proof (repr_nonempty z) as Hne.
  destruct (repr z) as [|c r]; [congruence|]. simpl in *.
  apply andb_prop in Hns as [Hc _]. apply negb_true_iff in Hc. rewrite Hc. reflexivity.
Qed.

Lemma space_or_not_linebreak c : is_space c = false -> is_linebreak c = false.
Proof.
  intros Hc. destruct (is_linebreak c) eqn:E; [|reflexivity].
  apply linebreak_is_space in E. congruence.
Qed.

Lemma no_linebreak_repr z : no_linebreak (repr z) = true.
Proof.
  pose proof (repr_no_space z) as Hns. induction (repr z) as [|c r IH]; [reflexivity|].
  simpl in *. apply andb_prop in Hns as [Hc Hr]. apply negb_true_iff in Hc.
  rewrite (space_or_not_linebreak c Hc). simpl. apply IH, Hr.
Qed.

Lemma take_text_lines ls rest :
  Forall good_line ls -> take_text (ls ++ [] :: rest) = ls.
Proof.
  induction 1 as [|l ls [Hnl Hnb] Hls IH]; simpl; [reflexivity|].
  rewrite Hnb, (rstrip_lf_id l Hnl), IH. reflexivity.
Qed.

Lemma drop_text_lines ls rest :
  Forall good_line ls -> drop_text (ls ++ [] :: rest) = [] :: rest.
Proof.
  induction 1 as [|l ls [Hnl Hnb] Hls IH]; simpl; [reflexivity|].
  rewrite Hnb. exact IH.
Qed.

(** The lines written for a list of units start with an index line. *)
Lemma drop_blank_units units :
  drop_blank (flat_map unit_lines units) = flat_map unit_lines units.
Proof.
  destruct units as [|u units]; [reflexivity|].
  change (flat_map unit_lines (u :: units))
    with (repr (idx u.1) :: time u.1 :: (u.2 ++ lines u.1 ++ [[]]) ++ flat_map unit_lines units).
  simpl. rewrite blank_repr. reflexivity.
Qed.

(** Reading back the lines written for well-formed units. *)
Lemma parse_loop_units units :
  Forall (fun u => wf_block u.1 /\ Forall good_line u.2) units ->
  parse_loop (flat_map unit_lines units) = Ok (map merged units).
Proof.
  induction 1 as [|[b zh] units [(Hstrip & Htime & Hlines) Hzh] Hunits IH];
    [simp parse_loop; reflexivity|].
  simpl in Hstrip, Htime, Hlines, Hzh.
  change (flat_map unit_lines ((b, zh) :: units))
    with (repr (idx b) :: time b :: (zh ++ lines b ++ [[]]) ++ flat_map unit_lines units).
  rewrite parse_loop_cons, blank_repr.
  rewrite (strip_no_space _ (repr_no_space (idx b))), int_repr.
  assert (Hrest : (zh ++ lines b ++ [[]]) ++ flat_map unit_lines units
                  = (zh ++ lines b) ++ [] :: flat_map unit_lines units)
    by (rewrite <- !app_assoc; reflexivity).
  rewrite Hrest.
  assert (Hgood : Forall good_line (zh ++ lines b)) by (apply Forall_app; auto).
  rewrite (take_text_lines _ _ Hgood), (drop_text_lines _ _ Hgood).
  change (drop_blank ([] :: flat_map unit_lines units))
    with (drop_blank (flat_map unit_lines units)).
  rewrite drop_blank_units, IH, Hstrip. reflexivity.
Qed.

Lemma unit_lines_no_linebreak units :
  Forall (fun u => wf_block u.1 /\ Forall good_line u.2) units ->
  Forall (fun l => no_linebreak l = true) (flat_map unit_lines units).
Proof.
  induction 1 as [|[b zh] units [(Hstrip & Htime & Hlines) Hzh] Hunits IH];
    [constructor|].
  simpl in *. constructor; [apply no_linebreak_repr|].
  constructor; [exact Htime|].
  rewrite <- !app_assoc. apply Forall_app. split.
  { eapply Forall_impl; [exact Hzh|]. intros l [Hl _]. exact Hl. }
  apply Forall_app. split.
  { eapply Forall_impl; [exact Hlines|]. intros l [Hl _]. exact Hl. }
  constructor; [reflexivity|exact IH].
Qed.

(** Reading back the file written for well-formed units. *)
Lemma parse_srt_render units :
  Forall (fun u => wf_block u.1 /\ Forall good_line u.2) units ->
  parse_srt (render units []) = Ok (map merged units).
Proof.
  intros Hunits. unfold parse_srt. rewrite render_lines. simpl.
  rewrite (splitlines_write_lines _ (unit_lines_no_linebreak units Hunits)).
  apply parse_loop_units, Hunits.
Qed.

(** ** Resume locator *)

Lemma digits_val_nonneg ds : forallb is_decimal ds = true -> 0 <= digits_val ds.
Proof.
  unfold digits_val. assert (Hgen : forall acc, 0 <= acc ->
    forallb is_decimal ds = true ->
    0 <= fold_left (fun acc c => 10 * acc + digit_val c) ds acc).
  { induction ds as [|c ds IH]; intros acc Hacc Hds; simpl; [exact Hacc|].
    simpl in Hds. apply andb_prop in Hds as [Hc Hds]. apply IH; [|exact Hds].
    pose proof (digit_val_range c Hc). lia. }
  apply Hgen. lia.
Qed.

(** A run of [n] digits stands for a number below [10 ^ n]. *)
Lemma digits_val_upper ds :
  forallb is_decimal ds = true -> digits_val ds < 10 ^ Z.of_nat (length ds).
Proof.
  induction ds as [|c ds IH] using rev_ind; intros Hds; [reflexivity|].
  rewrite forallb_app in Hds. apply andb_prop in Hds as [Hds Hc].
  simpl in Hc. rewrite andb_true_r in Hc.
  rewrite digits_val_snoc, length_app, Nat2Z.inj_add, Z.pow_add_r by lia.
  pose proof (digit_val_range c Hc). specialize (IH Hds).
  change (10 ^ Z.of_nat (length [c])) with 10. lia.
Qed.





Lemma isdigit_repr z : 0 <= z -> isdigit (strip (repr z)) = true.
Proof.
  intros Hz. rewrite (strip_no_space _ (repr_no_space z)).
  unfold repr. assert ((z <? 0) = false) as -> by (apply Z.ltb_ge; exact Hz).
  destruct (digits_of_spec z Hz) as (Hne & Hdig & _).
  unfold isdigit. apply truthy_true in Hne. rewrite Hne. simpl.
  clear -Hdig. induction (digits_of z) as [|c s IH]; [reflexivity|].
  simpl in *. apply andb_prop in Hdig as [Hc Hs].
  rewrite (is_decimal_digit c Hc). apply IH, Hs.
Qed.

(** The scan over the text lines of a unit changes nothing. *)
Lemma last_idx_loop_text texts :
  forall l rest last,
  Forall (fun l => contains arrow l = false) texts ->
  last_idx_loop (l :: texts ++ [] :: rest) last = last_idx_loop ([] :: rest) last.
Proof.
  induction texts as [|t texts IH]; intros l rest last Htexts.
  - simpl. rewrite andb_false_r. reflexivity.
  - apply Forall_cons in Htexts as [Ht Htexts].
    change (last_idx_loop (l :: t :: texts ++ [] :: rest) last
            = last_idx_loop ([] :: rest) last).
    simpl last_idx_loop at 1. rewrite Ht, andb_false_r.
    apply (IH t rest last Htexts).
Qed.

(** The scan over one written unit ends with the id of that unit. *)
Lemma last_idx_loop_unit u rest last :
  plain_unit u ->
  last_idx_loop (unit_lines u ++ rest) last
  = last_idx_loop ([] :: rest) (idx u.1).
Proof.
  intros (Hidx & Htime & Htexts).
  change (unit_lines u ++ rest)
    with (repr (idx u.1) :: time u.1 :: ((u.2 ++ lines u.1 ++ [[]]) ++ rest)).
  simpl last_idx_loop at 1.
  rewrite (isdigit_repr _ Hidx), Htime. simpl andb. cbv iota.
  rewrite (strip_no_space _ (repr_no_space (idx u.1))), int_repr. simpl.
  assert (Hrest : (u.2 ++ lines u.1 ++ [[]]) ++ rest
                  = (u.2 ++ lines u.1) ++ [] :: rest)
    by (rewrite <- !app_assoc; reflexivity).
  rewrite Hrest. apply last_idx_loop_text, Htexts.
Qed.

(** The blank line closing a unit is passed over. *)
Lemma last_idx_loop_blank rest last :
  last_idx_loop ([] :: rest) last = last_idx_loop rest last.
Proof. destruct rest as [|l [|l' rest]]; reflexivity. Qed.



(** ** Batch planner *)

Section Planner.
Variables max_blocks max_chars : Z.

Local Abbreviation step := (split_step max_blocks max_chars).
Local Abbreviation bound := (bounded max_blocks max_chars).
Local Abbreviation inv := (split_inv max_blocks max_chars).

(** The units seen so far are the closed batches followed by the open one. *)
Lemma split_step_concat st b :
  concat (batches (step st b)) ++ cur (step st b)
  = (concat (batches st) ++ cur st) ++ [b].
Proof.
  unfold split_step.
  destruct (truthy (cur st) && (max_blocks <=? Z.of_nat (length (cur st)))
            || truthy (cur st) && (max_chars <? cur_chars st + add_chars b)); simpl.
  - rewrite concat_app. simpl. rewrite app_nil_r. reflexivity.
  - rewrite app_assoc. reflexivity.
Qed.

Lemma split_loop_concat blocks st :
  let st' := fold_left step blocks st in
  concat (batches st') ++ cur st' = (concat (batches st) ++ cur st) ++ blocks.
Proof.
  revert st. induction blocks as [|b blocks IH]; intros st; simpl.
  - rewrite app_nil_r. reflexivity.
  - simpl in IH. rewrite IH, split_step_concat, <- app_assoc. reflexivity.
Qed.

Lemma batch_chars_snoc batch b :
  batch_chars (batch ++ [b]) = batch_chars batch + add_chars b.
Proof. induction batch as [|x batch IH]; simpl; lia. Qed.

Lemma bounded_singleton b : bound [b].
Proof. repeat split; simpl; [discriminate | lia | lia]. Qed.

Lemma split_step_inv st b : inv st -> inv (step st b).
Proof.
  destruct st as [bs cu cc]. unfold split_inv, split_step. simpl.
  intros (Hall & Hchars & Hcur). subst cc.
  destruct cu as [|c cs]; simpl.
  - repeat split; simpl; auto using bounded_singleton; lia.
  - assert (Hb : bound (c :: cs)) by (apply Hcur; discriminate).
    destruct (max_blocks <=? Z.of_nat (S (length cs))) eqn:Eblocks; simpl.
    { split; [apply Forall_app; split; auto|].
      split; [lia|]. intros _. apply bounded_singleton. }
    destruct (max_chars <? _) eqn:Echars; simpl.
    { split; [apply Forall_app; split; auto|].
      split; [lia|]. intros _. apply bounded_singleton. }
    apply Z.leb_gt in Eblocks. apply Z.ltb_ge in Echars.
    change (c :: cs ++ [b]) with ((c :: cs) ++ [b]).
    split; [exact Hall|]. split.
    + rewrite batch_chars_snoc. simpl. lia.
    + intros _. split; [discriminate|]. split.
      * rewrite length_app. simpl. lia.
      * intros _. rewrite batch_chars_snoc. simpl in *. lia.
Qed.

Lemma split_loop_inv blocks st :
  inv st -> inv (fold_left step blocks st).
Proof.
  revert st. induction blocks as [|b blocks IH]; intros st Hst; simpl; auto.
  apply IH, split_step_inv, Hst.
Qed.

Lemma split_batches_bounded blocks :
  Forall bound (split_batches blocks max_blocks max_chars).
Proof.
  unfold split_batches.
  destruct (split_loop_inv blocks (mkSplit [] [] 0)) as (Hall & _ & Hcur).
  { split; [constructor|]. split; [reflexivity|]. intros Hne. simpl in Hne. congruence. }
  destruct (cur _) as [|c cs] eqn:Ecur; simpl; [exact Hall|].
  apply Forall_app; split; [exact Hall|].
  constructor; [|constructor]. apply Hcur. discriminate.
Qed.

End Planner.

(** C2: the batches of [split_batches], concatenated in batch order then
    intra-batch order, are the input list: every unit occurs once and the
    order is kept. *)
Theorem split_batches_concat (blocks : list SrtBlock) (max_blocks max_chars : Z) :
  concat (split_batches blocks max_blocks max_chars) = blocks.
Proof.
  unfold split_batches.
  pose proof (split_loop_concat max_blocks max_chars blocks (mkSplit [] [] 0)) as H.
  simpl in H.
  destruct (cur _) as [|c cs] eqn:Ecur; simpl.
  - rewrite app_nil_r in H. exact H.
  - rewrite concat_app. simpl. rewrite app_nil_r. exact H.
Qed.

(** C5, as the code has it: a batch is never empty and holds at most
    [max max_blocks 1] units, hence at most [max_blocks] when that limit is
    at least one; a batch of two or more units stays within the character
    budget. *)
Theorem split_batches_bounds (blocks : list SrtBlock) (max_blocks max_chars : Z)
    (batch : list SrtBlock) :
  In batch (split_batches blocks max_blocks max_chars) ->
  batch <> []
  /\ Z.of_nat (length batch) <= Z.max max_blocks 1
  /\ (1 <= max_blocks -> Z.of_nat (length batch) <= max_blocks)
  /\ ((2 <= length batch)%nat -> batch_chars batch <= max_chars).
Proof.
  intros Hin.
  pose proof (split_batches_bounded max_blocks max_chars blocks) as Hall.
  rewrite List.Forall_forall in Hall.
  destruct (Hall batch Hin) as (Hne & Hlen & Hchars).
  repeat split; auto. lia.
Qed.

Lemma split_batches_bounds_witness :
  In [mkSrtBlock 3 [] []] (split_batches [mkSrtBlock 1 [] []; mkSrtBlock 2 [] []; mkSrtBlock 3 [] []] 2 100)
  /\ Z.of_nat (length [mkSrtBlock 3 [] []]) <= 2.
Proof.
  split.
  - vm_compute. right. left. reflexivity.
  - apply (split_batches_bounds
             [mkSrtBlock 1 [] []; mkSrtBlock 2 [] []; mkSrtBlock 3 [] []] 2 100).
    + vm_compute. right. left. reflexivity.
    + lia.
Defined.

(** C5 as stated fails for a unit-count limit below one: the planner still
    emits one-unit batches. *)
Lemma split_batches_limit_zero :
  exists batch,
    In batch (split_batches [mkSrtBlock 1 [] []] 0 100)
    /\ ~ Z.of_nat (length batch) <= 0.
Proof.
  exists [mkSrtBlock 1 [] []]. split.
  - vm_compute. left. reflexivity.
  - simpl. lia.
Qed.

(** ** Marker codec *)

Lemma startswith_app p t : startswith p (p ++ t) = true.
Proof. induction p as [|a p IH]; simpl; [reflexivity|]. rewrite N.eqb_refl. exact IH. Qed.

Lemma startswith_inv p : forall s, startswith p s = true -> s = p ++ drop (length p) s.
Proof.
  induction p as [|a p IH]; intros s; simpl; [reflexivity|].
  destruct s as [|b s]; [discriminate|]. intros Hs.
  apply andb_prop in Hs as [Hab Hs]. apply N.eqb_eq in Hab. subst b.
  simpl. f_equal. apply IH, Hs.
Qed.

(** [MARK_RE] matches at the head of [s] exactly when [s] begins with a
    marker of six digits, which are then group 1. *)
Lemma match_mark_iff s g :
  match_mark s = Some g
  <-> (length g = 6%nat /\ forallb is_decimal g = true
       /\ exists tail, s = marker_text g ++ tail).
Proof.
  unfold match_mark, marker_text. split.
  - destruct (startswith (lit "<<<SRT:") s) eqn:Ehead; [|discriminate].
    destruct (length (take 6 (drop 7 s)) =? 6)%nat eqn:Elen; [|discriminate].
    destruct (forallb is_decimal (take 6 (drop 7 s))) eqn:Edig; [|discriminate].
    destruct (startswith (lit ">>>") (drop 13 s)) eqn:Etail; [|discriminate].
    intros [= <-]. apply Nat.eqb_eq in Elen.
    split; [exact Elen|]. split; [exact Edig|].
    apply startswith_inv in Ehead. apply startswith_inv in Etail.
    exists (drop 3 (drop 13 s)). rewrite <- !app_assoc.
    etransitivity; [exact Ehead|]. f_equal.
    etransitivity; [symmetry; apply (take_drop 6)|]. f_equal.
    rewrite drop_drop. exact Etail.
  - intros (Hlen & Hdig & tail & ->). rewrite <- !app_assoc.
    assert (Htake : take 6 (g ++ lit ">>>" ++ tail) = g)
      by (rewrite <- Hlen; apply take_app_length).
    assert (Hdrop : drop 6 (g ++ lit ">>>" ++ tail) = lit ">>>" ++ tail)
      by (rewrite <- Hlen; apply drop_app_length).
    rewrite startswith_app.
    replace (drop 13 (lit "<<<SRT:" ++ g ++ lit ">>>" ++ tail))
      with (drop 6 (drop 7 (lit "<<<SRT:" ++ g ++ lit ">>>" ++ tail)))
      by (rewrite drop_drop; reflexivity).
    replace (drop 7 (lit "<<<SRT:" ++ g ++ lit ">>>" ++ tail))
      with (g ++ lit ">>>" ++ tail) by reflexivity.
    rewrite Htake, Hdrop, Hlen, Hdig, startswith_app. reflexivity.
Qed.


Lemma finditer_go_sound s :
  forall pos skip m,
  In m (finditer_go pos skip s) ->
  exists k, (skip <= k)%nat /\ m_start m = (pos + k)%nat
            /\ m_end m = (pos + k + 16)%nat
            /\ match_mark (drop k s) = Some (m_group m).
Proof.
  induction s as [|c s IH]; intros pos skip m; simpl; [tauto|].
  destruct skip as [|skip].
  - destruct (match_mark (c :: s)) as [g|] eqn:E.
    + intros [<-|Hm].
      * exists 0%nat. simpl. rewrite !Nat.add_0_r. auto with lia.
      * destruct (IH _ _ _ Hm) as (k & Hk & Hs & He & Hg).
        exists (S k). simpl. repeat split; auto; lia.
    + intros Hm. destruct (IH _ _ _ Hm) as (k & Hk & Hs & He & Hg).
      exists (S k). simpl. repeat split; auto; lia.
  - intros Hm. destruct (IH _ _ _ Hm) as (k & Hk & Hs & He & Hg).
    exists (S k). simpl. repeat split; auto; lia.
Qed.




Lemma finditer_groups s m :
  In m (finditer s) -> int (m_group m) = Some (mark_id m).
Proof.
  intros Hm. destruct (finditer_go_sound _ _ _ _ Hm) as (k & _ & _ & _ & Hg).
  apply match_mark_iff in Hg as (Hlen & Hdig & _).
  apply int_digits_str; [exact Hdig|]. intros Hnil. rewrite Hnil in Hlen. discriminate.
Qed.




(** The dict built by the loop of [parse_zh_map]: an id is bound to the
    lines of its last match; ids without a match keep what [out] had. *)
Lemma zh_loop_spec cleaned marks :
  forall out,
  (forall m, In m marks -> int (m_group m) = Some (mark_id m)) ->
  exists zh,
    zh_loop cleaned marks out = Ok zh
    /\ forall i ls,
         zh !! i = Some ls
         <-> (exists pre m post,
                marks = pre ++ m :: post /\ mark_id m = i
                /\ (forall m', In m' post -> mark_id m' <> i)
                /\ ls = mark_lines cleaned m post)
             \/ ((forall m, In m marks -> mark_id m <> i) /\ out !! i = Some ls).
Proof.
  induction marks as [|m marks IH]; intros out Hint; simpl.
  - exists out. split; [reflexivity|]. intros i ls. split.
    + intros Hi. right. split; [intros m []|exact Hi].
    + intros [(pre & m & post & Hnil & _)|[_ Hi]]; [|exact Hi].
      destruct pre; discriminate.
  - rewrite (Hint m) by (left; reflexivity). simpl.
    destruct (IH (<[mark_id m := mark_lines cleaned m marks]> out))
      as (zh & Hrun & Hspec); [intros m' Hm'; apply Hint; right; exact Hm'|].
    exists zh. split; [exact Hrun|]. intros i ls. rewrite Hspec. split.
    + intros [(pre & m' & post & -> & Hid & Hpost & ->)|[Hnone Hi]].
      * left. exists (m :: pre), m', post. auto.
      * destruct (decide (mark_id m = i)) as [Heq|Hne].
        -- rewrite Heq, lookup_insert_eq in Hi. injection Hi as <-.
           left. exists [], m, marks. auto.
        -- rewrite lookup_insert_ne in Hi by exact Hne.
           right. split; [|exact Hi]. intros m' [<-|Hm']; auto.
    + intros [(pre & m' & post & Heq & Hid & Hpost & ->)|[Hnone Hi]].
      * destruct pre as [|p pre]; simpl in Heq; injection Heq as <- ->.
        -- right. split; [exact Hpost|]. rewrite Hid. apply lookup_insert_eq.
        -- left. exists pre, m', post. auto.
      * right. split; [intros m' Hm'; apply Hnone; right; exact Hm'|].
        rewrite lookup_insert_ne; [exact Hi|]. apply Hnone. left. reflexivity.
Qed.

(** The lines kept from a segment. *)
Lemma seg_lines_kept seg l :
  In l (seg_lines seg) ->
  l <> [] /\ blank l = false /\ rstrip l = l /\ no_linebreak l = true.
Proof.
  unfold seg_lines. intros Hl. apply in_map_iff in Hl as (x & <- & Hx).
  apply filter_In in Hx as [Hx Hkeep].
  destruct (rstrip_kept x Hkeep) as (Hne & Hblank & Hidem).
  repeat split; auto. apply splitlines_no_linebreak in Hx.
  clear -Hx. induction x as [|c x IH]; simpl in *; [reflexivity|].
  apply andb_prop in Hx as [Hc Hx].
  destruct (is_space c && negb (truthy (rstrip x))); simpl; [reflexivity|].
  rewrite Hc. apply IH, Hx.
Qed.

(** Whether some unit of a list carries the id of [b]. *)
Lemma classic_in_ids (b : SrtBlock) (blocks : list SrtBlock) :
  (exists b', In b' blocks /\ idx b' = idx b)
  \/ (forall b', In b' blocks -> idx b' <> idx b).
Proof.
  induction blocks as [|x blocks IH].
  - right. intros b' [].
  - destruct (Z.eq_dec (idx x) (idx b)) as [Heq|Hne].
    + left. exists x. simpl. auto.
    + destruct IH as [(b' & Hb' & Heq)|Hnot].
      * left. exists b'. simpl. auto.
      * right. intros b' [<-|Hb']; auto.
Qed.

(** ** Translation client *)

Section ClientFacts.
Context `{Host}.
Variable cfg : gmap string value.

Lemma translate_one_nil w : translate_one cfg [] w = (Ok [], w).
Proof. reflexivity. Qed.

(** Units without text are resolved without touching the network. *)
Lemma fallback_no_text missing blocks zh w :
  (forall b, In b blocks -> In (idx b) missing -> lines b = []) ->
  exists zh',
    fallback cfg missing blocks zh w = (Ok zh', w)
    /\ (forall b, In b blocks -> In (idx b) missing -> zh' !! idx b = Some [])
    /\ (forall i, (forall b, In b blocks -> idx b = i -> ~ In i missing) ->
                  zh' !! i = zh !! i).
Proof.
  revert zh. induction blocks as [|b blocks IH]; intros zh Hempty; simpl.
  - exists zh. split; [reflexivity|]. split; [intros b []|auto].
  - destruct (IH (<[idx b := []]> zh)) as (zh1 & Hrun1 & Hset1 & Hkeep1);
      [intros; apply Hempty; simpl; auto|].
    destruct (IH zh) as (zh2 & Hrun2 & Hset2 & Hkeep2);
      [intros; apply Hempty; simpl; auto|].
    case_bool_decide as Hin.
    + apply list_elem_of_In in Hin.
      rewrite (Hempty b) by (simpl; auto).
      unfold bind. rewrite translate_one_nil.
      exists zh1. split; [exact Hrun1|]. split.
      * intros b' [<-|Hb'] Hmiss; [|auto].
        destruct (classic_in_ids b blocks) as [(b'' & Hb'' & Heq)|Hnot].
        -- rewrite <- Heq. apply Hset1; [exact Hb''|]. rewrite Heq. exact Hmiss.
        -- rewrite Hkeep1; [apply lookup_insert_eq|].
           intros b'' Hb'' Heq. exfalso. apply (Hnot b''); auto.
      * intros i Hi.
        rewrite Hkeep1 by (intros b' Hb' Heq; apply (Hi b'); simpl; auto).
        apply lookup_insert_ne. intros <-. apply (Hi b); simpl; auto.
    + exists zh2. split; [exact Hrun2|]. split.
      * intros b' [<-|Hb'] Hmiss; [|auto].
        exfalso. apply Hin. apply list_elem_of_In. exact Hmiss.
      * intros i Hi. apply Hkeep2.
        intros b' Hb' Heq. apply (Hi b'); simpl; auto.
Qed.

Lemma fallback_nil blocks zh w : fallback cfg [] blocks zh w = (Ok zh, w).
Proof.
  induction blocks as [|b blocks IH]; simpl; [reflexivity|].
  try (case_bool_decide as Hin; [apply elem_of_nil in Hin; destruct Hin|]).
  exact IH.
Qed.

(** The guard [if missing:] only skips a loop that would do nothing. *)
Lemma fallback_guard missing blocks zh w :
  (if truthy missing then fallback cfg missing blocks zh else ret zh) w
  = fallback cfg missing blocks zh w.
Proof. destruct missing; simpl; [|reflexivity]. symmetry. apply fallback_nil. Qed.

(** Whatever the network does, a fallback loop that returns has filled in
    every id it was asked to. *)
Lemma fallback_covers missing blocks :
  forall zh w zh' w',
  fallback cfg missing blocks zh w = (Ok zh', w') ->
  (forall i, is_Some (zh !! i) -> is_Some (zh' !! i))
  /\ (forall b, In b blocks -> idx b ∈ missing -> is_Some (zh' !! idx b)).
Proof.
  induction blocks as [|b blocks IH]; intros zh w zh' w'; simpl.
  - intros [= <- <-]. split; [auto|intros b []].
  - case_bool_decide as Hin.
    + unfold bind at 1.
      destruct (translate_one cfg (lines b) w) as [[ls|e] w1]; [|discriminate].
      intros Hrun. destruct (IH _ _ _ _ Hrun) as [Hmono Hcov]. split.
      * intros i Hi. apply Hmono. destruct (decide (idx b = i)) as [<-|Hne].
        -- rewrite lookup_insert_eq. eauto.
        -- rewrite lookup_insert_ne by exact Hne. exact Hi.
      * intros b' [<-|Hb'] Hmiss; [|auto].
        apply Hmono. rewrite lookup_insert_eq. eauto.
    + intros Hrun. destruct (IH _ _ _ _ Hrun) as [Hmono Hcov]. split; [exact Hmono|].
      intros b' [<-|Hb'] Hmiss; [contradiction|auto].
Qed.

(** The ids left to the fallback are those the decoded response lacks. *)
Lemma missing_units_filter (zh : gmap Z (list str)) blocks :
  let need : gset Z := list_to_set (map idx blocks) in
  List.filter (fun b => bool_decide (idx b ∈ elements (need ∖ dom zh))) blocks
  = missing_units zh blocks.
Proof.
  intros need. unfold missing_units. apply filter_ext_in. intros b Hb.
  apply bool_decide_ext. rewrite elem_of_elements, elem_of_difference.
  rewrite not_elem_of_dom. subst need. rewrite elem_of_list_to_set.
  rewrite list_elem_of_In. split; [tauto|]. intros Hnone. split; [|exact Hnone].
  apply in_map. exact Hb.
Qed.

Lemma translate_batch_covers blocks w zh w' :
  translate_batch cfg blocks w = (Ok zh, w') ->
  forall b, In b blocks -> is_Some (zh !! idx b).
Proof.
  unfold translate_batch, bind, lift.
  destruct (getitem cfg "model") as [vm|]; [|discriminate].
  destruct (getitem cfg "temperature") as [vt|]; [|discriminate].
  destruct (getitem cfg "api_key") as [vk|]; [|discriminate].
  destruct (getitem cfg "timeout_s") as [vs|]; [|discriminate].
  destruct (int_of vs) as [ts|]; [|discriminate].
  destruct (post_chat _ w) as [[content|] w1]; [|discriminate].
  destruct (parse_zh_map content) as [zh0|]; [|discriminate].
  rewrite fallback_guard. intros Hrun b Hb.
  destruct (fallback_covers _ _ _ _ _ _ Hrun) as [Hmono Hcov].
  destruct (zh0 !! idx b) as [ls|] eqn:E.
  - apply Hmono. rewrite E. eauto.
  - apply Hcov; [exact Hb|].
    rewrite elem_of_elements, elem_of_difference, not_elem_of_dom.
    split; [|exact E]. rewrite elem_of_list_to_set, list_elem_of_In.
    apply in_map. exact Hb.
Qed.

Lemma run_batch_covers batch w zh w' :
  run_batch cfg batch w = (Ok zh, w') ->
  forall b, In b batch -> is_Some (zh !! idx b).
Proof.
  unfold run_batch, bind at 1.
  destruct (translate_batch cfg batch w) as [[zh0|] w1] eqn:Erun; [|discriminate].
  unfold bind, lift, ret.
  destruct (getitem cfg "pause_s") as [vp|]; [|discriminate].
  destruct (float_of vp) as [f|]; [|discriminate].
  destruct (float_pos f); simpl; intros [= <- <-];
    eapply translate_batch_covers; eauto.
Qed.

Section ClientRuns.
Variables (model temperature : value) (api_key : str) (timeout_s : Z).
Hypothesis Hcfg : client_cfg cfg model temperature api_key timeout_s.

Local Abbreviation single := (single_request model temperature api_key timeout_s).

Lemma translate_one_text b c rest sent0 slept0 :
  lines b <> [] ->
  translate_one cfg (lines b) (mkWorld (Ok c :: rest) sent0 slept0)
  = (Ok (one_lines c), mkWorld rest (sent0 ++ [single b]) slept0).
Proof.
  intros Hne. destruct Hcfg as (k & t & Hm & Ht & Hk & Hs & Hto & Hi).
  unfold translate_one. destruct (lines b) eqn:El; [congruence|]. simpl.
  unfold bind, lift, getitem, post_chat, ret, single_request.
  rewrite Hm, Ht, Hk, Hto, Hi, Hs, El. reflexivity.
Qed.


Local Abbreviation batch_req := (batch_request model temperature api_key timeout_s).


(** A batch call whose missing units all lack text: one request in all. *)
Lemma translate_batch_no_text blocks content zh0 rest sent0 slept0 :
  parse_zh_map content = Ok zh0 ->
  (forall b, In b blocks -> zh0 !! idx b = None -> lines b = []) ->
  exists zh,
    translate_batch cfg blocks (mkWorld (Ok content :: rest) sent0 slept0)
    = (Ok zh, mkWorld rest (sent0 ++ [batch_req blocks]) slept0)
    /\ (forall b, In b blocks -> zh0 !! idx b = None -> zh !! idx b = Some [])
    /\ (forall i, is_Some (zh0 !! i) -> zh !! i = zh0 !! i).
Proof.
  intros Hparse Hempty. destruct Hcfg as (k & t & Hm & Ht & Hk & Hs & Hto & Hi).
  unfold translate_batch, bind, lift, getitem, post_chat.
  rewrite Hm, Ht, Hk, Hto, Hi, Hs. simpl. rewrite Hparse.
  rewrite fallback_guard.
  set (missing := elements ((list_to_set (map idx blocks) : gset Z) ∖ dom zh0)).
  assert (Hmiss : forall i, In i missing <-> In i (map idx blocks) /\ zh0 !! i = None).
  { intros i. subst missing.
    rewrite <- list_elem_of_In, elem_of_elements, elem_of_difference.
    rewrite not_elem_of_dom, elem_of_list_to_set, list_elem_of_In. tauto. }
  destruct (fallback_no_text missing blocks zh0
              (mkWorld rest (sent0 ++ [batch_req blocks]) slept0))
    as (zh & Hrun & Hset & Hkeep).
  { intros b Hb Hin. apply Hempty; [exact Hb|]. apply Hmiss, Hin. }
  exists zh. split; [exact Hrun|]. split.
  - intros b Hb Hnone. apply Hset; [exact Hb|]. apply Hmiss. split; [|exact Hnone].
    apply in_map, Hb.
  - intros i [ls Hi']. apply Hkeep. intros b Hb <- Hin.
    apply Hmiss in Hin as [_ Hnone]. congruence.
Qed.

End ClientRuns.

End ClientFacts.


(** C10: [translate_one] on an empty line list returns the empty list and
    leaves the network untouched; so a batch whose missing units all lack
    text is resolved with the batch request alone, each of them getting an
    empty translation. *)
Theorem translate_one_empty `{Host} (cfg : gmap string value) :
  (forall w, translate_one cfg [] w = (Ok [], w))
  /\ (forall model temperature api_key timeout_s blocks content zh0 rest sent0 slept0,
        client_cfg cfg model temperature api_key timeout_s ->
        parse_zh_map content = Ok zh0 ->
        (forall b, In b blocks -> zh0 !! idx b = None -> lines b = []) ->
        exists zh,
          translate_batch cfg blocks (mkWorld (Ok content :: rest) sent0 slept0)
          = (Ok zh,
             mkWorld rest
               (sent0 ++ [batch_request model temperature api_key timeout_s blocks])
               slept0)
          /\ (forall b, In b blocks -> zh0 !! idx b = None -> zh !! idx b = Some [])
          /\ (forall i, is_Some (zh0 !! i) -> zh !! i = zh0 !! i)).
Proof.
  split; [intros w; reflexivity|].
  intros model temperature api_key timeout_s blocks content zh0 rest sent0 slept0
    Hcfg Hparse Hempty.
  exact (translate_batch_no_text cfg model temperature api_key timeout_s Hcfg
           blocks content zh0 rest sent0 slept0 Hparse Hempty).
Qed.


Lemma translate_one_empty_witness :
  exists zh,
    fst (translate_batch sample_cfg
           [mkSrtBlock 1 (lit "a --> b") [lit "Hello"]; mkSrtBlock 2 (lit "c --> d") []]
           (mkWorld [Ok (text_of ["<<<SRT:000001>>>"; "ni hao"])] [] [])) = Ok zh
    /\ zh !! 2 = Some [].
Proof.
  destruct (proj2 (translate_one_empty sample_cfg)
              (VStr (lit "m")) (VInt 1) (lit "k") 60
              [mkSrtBlock 1 (lit "a --> b") [lit "Hello"]; mkSrtBlock 2 (lit "c --> d") []]
              (text_of ["<<<SRT:000001>>>"; "ni hao"])
              (<[1 := [lit "ni hao"]]> ∅) [] [] [])
    as (zh & Hrun & Hempty & _).
  - exists (VStr (lit "k")), (VInt 60). repeat split; reflexivity.
  - vm_compute. reflexivity.
  - intros b [<-|[<-|[]]]; vm_compute; [discriminate|reflexivity].
  - exists zh. split; [exact (f_equal fst Hrun)|].
    apply (Hempty (mkSrtBlock 2 (lit "c --> d") [])); [simpl; auto|reflexivity].
Defined.

(** ** Reassembly *)

Section Reassembly.
Context `{Host}.
Variable batches : list (list SrtBlock).

Lemma drain_absent pending next_write s :
  pending !! next_write = None ->
  drain batches pending next_write s = (Ok (pending, next_write), s).
Proof.
  intros Hnone. funelim (drain batches pending next_write s).
  - congruence.
  - reflexivity.
Qed.

Lemma drain_present pending next_write s zh_map :
  pending !! next_write = Some zh_map ->
  drain batches pending next_write s
  = match (batch <- lift (index batches next_write);;
           write_batch batch zh_map) s with
    | (Ok _, s') => drain batches (delete next_write pending) (S next_write) s'
    | (Err e, s') => (Err e, s')
    end.
Proof.
  intros Hsome. funelim (drain batches pending next_write s).
  - assert (zh_map0 = zh_map) as -> by congruence. reflexivity.
  - congruence.
Qed.

Lemma write_batch_ok batch zh_map :
  (forall b, In b batch -> is_Some (zh_map !! idx b)) ->
  forall s, exists s',
    write_batch batch zh_map s = (Ok tt, s')
    /\ trace s' = trace s ++ unit_events (batch_units zh_map batch)
    /\ default [] (out_file s')
       = render (batch_units zh_map batch) (default [] (out_file s)).
Proof.
  unfold write_batch.
  induction batch as [|b batch IH]; intros Hcov s; simpl.
  - exists s. rewrite app_nil_r. auto.
  - destruct (Hcov b) as [zh Hzh]; [simpl; auto|].
    unfold bind at 1 2. unfold lift, getitem. rewrite Hzh. simpl.
    destruct (IH (fun b' Hb' => Hcov b' (or_intror Hb'))
                (mkSys (Some (write_bi_srt_line (default [] (out_file s)) b zh))
                   (trace s ++ [EvWrite b zh])))
      as (s' & Hrun & Htrace & Hout).
    exists s'. split; [exact Hrun|]. simpl in Htrace, Hout.
    rewrite Htrace, Hout, <- app_assoc. auto.
Qed.

Lemma prefix_units_S res k batch :
  batches !! k = Some batch ->
  prefix_units res batches (S k)
  = prefix_units res batches k ++ batch_units (res k) batch.
Proof.
  intros Hk. unfold prefix_units.
  rewrite (take_S_r _ _ _ Hk), imap_app, concat_app. simpl.
  rewrite app_nil_r, Nat.add_0_r, length_take_le; [reflexivity|].
  apply lookup_lt_Some in Hk. lia.
Qed.

Lemma render_app us vs f : render (us ++ vs) f = render vs (render us f).
Proof. unfold render. apply fold_left_app. Qed.

Section Loop.
Variable cfg : gmap string value.
Variable replies : nat -> list reply.
Variable s0 : sys.

Local Abbreviation res := (future_map cfg replies batches).
Local Abbreviation succeeded := (future_ok cfg replies batches).
Local Abbreviation inv := (drain_inv res batches s0).

Lemma res_covers i batch b :
  succeeded i -> batches !! i = Some batch -> In b batch ->
  is_Some (res i !! idx b).
Proof.
  unfold future_ok, future_map. intros Hok Hi Hb. rewrite Hi in *. simpl in *.
  unfold future_result in *.
  destruct (run_batch cfg batch _) as [[zh|e] w] eqn:Erun; [|discriminate].
  simpl. eapply run_batch_covers; eauto.
Qed.

(** The drain loop flushes the run of consecutive results at the cursor
    and stops at the first sequence index that has not completed. *)
Lemma drain_run done :
  (forall i, In i done -> (i < length batches)%nat /\ succeeded i) ->
  forall k next_write pending s,
  (length batches - next_write <= k)%nat ->
  inv done pending next_write s ->
  exists pending' next_write' s',
    drain batches pending next_write s = (Ok (pending', next_write'), s')
    /\ inv done pending' next_write' s'
    /\ ~ In next_write' done.
Proof.
  intros Hdone. induction k as [|k IH]; intros nw pending s Hk Hinv;
    pose proof Hinv as (Hpend & Hbelow & Hle & Htrace & Hout).
  - (* the cursor is past the last batch *)
    assert (Hnot : ~ In nw done) by (intros Hin; apply Hdone in Hin; lia).
    exists pending, nw, s. split; [|split; [exact Hinv|exact Hnot]].
    apply drain_absent. destruct (pending !! nw) as [z|] eqn:E; [|reflexivity].
    apply Hpend in E. tauto.
  - destruct (pending !! nw) as [z|] eqn:E.
    + pose proof (proj1 (Hpend nw z) E) as (Hin & _ & ->).
      destruct (Hdone nw Hin) as [Hlt Hok].
      destruct (lookup_lt_is_Some_2 batches nw Hlt) as [batch Hbatch].
      rewrite (drain_present _ _ _ _ E).
      unfold bind at 1. unfold lift, index. rewrite Hbatch.
      destruct (write_batch_ok batch (res nw)
                  (fun b Hb => res_covers nw batch b Hok Hbatch Hb) s)
        as (s1 & Hrun & Htrace1 & Hout1).
      rewrite Hrun.
      apply (IH (S nw) (delete nw pending) s1); [lia|].
      split; [|split; [|split; [lia|split]]].
      * intros i z. destruct (decide (nw = i)) as [<-|Hne].
        -- rewrite lookup_delete_eq. split; [discriminate|]. lia.
        -- rewrite lookup_delete_ne by exact Hne. rewrite Hpend.
           split; intros (? & ? & ?); repeat split; auto; lia.
      * intros i Hi. destruct (decide (i = nw)) as [->|Hne]; [exact Hin|].
        apply Hbelow. lia.
      * rewrite Htrace1, Htrace, (prefix_units_S res nw batch Hbatch).
        unfold unit_events. rewrite map_app, app_assoc. reflexivity.
      * rewrite Hout1, Hout, (prefix_units_S res nw batch Hbatch), render_app.
        reflexivity.
    + exists pending, nw, s. split; [apply drain_absent, E|].
      split; [exact Hinv|].
      intros Hin. assert (pending !! nw = Some (res nw)) as Hsome
        by (apply Hpend; auto). congruence.
Qed.

(** The loop over the completed futures, from any point of a run: what
    has been written is always the units of the first [k] batches; when
    every future succeeds and every batch completes, that is all of them. *)
Lemma collect_run rest :
  forall done pending next_write s,
  NoDup (done ++ rest) ->
  (forall i, In i (done ++ rest) -> (i < length batches)%nat) ->
  (forall i, In i done -> succeeded i) ->
  inv done pending next_write s ->
  ~ In next_write done ->
  exists r s' k,
    collect cfg replies batches rest pending next_write s = (r, s')
    /\ (k <= length batches)%nat
    /\ trace s' = trace s0 ++ unit_events (prefix_units res batches k)
    /\ default [] (out_file s')
       = render (prefix_units res batches k) (default [] (out_file s0))
    /\ ((forall i, In i rest -> succeeded i) ->
        Permutation (done ++ rest) (seq 0 (length batches)) ->
        r = Ok (∅, length batches) /\ k = length batches).
Proof.
  induction rest as [|i rest IH]; intros done pending nw s Hnd Hrange Hdone Hinv Hnot.
  - pose proof Hinv as (Hpend & Hbelow & Hle & Htrace & Hout).
    exists (Ok (pending, nw)), s, nw. split; [reflexivity|].
    split; [exact Hle|]. split; [exact Htrace|]. split; [exact Hout|].
    intros _ Hperm. rewrite app_nil_r in Hperm.
    assert (Hall : forall i, In i done <-> (i < length batches)%nat).
    { intros i. rewrite <- list_elem_of_In, Hperm, elem_of_seq. lia. }
    assert (nw = length batches) as ->.
    { destruct (decide (nw = length batches)) as [|Hne]; [assumption|].
      exfalso. apply Hnot, Hall. lia. }
    assert (pending = ∅) as ->.
    { apply map_empty. intros i. destruct (pending !! i) as [z|] eqn:E; [|reflexivity].
      apply Hpend in E as (Hin & Hge & _). apply Hall in Hin. lia. }
    auto.
  - assert (Hi : (i < length batches)%nat)
      by (apply Hrange, in_app_iff; right; left; reflexivity).
    assert (Hfresh : ~ In i done).
    { apply NoDup_app in Hnd as (_ & Hdisj & _).
      intros Hin. apply (Hdisj i); [apply list_elem_of_In, Hin|left]. }
    pose proof Hinv as (Hpend & Hbelow & Hle & Htrace & Hout).
    assert (Hge : (nw <= i)%nat).
    { destruct (le_lt_dec nw i) as [|Hlt]; [assumption|].
      exfalso. apply Hfresh, Hbelow, Hlt. }
    destruct (lookup_lt_is_Some_2 batches i Hi) as [batch Hbatch].
    simpl. unfold bind at 1. unfold lift at 1, index. rewrite Hbatch.
    unfold bind at 1. unfold lift at 1.
    destruct (future_result cfg (replies i) batch) as [zh|e] eqn:Efut.
    + assert (Hok : succeeded i)
        by (unfold future_ok; rewrite Hbatch; simpl; rewrite Efut; reflexivity).
      assert (Hzh : zh = res i)
        by (unfold future_map; rewrite Hbatch; simpl; rewrite Efut; reflexivity).
      subst zh.
      destruct (drain_run (done ++ [i])) with (k := length batches)
        (next_write := nw) (pending := <[i := res i]> pending) (s := s)
        as (pending' & nw' & s' & Hrun & Hinv' & Hnot').
      { intros j Hj. apply in_app_iff in Hj as [Hj|[<-|[]]]; [|auto].
        split; [|apply Hdone, Hj]. apply Hrange, in_app_iff. auto. }
      { lia. }
      { split; [|split; [|split; [exact Hle|split; assumption]]].
        - intros j z. rewrite in_app_iff. simpl.
          destruct (decide (i = j)) as [<-|Hne].
          + rewrite lookup_insert_eq. split; [intros [= <-]; auto|].
            intros (_ & _ & ->). reflexivity.
          + rewrite lookup_insert_ne by exact Hne. rewrite Hpend.
            split; [intros (? & ? & ?); auto|].
            intros ([?|[?|[]]] & ? & ?); [auto|contradiction].
        - intros j Hj. apply in_app_iff. left. apply Hbelow, Hj. }
      unfold bind at 1. rewrite Hrun. simpl.
      destruct (IH (done ++ [i]) pending' nw' s')
        as (r & s'' & k & Hcoll & Hk & Htr & Ho & Hfull);
        [rewrite <- app_assoc; exact Hnd
        |rewrite <- app_assoc; exact Hrange
        |intros j Hj; apply in_app_iff in Hj as [Hj|[<-|[]]]; auto
        |exact Hinv'|exact Hnot'|].
      exists r, s'', k. split; [exact Hcoll|]. split; [exact Hk|].
      split; [exact Htr|]. split; [exact Ho|].
      intros Hsucc Hperm. apply Hfull; [intros j Hj; apply Hsucc; right; exact Hj|].
      rewrite <- app_assoc. exact Hperm.
    + exists (Err e), s, nw. split; [reflexivity|]. split; [exact Hle|].
      split; [exact Htrace|]. split; [exact Hout|].
      intros Hsucc _. exfalso. specialize (Hsucc i (or_introl eq_refl)).
      unfold future_ok in Hsucc. rewrite Hbatch in Hsucc. simpl in Hsucc.
      rewrite Efut in Hsucc. discriminate.
Qed.

End Loop.

End Reassembly.

(** ** Whole runs *)

Section Runs.
Context `{Host}.

Lemma wrote_refl s : wrote [] s s.
Proof. split; [symmetry; apply app_nil_r|]. split; [reflexivity|auto]. Qed.

Lemma wrote_trans us vs s1 s2 s3 :
  wrote us s1 s2 -> wrote vs s2 s3 -> wrote (us ++ vs) s1 s3.
Proof.
  intros (Ht1 & Ho1 & Hs1) (Ht2 & Ho2 & Hs2). split; [|split].
  - rewrite Ht2, Ht1. unfold unit_events. rewrite map_app, app_assoc. reflexivity.
  - rewrite Ho2, Ho1, render_app. reflexivity.
  - auto.
Qed.

(** Whatever its outcome, writing a batch only calls the writer, on units
    of that batch. *)
Lemma write_batch_any batch zh_map :
  forall s, exists units,
    wrote units s (snd (write_batch batch zh_map s))
    /\ Forall (fun u => In u.1 batch) units.
Proof.
  unfold write_batch. induction batch as [|b batch IH]; intros s; simpl.
  - exists []. split; [apply wrote_refl|constructor].
  - unfold bind at 1 2. unfold lift, getitem.
    destruct (zh_map !! idx b) as [zh|]; simpl.
    + destruct (IH (mkSys (Some (write_bi_srt_line (default [] (out_file s)) b zh))
                      (trace s ++ [EvWrite b zh]))) as (units & Hw & Hin).
      exists ((b, zh) :: units). split.
      * change ((b, zh) :: units) with ([(b, zh)] ++ units).
        eapply wrote_trans; [|exact Hw].
        split; [reflexivity|]. split; [reflexivity|]. simpl. eauto.
      * constructor; [simpl; auto|].
        eapply Forall_impl; [exact Hin|]. simpl. auto.
    + exists []. split; [apply wrote_refl|constructor].
Qed.

Section Batches.
Variable batches : list (list SrtBlock).

Local Abbreviation planned := (fun u : SrtBlock * list str =>
  exists batch, In batch batches /\ In u.1 batch).

Lemma drain_any n :
  forall pending next_write s,
  (size pending <= n)%nat ->
  exists units,
    wrote units s (snd (drain batches pending next_write s))
    /\ Forall planned units.
Proof.
  induction n as [|n IH]; intros pending nw s Hsize.
  - apply Nat.le_0_r, map_size_empty_inv in Hsize. subst pending.
    rewrite drain_absent by apply lookup_empty.
    exists []. split; [apply wrote_refl|constructor].
  - destruct (pending !! nw) as [zh|] eqn:E.
    + rewrite (drain_present _ _ _ _ _ E). unfold bind at 1. unfold lift, index.
      destruct (batches !! nw) as [batch|] eqn:Eb; simpl;
        [|exists []; split; [apply wrote_refl|constructor]].
      destruct (write_batch_any batch zh s) as (us & Hw & Hus).
      assert (Hplanned : Forall planned us).
      { eapply Forall_impl; [exact Hus|]. intros u Hu. exists batch.
        split; [|exact Hu]. apply list_elem_of_In, list_elem_of_lookup. eauto. }
      destruct (write_batch batch zh s) as [[[]|e] s1]; simpl in Hw.
      * destruct (IH (delete nw pending) (S nw) s1) as (vs & Hw' & Hvs).
        { rewrite map_size_delete, E. simpl. lia. }
        exists (us ++ vs). split; [eapply wrote_trans; eauto|].
        apply Forall_app. auto.
      * exists us. auto.
    + rewrite drain_absent by exact E.
      exists []. split; [apply wrote_refl|constructor].
Qed.

Lemma collect_any cfg replies order :
  forall pending next_write s,
  exists units,
    wrote units s (snd (collect cfg replies batches order pending next_write s))
    /\ Forall planned units.
Proof.
  induction order as [|i order IH]; intros pending nw s; simpl.
  - exists []. split; [apply wrote_refl|constructor].
  - unfold bind at 1. unfold lift at 1.
    destruct (index batches i) as [batch|]; simpl;
      [|exists []; split; [apply wrote_refl|constructor]].
    unfold bind at 1. unfold lift at 1.
    destruct (future_result cfg (replies i) batch) as [zh|]; simpl;
      [|exists []; split; [apply wrote_refl|constructor]].
    unfold bind at 1.
    destruct (drain_any (size (<[i := zh]> pending)) (<[i := zh]> pending) nw s)
      as (us & Hw & Hus); [lia|].
    destruct (drain batches (<[i := zh]> pending) nw s) as [[st|e] s1]; simpl in Hw.
    + destruct (IH (fst st) (snd st) s1) as (vs & Hw' & Hvs).
      exists (us ++ vs). split; [eapply wrote_trans; eauto|].
      apply Forall_app. auto.
    + exists us. auto.
Qed.


End Batches.








End Runs.

Lemma prefix_units_fst `{Host} (batches : list (list SrtBlock)) (k : nat) :
  forall res, map fst (prefix_units res batches k) = concat (take k batches).
Proof.
  unfold prefix_units. revert k.
  induction batches as [|batch batches IH]; intros k res;
    [rewrite take_nil; reflexivity|].
  destruct k as [|k]; simpl; [reflexivity|].
  rewrite map_app. f_equal.
  - unfold batch_units. rewrite map_map. simpl. apply map_id.
  - apply (IH k (fun i => res (S i))).
Qed.




Lemma StronglySorted_prefix {A} (R : A -> A -> Prop) (l1 l2 : list A) :
  StronglySorted R (l1 ++ l2) -> StronglySorted R l1.
Proof.
  induction l1 as [|x l1 IH]; simpl; [constructor|].
  intros Hs. apply StronglySorted_inv in Hs as [Hs Hx].
  constructor; [apply IH, Hs|]. apply List.Forall_app in Hx. tauto.
Qed.

(** C1: whatever the order in which the futures complete, the loop hands
    the writer the units of the first [k] batches in concatenation order,
    each with the translation its own batch returned, for some [k]: the
    loop never writes out of order, even when a future fails.  Once every
    future has completed successfully, [k] is the number of batches: all
    the units were written, the buffer is empty and the cursor is past the
    last batch.  When the ids of the planned units increase strictly, so
    do the ids written. *)
Theorem collect_in_order `{Host} (cfg : gmap string value)
    (replies : nat -> list reply) (batches : list (list SrtBlock))
    (order : list nat) (s : sys) :
  NoDup order ->
  (forall i, In i order -> (i < length batches)%nat) ->
  exists r s' k,
    collect cfg replies batches order ∅ 0%nat s = (r, s')
    /\ (k <= length batches)%nat
    /\ (let units := prefix_units (future_map cfg replies batches) batches k in
        trace s' = trace s ++ unit_events units
        /\ map fst units = concat (take k batches)
        /\ default [] (out_file s') = render units (default [] (out_file s))
        /\ (StronglySorted Z.lt (map idx (concat batches)) ->
            StronglySorted Z.lt (map idx (map fst units))))
    /\ (Permutation order (seq 0 (length batches)) ->
        (forall i batch, batches !! i = Some batch ->
                         is_ok (future_result cfg (replies i) batch) = true) ->
        r = Ok (∅, length batches) /\ k = length batches).
Proof.
  intros Hnd Hrange.
  destruct (collect_run batches cfg replies s order [] ∅ 0%nat s)
    as (r & s' & k & Hrun & Hk & Htrace & Hout & Hfull).
  - exact Hnd.
  - exact Hrange.
  - intros i [].
  - split; [|split; [|split; [lia|split]]].
    + intros i z. rewrite lookup_empty. simpl. split; [discriminate|tauto].
    + intros i Hi. lia.
    + unfold prefix_units. simpl. rewrite app_nil_r. reflexivity.
    + reflexivity.
  - simpl. tauto.
  - exists r, s', k. split; [exact Hrun|]. split; [exact Hk|]. split.
    + split; [exact Htrace|]. split; [apply prefix_units_fst|].
      split; [exact Hout|]. rewrite prefix_units_fst. intros Hsorted.
      rewrite <- (take_drop k batches), concat_app, map_app in Hsorted.
      exact (StronglySorted_prefix _ _ _ Hsorted).
    + intros Hperm Hok. apply Hfull; [|exact Hperm].
      intros i Hi. unfold future_ok.
      assert (Hlt : (i < length batches)%nat) by (apply Hrange, Hi).
      destruct (lookup_lt_is_Some_2 batches i Hlt) as [batch Hbatch].
      rewrite Hbatch. simpl. apply (Hok i batch Hbatch).
Qed.

Lemma collect_in_order_witness :
  exists s',
    collect sample_cfg (fun _ => [Ok full_reply])
      [[mkSrtBlock 1 (lit "a --> b") [lit "Hello"]];
       [mkSrtBlock 2 (lit "c --> d") [lit "World"]];
       [mkSrtBlock 3 (lit "e --> f") [lit "Test"]]]
      [2%nat; 0%nat; 1%nat] ∅ 0%nat (mkSys (Some []) [])
    = (Ok (∅, 3%nat), s')
    /\ map (fun e => match e with EvWrite b _ => idx b | _ => 0 end) (trace s')
       = [1; 2; 3].
Proof.
  destruct (collect_in_order sample_cfg (fun _ => [Ok full_reply])
              [[mkSrtBlock 1 (lit "a --> b") [lit "Hello"]];
               [mkSrtBlock 2 (lit "c --> d") [lit "World"]];
               [mkSrtBlock 3 (lit "e --> f") [lit "Test"]]]
              [2%nat; 0%nat; 1%nat] (mkSys (Some []) []))
    as (r & s' & k & Hrun & _ & (Htrace & _) & Hfull).
  - apply (bool_decide_unpack _). vm_compute. exact I.
  - intros i [<-|[<-|[<-|[]]]]; simpl; lia.
  - destruct Hfull as [-> ->].
    + simpl. apply perm_trans with [0%nat; 2%nat; 1%nat]; [apply perm_swap|].
      apply perm_skip, perm_swap.
    + intros [|[|[|i]]] batch; simpl; intros [= <-]; vm_compute; reflexivity.
    + exists s'. split; [exact Hrun|]. rewrite Htrace. vm_compute. reflexivity.
Defined.



(** C7, as the code has it: the file written from the blocks of a parsed
    text parses to blocks with the same ids and timing strings, each
    carrying its translated lines above its original lines.  With the
    identity translation every block has its lines twice; with no
    translated lines the parsed blocks are reproduced unchanged. *)
Theorem parse_write_roundtrip (text : str) (blocks : list SrtBlock) :
  parse_srt text = Ok blocks ->
  (forall zh : SrtBlock -> list str,
      (forall b, In b blocks -> Forall good_line (zh b)) ->
      parse_srt (write_all zh blocks)
      = Ok (map (fun b => mkSrtBlock (idx b) (time b) (zh b ++ lines b)) blocks))
  /\ parse_srt (write_all lines blocks)
     = Ok (map (fun b => mkSrtBlock (idx b) (time b) (lines b ++ lines b)) blocks)
  /\ parse_srt (write_all (fun _ => []) blocks) = Ok blocks.
Proof.
  intros Hparse. pose proof (parse_srt_wf text blocks Hparse) as Hwf.
  assert (Hgen : forall zh : SrtBlock -> list str,
             (forall b, In b blocks -> Forall good_line (zh b)) ->
             parse_srt (write_all zh blocks)
             = Ok (map (fun b => mkSrtBlock (idx b) (time b) (zh b ++ lines b)) blocks)).
  { intros zh Hzh. unfold write_all. rewrite parse_srt_render.
    - rewrite map_map. reflexivity.
    - apply Forall_map. rewrite List.Forall_forall in Hwf |- *.
      intros b Hb. simpl. auto. }
  split; [exact Hgen|]. split.
  - apply Hgen. rewrite List.Forall_forall in Hwf. intros b Hb. apply (Hwf b Hb).
  - rewrite Hgen by (intros; constructor). f_equal.
    rewrite <- (map_id blocks) at 2. apply map_ext. intros [i t ls]. reflexivity.
Qed.

Lemma parse_write_roundtrip_witness :
  parse_srt sample_input = Ok sample_blocks
  /\ parse_srt (write_all (fun _ => []) sample_blocks) = Ok sample_blocks.
Proof.
  assert (Hparse : parse_srt sample_input = Ok sample_blocks)
    by (vm_compute; reflexivity).
  split; [exact Hparse|].
  exact (proj2 (proj2 (parse_write_roundtrip sample_input sample_blocks Hparse))).
Defined.

(** C7 as stated fails: with the identity translation the written file
    holds every text line twice, so it does not parse to the same text
    lines. *)
Lemma identity_roundtrip_doubles :
  parse_srt sample_input = Ok sample_blocks
  /\ parse_srt (write_all lines sample_blocks) <> Ok sample_blocks.
Proof.
  split; [vm_compute; reflexivity|]. vm_compute. discriminate.
Qed.









(** * Further properties *)

(** ** Markers and ids *)

(** The digits printed for [n] have no leading zero, [n = 0] apart. *)
Lemma digits_fuel_lower fuel :
  forall n acc,
  0 <= n < 2 ^ Z.of_nat fuel -> (1 <= fuel)%nat ->
  exists ds,
    digits_fuel fuel n acc = ds ++ acc
    /\ ds <> [] /\ 10 ^ Z.of_nat (length ds - 1) <= Z.max n 1.
Proof.
  induction fuel as [|fuel IH]; intros n acc Hn Hfuel; [lia|]. simpl.
  destruct (n <? 10) eqn:Esmall.
  - exists [digit_chr (n mod 10)]. split; [reflexivity|].
    split; [discriminate|]. simpl. lia.
  - apply Z.ltb_ge in Esmall.
    assert (Hdiv : 1 <= n / 10 /\ 2 * (n / 10) <= n /\ 10 * (n / 10) <= n).
    { pose proof (Z.div_mod n 10). pose proof (Z.mod_pos_bound n 10). lia. }
    assert (Hpow : 2 ^ Z.of_nat (S fuel) = 2 * 2 ^ Z.of_nat fuel)
      by (rewrite Nat2Z.inj_succ, Z.pow_succ_r; lia).
    assert (Hfuel' : (1 <= fuel)%nat).
    { destruct fuel; [simpl in Hn; lia|lia]. }
    destruct (IH (n / 10) (digit_chr (n mod 10) :: acc)) as (ds & Hrun & Hne & Hlow);
      [lia|exact Hfuel'|].
    exists (ds ++ [digit_chr (n mod 10)]). rewrite Hrun, <- app_assoc.
    split; [reflexivity|]. split; [destruct ds; discriminate|].
    rewrite length_app. simpl.
    replace (length ds + 1 - 1)%nat with (length ds) by lia.
    destruct ds as [|d ds]; [congruence|].
    simpl length in *. replace (S (length ds) - 1)%nat with (length ds) in Hlow by lia.
    rewrite Nat2Z.inj_succ, Z.pow_succ_r by lia. lia.
Qed.

Lemma digits_of_length n :
  0 <= n < 1000000 -> (length (digits_of n) <= 6)%nat.
Proof.
  intros Hn. unfold digits_of.
  destruct (digits_fuel_lower (S (Z.to_nat (Z.log2 n))) n []) as (ds & Hrun & _ & Hlow);
    [|lia|].
  { split; [lia|]. rewrite Nat2Z.inj_succ, Z2Nat.id by apply Z.log2_nonneg.
    destruct (Z.eq_dec n 0) as [->|Hpos]; [reflexivity|]. apply Z.log2_spec. lia. }
  rewrite Hrun, app_nil_r.
  destruct (le_lt_dec (length ds) 6) as [|Hlong]; [assumption|]. exfalso.
  assert (1000000 <= 10 ^ Z.of_nat (length ds - 1)); [|lia].
  change 1000000 with (10 ^ 6). apply Z.pow_le_mono_r; lia.
Qed.

Lemma digits_val_zeros p ds : digits_val (replicate p 48%N ++ ds) = digits_val ds.
Proof. induction p as [|p IH]; [reflexivity|]. exact IH. Qed.

(** The six digits printed for an id that fits. *)
Lemma repr06_fits i :
  0 <= i < 1000000 ->
  length (repr06 i) = 6%nat /\ forallb is_decimal (repr06 i) = true
  /\ digits_val (repr06 i) = i.
Proof.
  intros Hi. unfold repr06.
  assert ((i <? 0) = false) as -> by (apply Z.ltb_ge; lia).
  rewrite Z.abs_eq by lia.
  destruct (digits_of_spec i) as (Hne & Hdig & Hval); [lia|].
  pose proof (digits_of_length i Hi) as Hlen.
  cbn [app]. split; [|split].
  - rewrite length_app, length_replicate. simpl. lia.
  - rewrite forallb_app. apply andb_true_intro. split; [|exact Hdig].
    generalize (6 - length (@nil N) - length (digits_of i))%nat.
    clear. intros p. induction p as [|p IH]; [reflexivity|exact IH].
  - rewrite digits_val_zeros. exact Hval.
Qed.

(** X1: for an id from 0 to 999999 the marker built by [mk_mark] is
    matched by [MARK_RE] wherever it heads a text, and the six digits of
    its group read back, with [int], as that id. *)
Theorem mk_mark_roundtrip (i : Z) (tail : str) :
  0 <= i < 1000000 ->
  exists g, match_mark (mk_mark i ++ tail) = Some g /\ int g = Some i.
Proof.
  intros Hi. destruct (repr06_fits i Hi) as (Hlen & Hdig & Hval).
  exists (repr06 i). split.
  - apply match_mark_iff. split; [exact Hlen|]. split; [exact Hdig|].
    exists tail. reflexivity.
  - rewrite int_digits_str; [rewrite Hval; reflexivity|exact Hdig|].
    intros Hnil. rewrite Hnil in Hlen. discriminate.
Qed.

Lemma mk_mark_roundtrip_witness :
  exists g, match_mark (mk_mark 42 ++ lit "ni hao") = Some g /\ int g = Some 42.
Proof. apply (mk_mark_roundtrip 42 (lit "ni hao")). lia. Defined.

(** X2: for a negative id, or an id of a million or more, the marker
    built by [mk_mark] is not matched by [MARK_RE]: what follows the head is
    not six digits and the tail. *)
Theorem mk_mark_out_of_range (i : Z) (tail : str) :
  i < 0 \/ 1000000 <= i -> match_mark (mk_mark i ++ tail) = None.
Proof.
  intros Hi. destruct (match_mark (mk_mark i ++ tail)) as [g|] eqn:E; [|reflexivity].
  exfalso. apply match_mark_iff in E as (Hlen & Hdig & tail' & Heq).
  unfold mk_mark, marker_text in Heq. rewrite <- !app_assoc in Heq.
  apply app_inv_head in Heq.
  destruct Hi as [Hneg|Hbig].
  - unfold repr06 in Heq. apply Z.ltb_lt in Hneg. rewrite Hneg in Heq.
    destruct g as [|c g]; [discriminate|]. simpl in Heq. injection Heq as <- _.
    apply andb_prop in Hdig as [Hc _]. vm_compute in Hc. discriminate.
  - destruct (digits_of_spec i) as (Hne & Hd & Hval); [lia|].
    pose proof (digits_val_upper _ Hd) as Hup. rewrite Hval in Hup.
    assert (Hlong : (7 <= length (digits_of i))%nat).
    { destruct (le_lt_dec 7 (length (digits_of i))) as [|Hshort]; [assumption|].
      exfalso. apply (Z.lt_irrefl i). eapply Z.lt_le_trans; [exact Hup|].
      etransitivity; [|exact Hbig].
      change 1000000 with (10 ^ 6). clear -Hshort. apply Z.pow_le_mono_r; unfold char in *; lia. }
    assert (Hrepr : repr06 i = digits_of i).
    { unfold repr06. assert ((i <? 0) = false) as -> by (apply Z.ltb_ge; lia).
      rewrite Z.abs_eq by lia. cbn [app length].
      replace (6 - 0 - length (digits_of i))%nat with 0%nat
        by (unfold char in *; lia).
      reflexivity. }
    rewrite Hrepr in Heq.
    apply (f_equal (fun s : list N => s !! 6%nat)) in Heq. cbv beta in Heq.
    rewrite lookup_app_l in Heq by (unfold char in *; lia).
    rewrite lookup_app_r in Heq by lia. rewrite Hlen in Heq.
    change ((lit ">>>" ++ tail') !! (6 - 6)%nat) with (Some 62%N) in Heq.
    apply list_elem_of_lookup_2, list_elem_of_In in Heq.
    rewrite forallb_forall in Hd. specialize (Hd _ Heq). vm_compute in Hd. discriminate.
Qed.

Lemma mk_mark_out_of_range_witness :
  match_mark (mk_mark 1000000 ++ []) = None /\ match_mark (mk_mark (-1) ++ []) = None.
Proof.
  split; [apply (mk_mark_out_of_range 1000000 [])|apply (mk_mark_out_of_range (-1) [])]; lia.
Defined.

(** X3: every key of a decoded response lies between 0 and 999999.  So a
    unit whose id lies outside that range is never resolved by the batch
    response: it is always among the units left to the fallback. *)
Theorem parse_zh_map_keys (content : str) (zh : gmap Z (list str)) :
  parse_zh_map content = Ok zh ->
  (forall i, is_Some (zh !! i) -> 0 <= i < 1000000)
  /\ (forall blocks b, In b blocks -> ~ 0 <= idx b < 1000000 ->
                       In b (missing_units zh blocks)).
Proof.
  intros Hparse.
  assert (Hkeys : forall i, is_Some (zh !! i) -> 0 <= i < 1000000).
  { intros i [ls Hls]. unfold parse_zh_map in Hparse.
    destruct (zh_loop_spec (clean content) (finditer (clean content)) ∅)
      as (zh' & Hrun & Hspec); [intros m Hm; apply (finditer_groups _ _ Hm)|].
    assert (zh' = zh) as -> by congruence.
    apply Hspec in Hls as [(pre & m & post & Hsplit & <- & _)|[_ Hempty]];
      [|rewrite lookup_empty in Hempty; discriminate].
    assert (Hm : In m (finditer_go 0 0 (clean content)))
      by (fold (finditer (clean content)); rewrite Hsplit; apply in_elt).
    destruct (finditer_go_sound _ _ _ _ Hm) as (k & _ & _ & _ & Hg).
    apply match_mark_iff in Hg as (Hlen & Hdig & _).
    pose proof (digits_val_nonneg _ Hdig). pose proof (digits_val_upper _ Hdig) as Hup.
    unfold char in *. rewrite Hlen in Hup. unfold mark_id. change (10 ^ Z.of_nat 6) with 1000000 in Hup. lia. }
  split; [exact Hkeys|].
  intros blocks b Hb Hout. unfold missing_units. apply filter_In. split; [exact Hb|].
  apply bool_decide_eq_true. destruct (zh !! idx b) as [ls|] eqn:E; [|reflexivity].
  exfalso. apply Hout, Hkeys. rewrite E. eauto.
Qed.

Lemma parse_zh_map_keys_witness :
  parse_zh_map sample_reply = Ok sample_decoded /\ 0 <= 3 < 1000000.
Proof.
  split; [reflexivity|].
  apply (proj1 (parse_zh_map_keys sample_reply sample_decoded eq_refl) 3).
  exists [lit "ce shi"]. reflexivity.
Defined.

(** ** The planner is greedy *)

(** Where two neighbours of a list that ends with [x] can sit. *)
Lemma snoc_neighbours {A} (l : list A) x pre a b post :
  l ++ [x] = pre ++ a :: b :: post ->
  (post = [] /\ b = x /\ l = pre ++ [a])
  \/ (exists post', post = post' ++ [x] /\ l = pre ++ a :: b :: post').
Proof.
  destruct post as [|p post _] using rev_ind; intros Heq.
  - left. change (pre ++ [a; b]) with (pre ++ [a] ++ [b]) in Heq.
    rewrite app_assoc in Heq. apply app_inj_tail in Heq as [-> ->]. auto.
  - right. exists post.
    change (pre ++ a :: b :: post ++ [p]) with (pre ++ (a :: b :: post) ++ [p]) in Heq.
    rewrite app_assoc in Heq. apply app_inj_tail in Heq as [-> ->]. auto.
Qed.

Section Greedy.
Variables max_blocks max_chars : Z.

Local Abbreviation step := (split_step max_blocks max_chars).

(** Closing [batch] before [b] was forced by one of the two limits. *)
Local Abbreviation forced := (fun (batch : list SrtBlock) (b : SrtBlock) =>
  max_blocks <= Z.of_nat (length batch)
  \/ max_chars < batch_chars batch + add_chars b).

Local Abbreviation greedy := (fun st : split_state =>
  cur_chars st = batch_chars (cur st)
  /\ (cur st = [] -> batches st = [])
  /\ forall pre batch b batch' post,
       batches st ++ [cur st] = pre ++ batch :: (b :: batch') :: post ->
       forced batch b).

Lemma split_step_greedy st b : greedy st -> greedy (step st b).
Proof.
  destruct st as [bs cu cc]. unfold split_step. simpl.
  intros (Hchars & Hnil & Hadj). subst cc.
  destruct cu as [|c cs].
  - simpl. rewrite (Hnil eq_refl). split; [lia|]. split; [discriminate|].
    intros [|? [|? pre]] batch b0 batch' post Heq; simpl in Heq; discriminate.
  - simpl.
    destruct (max_blocks <=? Z.of_nat (S (length cs))) eqn:Eblocks;
      [|destruct (max_chars <? _) eqn:Echars]; simpl.
    + split; [lia|]. split; [discriminate|].
      intros pre batch b0 batch' post Heq.
      apply snoc_neighbours in Heq as [(-> & Hb & Hbs)|(post' & -> & Hbs)].
      * injection Hb as -> ->. apply app_inj_tail in Hbs as [_ <-].
        left. apply Z.leb_le in Eblocks. exact Eblocks.
      * exact (Hadj _ _ _ _ _ Hbs).
    + split; [lia|]. split; [discriminate|].
      intros pre batch b0 batch' post Heq.
      apply snoc_neighbours in Heq as [(-> & Hb & Hbs)|(post' & -> & Hbs)].
      * injection Hb as -> ->. apply app_inj_tail in Hbs as [_ <-].
        right. apply Z.ltb_lt in Echars. exact Echars.
      * exact (Hadj _ _ _ _ _ Hbs).
    + split; [rewrite batch_chars_snoc; lia|].
      split; [discriminate|].
      intros pre batch b0 batch' post Heq.
      apply snoc_neighbours in Heq as [(-> & Hb & Hbs)|(post' & -> & Hbs)].
      * injection Hb as -> _. apply (Hadj pre batch c cs []). rewrite Hbs.
        rewrite <- app_assoc. reflexivity.
      * apply (Hadj pre batch b0 batch' (post' ++ [c :: cs])). rewrite Hbs.
        rewrite <- app_assoc. reflexivity.
Qed.

Lemma split_loop_greedy blocks st :
  greedy st -> greedy (fold_left step blocks st).
Proof.
  revert st. induction blocks as [|b blocks IH]; intros st Hst; [exact Hst|].
  apply IH, split_step_greedy, Hst.
Qed.

End Greedy.

Lemma split_batches_flat blocks max_blocks max_chars :
  concat (split_batches blocks max_blocks max_chars) = blocks.
Proof.
  unfold split_batches.
  pose proof (split_loop_concat max_blocks max_chars blocks (mkSplit [] [] 0)) as H.
  simpl in H.
  destruct (cur _) as [|c cs] eqn:Ecur; simpl.
  - rewrite app_nil_r in H. exact H.
  - rewrite concat_app. simpl. rewrite app_nil_r. exact H.
Qed.

Lemma batch_chars_app xs ys : batch_chars (xs ++ ys) = batch_chars xs + batch_chars ys.
Proof. induction xs as [|x xs IH]; simpl; lia. Qed.

Lemma batch_chars_nonneg xs : 0 <= batch_chars xs.
Proof. induction xs as [|x xs IH]; simpl; [lia|]. unfold add_chars. lia. Qed.

(** X9: the planner is greedy.  A batch that is followed by another one
    was closed because it had reached the unit-count limit, or because the
    first unit of the next batch would have taken it over the character
    budget: no batch is cut short without need. *)
Theorem split_batches_greedy (blocks : list SrtBlock) (max_blocks max_chars : Z)
    (pre : list (list SrtBlock)) (batch : list SrtBlock) (b : SrtBlock)
    (batch' : list SrtBlock) (post : list (list SrtBlock)) :
  split_batches blocks max_blocks max_chars = pre ++ batch :: (b :: batch') :: post ->
  max_blocks <= Z.of_nat (length batch)
  \/ max_chars < batch_chars batch + add_chars b.
Proof.
  unfold split_batches.
  destruct (split_loop_greedy max_blocks max_chars blocks (mkSplit [] [] 0))
    as (_ & _ & Hadj).
  { simpl. split; [reflexivity|]. split; [reflexivity|].
    intros [|? [|? p]] ? ? ? ? Heq; simpl in Heq; discriminate. }
  destruct (cur _) as [|c cs]; simpl; intros Heq.
  - apply (Hadj pre batch b batch' (post ++ [[]])). rewrite Heq, <- app_assoc.
    reflexivity.
  - apply (Hadj pre batch b batch' post). exact Heq.
Qed.

Lemma split_batches_greedy_witness :
  2 <= Z.of_nat (length [mkSrtBlock 1 [] []; mkSrtBlock 2 [] []])
  \/ 100 < batch_chars [mkSrtBlock 1 [] []; mkSrtBlock 2 [] []]
           + add_chars (mkSrtBlock 3 [] []).
Proof.
  apply (split_batches_greedy
           [mkSrtBlock 1 [] []; mkSrtBlock 2 [] []; mkSrtBlock 3 [] []] 2 100
           [] [mkSrtBlock 1 [] []; mkSrtBlock 2 [] []] (mkSrtBlock 3 [] []) [] []).
  vm_compute. reflexivity.
Defined.

(** X10: a non-empty list of units that fits both limits as a whole is
    planned as one batch, so one batch request is all a run needs. *)
Theorem split_batches_single (blocks : list SrtBlock) (max_blocks max_chars : Z) :
  blocks <> [] ->
  Z.of_nat (length blocks) <= max_blocks ->
  batch_chars blocks <= max_chars ->
  split_batches blocks max_blocks max_chars = [blocks].
Proof.
  intros Hne Hlen Hchars.
  pose proof (split_batches_flat blocks max_blocks max_chars) as Hflat.
  pose proof (split_batches_bounded max_blocks max_chars blocks) as Hall.
  destruct (split_batches blocks max_blocks max_chars) as [|batch [|batch2 post]] eqn:E.
  - simpl in Hflat. congruence.
  - simpl in Hflat. rewrite app_nil_r in Hflat. congruence.
  - exfalso. apply Forall_cons in Hall as [_ Hall]. apply Forall_cons in Hall as [(Hb2 & _) _].
    destruct batch2 as [|b batch']; [congruence|].
    assert (Hforced : max_blocks <= Z.of_nat (length batch)
                      \/ max_chars < batch_chars batch + add_chars b).
    { pose proof (split_loop_greedy max_blocks max_chars blocks (mkSplit [] [] 0))
        as Hgreedy.
      destruct Hgreedy as (_ & _ & Hadj).
      { simpl. split; [reflexivity|]. split; [reflexivity|].
        intros [|? [|? p]] ? ? ? ? Heq; simpl in Heq; discriminate. }
      unfold split_batches in E.
      destruct (cur _) as [|c cs]; simpl in E.
      - apply (Hadj [] batch b batch' (post ++ [[]])). rewrite E. reflexivity.
      - apply (Hadj [] batch b batch' post). exact E. }
    destruct Hforced as [Hblocks|Hbudget].
    + rewrite <- Hflat in Hlen. simpl in Hlen. rewrite !length_app in Hlen.
      simpl in Hlen. lia.
    + rewrite <- Hflat in Hchars. simpl in Hchars.
      rewrite !batch_chars_app in Hchars. simpl in Hchars.
      pose proof (batch_chars_nonneg (batch' ++ concat post)). lia.
Qed.

Lemma split_batches_single_witness :
  split_batches sample_blocks 3 2000 = [sample_blocks].
Proof.
  apply (split_batches_single sample_blocks 3 2000);
    [discriminate|vm_compute; discriminate|vm_compute; discriminate].
Defined.

(** ** What the parser keeps *)

Lemma take_text_sub ls l :
  Forall (fun l => no_linebreak l = true) ls -> In l (take_text ls) -> In l ls.
Proof.
  induction 1 as [|x ls Hx Hls IH]; simpl; [tauto|].
  destruct (blank x); [intros []|]. rewrite (rstrip_lf_id x Hx).
  intros [<-|Hl]; auto.
Qed.

(** The timing string and the text lines of a parsed block come from the
    lines that were read. *)
Lemma parse_loop_sub n :
  forall ls blocks,
  (length ls <= n)%nat ->
  Forall (fun l => no_linebreak l = true) ls ->
  parse_loop ls = Ok blocks ->
  forall b, In b blocks ->
  (exists i t, In i ls /\ In t ls /\ int (strip i) = Some (idx b) /\ time b = strip t)
  /\ forall l, In l (lines b) -> In l ls.
Proof.
  induction n as [|n IH]; intros ls blocks Hlen Hls.
  - destruct ls; [|simpl in Hlen; lia]. simp parse_loop. intros [= <-] b [].
  - destruct ls as [|l rest]; [simp parse_loop; intros [= <-] b []|].
    rewrite parse_loop_cons. simpl in Hlen.
    apply Forall_cons in Hls as [Hl Hrest].
    destruct (blank l).
    { intros Hrun b Hb. destruct (IH rest blocks ltac:(lia) Hrest Hrun b Hb)
        as [(i & t & Hi & Ht & Hint & Htime) Hlines].
      split; [exists i, t; simpl; auto|]. intros x Hx. right. auto. }
    destruct (int (strip l)) as [i|] eqn:Eint; [|discriminate].
    destruct rest as [|t rest']; [discriminate|].
    apply Forall_cons in Hrest as [Ht Hrest'].
    destruct (after_block_suffix rest') as [pre Hpre].
    destruct (parse_loop (drop_blank (drop_text rest'))) as [tail|] eqn:Etail;
      [|discriminate].
    intros [= <-] b [<-|Hb].
    + simpl. split; [exists l, t; auto|].
      intros x Hx. right. right. apply take_text_sub; assumption.
    + assert (Hsub : forall x, In x (drop_blank (drop_text rest')) -> In x rest').
      { intros x Hx. rewrite Hpre. apply in_app_iff. auto. }
      assert (Hshort : (length (drop_blank (drop_text rest')) <= n)%nat).
      { apply (f_equal (@length _)) in Hpre. rewrite length_app in Hpre.
        simpl in Hlen. lia. }
      assert (Hnl : Forall (fun l => no_linebreak l = true) (drop_blank (drop_text rest'))).
      { rewrite Hpre in Hrest'. apply Forall_app in Hrest'. tauto. }
      destruct (IH _ _ Hshort Hnl Etail b Hb)
        as [(i' & t' & Hi & Ht' & Hint & Htime) Hlines].
      split; [exists i', t'; simpl; auto 6|]. intros x Hx. simpl. auto.
Qed.

(** X11: the parser invents nothing.  The index and the timing string of
    a parsed block are read off lines of the input, and every text line of
    the block is a line of the input, verbatim (the strip of line feeds is
    a no-op on a split line); it is not blank and holds no line break. *)
Theorem parse_srt_blocks (text : str) (blocks : list SrtBlock) (b : SrtBlock) :
  parse_srt text = Ok blocks -> In b blocks ->
  (exists i t, In i (splitlines text) /\ In t (splitlines text)
               /\ int (strip i) = Some (idx b) /\ time b = strip t)
  /\ (forall l, In l (lines b) ->
        In l (splitlines text) /\ blank l = false /\ no_linebreak l = true).
Proof.
  intros Hparse Hb.
  assert (Hls : Forall (fun l => no_linebreak l = true) (splitlines text)).
  { apply List.Forall_forall. intros l Hl. apply splitlines_no_linebreak in Hl. exact Hl. }
  destruct (parse_loop_sub (length (splitlines text)) (splitlines text) blocks
              ltac:(lia) Hls Hparse b Hb) as [Hhead Hlines].
  split; [exact Hhead|]. intros l Hl.
  pose proof (parse_srt_wf text blocks Hparse) as Hwf.
  rewrite List.Forall_forall in Hwf. destruct (Hwf b Hb) as (_ & _ & Hgood).
  rewrite List.Forall_forall in Hgood. destruct (Hgood l Hl) as [Hnl Hnb].
  auto.
Qed.

Lemma parse_srt_blocks_witness :
  In (lit "World") (splitlines sample_input) /\ blank (lit "World") = false
  /\ no_linebreak (lit "World") = true.
Proof.
  apply (proj2 (parse_srt_blocks sample_input sample_blocks
                  (mkSrtBlock 2 (lit "00:00:03,000 --> 00:00:04,000") [lit "World"])
                  eq_refl (or_intror (or_introl eq_refl)))
           (lit "World")).
  left. reflexivity.
Defined.

(** ** Line endings *)

Lemma splitlines_go_crlf l :
  forall acc rest,
  no_linebreak l = true ->
  splitlines_go false acc (l ++ CR :: LF :: rest)
  = (acc ++ l) :: splitlines_go false [] rest.
Proof.
  induction l as [|c l IH]; intros acc rest Hl; simpl.
  - rewrite app_nil_r. reflexivity.
  - simpl in Hl. apply andb_prop in Hl as [Hc Hl].
    apply negb_true_iff in Hc. rewrite Hc.
    rewrite (IH _ _ Hl), <- app_assoc. reflexivity.
Qed.

Lemma splitlines_crlf_lines ls :
  Forall (fun l => no_linebreak l = true) ls -> splitlines (crlf_lines ls) = ls.
Proof.
  unfold splitlines, crlf_lines.
  induction 1 as [|l ls Hl Hls IH]; simpl; [reflexivity|].
  rewrite <- app_assoc. simpl. rewrite (splitlines_go_crlf l [] _ Hl). simpl.
  rewrite IH. reflexivity.
Qed.

(** X12: Windows line ends make no difference: lines terminated by a
    carriage return and a line feed are read, by the parser, the resume
    locator and both decoders, as the same lines terminated by a line
    feed. *)
Theorem crlf_makes_no_difference (ls : list str) :
  Forall (fun l => no_linebreak l = true) ls ->
  parse_srt (crlf_lines ls) = parse_srt (write_lines ls)
  /\ last_idx_in_srt (crlf_lines ls) = last_idx_in_srt (write_lines ls)
  /\ parse_zh_map (crlf_lines ls) = parse_zh_map (write_lines ls)
  /\ one_lines (crlf_lines ls) = one_lines (write_lines ls).
Proof.
  intros Hls.
  unfold parse_srt, last_idx_in_srt, parse_zh_map, clean, one_lines.
  rewrite (splitlines_crlf_lines ls Hls), (splitlines_write_lines ls Hls). auto.
Qed.

Lemma crlf_makes_no_difference_witness :
  parse_srt (crlf_lines [lit "1"; lit "a --> b"; lit "Hello"; []])
  = parse_srt (write_lines [lit "1"; lit "a --> b"; lit "Hello"; []]).
Proof.
  apply (crlf_makes_no_difference [lit "1"; lit "a --> b"; lit "Hello"; []]).
  repeat constructor.
Defined.

(** ** Code fences *)

Lemma filter_andb {A} (f g : A -> bool) (l : list A) :
  List.filter (fun x => f x && g x) l = List.filter f (List.filter g l).
Proof.
  induction l as [|x l IH]; simpl; [reflexivity|].
  destruct (g x); simpl; [|rewrite andb_false_r; exact IH].
  rewrite andb_true_r. destruct (f x); [f_equal|]; exact IH.
Qed.

(** X6: code-fence lines are ignored by both decoders: two responses
    whose lines differ only by lines that start, once stripped, with three
    backquotes decode to the same result. *)
Theorem fence_lines_ignored (ls1 ls2 : list str) :
  Forall (fun l => no_linebreak l = true) ls1 ->
  Forall (fun l => no_linebreak l = true) ls2 ->
  List.filter (fun x => negb (is_fence_line x)) ls1
  = List.filter (fun x => negb (is_fence_line x)) ls2 ->
  parse_zh_map (write_lines ls1) = parse_zh_map (write_lines ls2)
  /\ one_lines (write_lines ls1) = one_lines (write_lines ls2).
Proof.
  intros H1 H2 Heq. unfold parse_zh_map, clean, one_lines.
  rewrite (splitlines_write_lines ls1 H1), (splitlines_write_lines ls2 H2).
  rewrite Heq. split; [reflexivity|]. f_equal.
  rewrite (filter_andb (fun x => truthy (strip x))
             (fun x => negb (startswith fence (strip x))) ls1).
  rewrite (filter_andb (fun x => truthy (strip x))
             (fun x => negb (startswith fence (strip x))) ls2).
  f_equal. exact Heq.
Qed.

Lemma fence_lines_ignored_witness :
  parse_zh_map (write_lines [lit "```text"; lit "<<<SRT:000001>>>"; lit "ni hao"; lit "```"])
  = parse_zh_map (write_lines [lit "<<<SRT:000001>>>"; lit "ni hao"]).
Proof.
  apply (fence_lines_ignored
           [lit "```text"; lit "<<<SRT:000001>>>"; lit "ni hao"; lit "```"]
           [lit "<<<SRT:000001>>>"; lit "ni hao"]).
  - repeat constructor.
  - repeat constructor.
  - vm_compute. reflexivity.
Defined.

(** ** Resuming from the writer's own output *)

(** X13: the resume locator reads back the writer.  On a file the writer
    produced from well-formed units with non-negative ids, whose timing
    lines hold the arrow and whose text lines do not, the resume point is
    the id of the last unit written, and zero when nothing was written. *)
Theorem resume_point_of_written (units : list (SrtBlock * list str)) :
  Forall (fun u => wf_block u.1 /\ Forall good_line u.2) units ->
  Forall plain_unit units ->
  last_idx_in_srt (render units [])
  = Ok (List.last (map (fun u => idx u.1) units) 0).
Proof.
  intros Hwf Hplain. unfold last_idx_in_srt.
  assert (Hfile : render units [] = write_lines (flat_map unit_lines units))
    by (rewrite render_lines; reflexivity).
  rewrite Hfile, (splitlines_write_lines _ (unit_lines_no_linebreak units Hwf)).
  clear Hwf Hfile. generalize 0.
  induction Hplain as [|u units Hu Hunits IH]; intros last; [reflexivity|].
  change (flat_map unit_lines (u :: units))
    with (unit_lines u ++ flat_map unit_lines units).
  rewrite (last_idx_loop_unit u _ last Hu), last_idx_loop_blank, (IH (idx u.1)).
  f_equal. change (map (fun u => idx u.1) (u :: units))
    with (idx u.1 :: map (fun u => idx u.1) units).
  destruct (map (fun u => idx u.1) units) as [|i ids]; [reflexivity|].
  change (List.last (idx u.1 :: i :: ids) last) with (List.last (i :: ids) last).
  generalize (idx u.1). clear. revert i.
  induction ids as [|j ids IH]; intros i d; [reflexivity|].
  change (List.last (j :: ids) d = List.last (j :: ids) last). apply IH.
Qed.


Lemma filter_all {A} (f : A -> bool) (l : list A) :
  Forall (fun x => f x = true) l -> List.filter f l = l.
Proof. induction 1 as [|x l Hx Hl IH]; simpl; [reflexivity|]. rewrite Hx, IH. reflexivity. Qed.





Lemma resume_point_of_written_witness :
  last_idx_in_srt (render [(mkSrtBlock 7 (lit "a --> b") [lit "Hello"], [lit "ni hao"])] [])
  = Ok 7.
Proof.
  apply (resume_point_of_written
           [(mkSrtBlock 7 (lit "a --> b") [lit "Hello"], [lit "ni hao"])]).
  - repeat constructor.
  - repeat constructor; vm_compute; try reflexivity; intros; discriminate.
Defined.

(** X21: a file none of whose lines holds the arrow has resume point
    zero, whatever else it holds. *)
Theorem resume_point_without_timing (text : str) :
  Forall (fun l => contains arrow l = false) (splitlines text) ->
  last_idx_in_srt text = Ok 0.
Proof.
  unfold last_idx_in_srt. generalize 0.
  induction (splitlines text) as [|l ls IH]; intros last Hls; [reflexivity|].
  destruct ls as [|l' ls]; [reflexivity|].
  apply Forall_cons in Hls as [_ Hls]. pose proof Hls as Hl'.
  apply Forall_cons in Hl' as [Hl' _].
  change (last_idx_loop (l :: l' :: ls) last)
    with (if isdigit (strip l) && contains arrow l'
          then match or_value_error (int (strip l)) with
               | Ok n => last_idx_loop (l' :: ls) n
               | Err e => Err e
               end
          else last_idx_loop (l' :: ls) last).
  rewrite Hl', andb_false_r. apply IH, Hls.
Qed.

Lemma resume_point_without_timing_witness :
  last_idx_in_srt (text_of ["1"; "00:00:01,000 -> 00:00:02,000"; "Hello"; ""]) = Ok 0.
Proof.
  apply (resume_point_without_timing
           (text_of ["1"; "00:00:01,000 -> 00:00:02,000"; "Hello"; ""])).
  vm_compute. repeat constructor.
Defined.

(** ** What a worker returns *)

Lemma lstrip_rstrip s : lstrip (rstrip s) = rstrip (lstrip s).
Proof.
  induction s as [|c s IH]; [reflexivity|].
  simpl. destruct (is_space c) eqn:E; simpl.
  - destruct (rstrip s) as [|r rs] eqn:Er; simpl.
    + assert (Hs : all_space s = true) by (apply rstrip_nil_iff; exact Er).
      apply lstrip_nil_iff in Hs. rewrite Hs. reflexivity.
    + rewrite E. rewrite <- IH. reflexivity.
  - rewrite ?E. simpl. rewrite ?E. reflexivity.
Qed.

Lemma strip_rstrip s : strip (rstrip s) = strip s.
Proof. unfold strip. rewrite lstrip_rstrip. apply rstrip_idem. Qed.

Lemma no_linebreak_In s x : In x (splitlines s) -> no_linebreak (rstrip x) = true.
Proof. intros Hx. apply no_linebreak_rstrip, (splitlines_no_linebreak s), Hx. Qed.

(** The lines a single-unit reply is reduced to. *)
Lemma one_lines_kept content l :
  In l (one_lines content) -> kept_line l /\ is_fence_line l = false.
Proof.
  unfold one_lines. intros Hl. apply in_map_iff in Hl as (x & <- & Hx).
  apply filter_In in Hx as [Hx Hkeep]. apply andb_prop in Hkeep as [Hne Hfence].
  destruct (rstrip_kept x Hne) as (H1 & H2 & H3).
  split; [repeat split; auto; eapply no_linebreak_In; eauto|].
  unfold is_fence_line. rewrite strip_rstrip. apply negb_true_iff, Hfence.
Qed.

(** The lines of the values of a decoded batch reply. *)
Lemma parse_zh_map_kept content zh i ls l :
  parse_zh_map content = Ok zh -> zh !! i = Some ls -> In l ls -> kept_line l.
Proof.
  unfold parse_zh_map. intros Hparse Hls Hl.
  destruct (zh_loop_spec (clean content) (finditer (clean content)) ∅)
    as (zh' & Hrun & Hspec); [intros m Hm; apply (finditer_groups _ _ Hm)|].
  assert (zh' = zh) as -> by congruence.
  apply Hspec in Hls as [(pre & m & post & _ & _ & _ & ->)|[_ Hempty]];
    [|rewrite lookup_empty in Hempty; discriminate].
  apply (seg_lines_kept _ _ Hl).
Qed.

Section Values.
Context `{Host}.
Variable cfg : gmap string value.

Local Abbreviation kept := (fun zh : gmap Z (list str) =>
  forall i ls, zh !! i = Some ls -> Forall kept_line ls).

Lemma translate_one_kept src w r w' :
  translate_one cfg src w = (Ok r, w') ->
  Forall (fun l => kept_line l /\ is_fence_line l = false) r.
Proof.
  unfold translate_one. destruct (negb (truthy src)); [intros [= <- <-]; constructor|].
  unfold bind, lift, ret.
  destruct (getitem cfg "model") as [vm|]; [|discriminate].
  destruct (getitem cfg "temperature") as [vt|]; [|discriminate].
  destruct (getitem cfg "api_key") as [vk|]; [|discriminate].
  destruct (getitem cfg "timeout_s") as [vs|]; [|discriminate].
  destruct (int_of vs) as [ts|]; [|discriminate].
  destruct (post_chat _ w) as [[content|] w1]; [|discriminate].
  intros [= <- <-]. apply List.Forall_forall. intros l Hl.
  apply (one_lines_kept content l Hl).
Qed.

Lemma fallback_kept missing blocks :
  forall zh w zh' w',
  fallback cfg missing blocks zh w = (Ok zh', w') -> kept zh -> kept zh'.
Proof.
  induction blocks as [|b blocks IH]; intros zh w zh' w'; simpl.
  - intros [= <- <-]. auto.
  - case_bool_decide as Hin; [|apply IH].
    unfold bind at 1.
    destruct (translate_one cfg (lines b) w) as [[r|e] w1] eqn:Eone; [|discriminate].
    intros Hrun Hzh. apply (IH _ _ _ _ Hrun). intros i ls.
    destruct (decide (idx b = i)) as [<-|Hne].
    + rewrite lookup_insert_eq. intros [= <-].
      eapply Forall_impl; [exact (translate_one_kept _ _ _ _ Eone)|]. simpl. tauto.
    + rewrite lookup_insert_ne by exact Hne. apply Hzh.
Qed.

Lemma translate_batch_kept blocks w zh w' :
  translate_batch cfg blocks w = (Ok zh, w') -> kept zh.
Proof.
  unfold translate_batch, bind, lift.
  destruct (getitem cfg "model") as [vm|]; [|discriminate].
  destruct (getitem cfg "temperature") as [vt|]; [|discriminate].
  destruct (getitem cfg "api_key") as [vk|]; [|discriminate].
  destruct (getitem cfg "timeout_s") as [vs|]; [|discriminate].
  destruct (int_of vs) as [ts|]; [|discriminate].
  destruct (post_chat _ w) as [[content|] w1]; [|discriminate].
  destruct (parse_zh_map content) as [zh0|] eqn:Eparse; [|discriminate].
  rewrite fallback_guard. intros Hrun. apply (fallback_kept _ _ _ _ _ _ Hrun).
  intros i ls Hls. apply List.Forall_forall. intros l Hl.
  exact (parse_zh_map_kept content zh0 i ls l Eparse Hls Hl).
Qed.

Lemma run_batch_kept batch w zh w' :
  run_batch cfg batch w = (Ok zh, w') -> kept zh.
Proof.
  unfold run_batch, bind at 1.
  destruct (translate_batch cfg batch w) as [[zh0|] w1] eqn:Erun; [|discriminate].
  unfold bind, lift, ret.
  destruct (getitem cfg "pause_s") as [vp|]; [|discriminate].
  destruct (float_of vp) as [f|]; [|discriminate].
  destruct (float_pos f); simpl; intros [= <- <-];
    eapply translate_batch_kept; eauto.
Qed.

Section Failures.
Variables (model temperature : value) (api_key : str) (timeout_s : Z).
Hypothesis Hcfg : client_cfg cfg model temperature api_key timeout_s.

Local Abbreviation single := (single_request model temperature api_key timeout_s).
Local Abbreviation batch_req := (batch_request model temperature api_key timeout_s).

Lemma translate_one_fails b e rest sent0 slept0 :
  lines b <> [] ->
  translate_one cfg (lines b) (mkWorld (Err e :: rest) sent0 slept0)
  = (Err e, mkWorld rest (sent0 ++ [single b]) slept0).
Proof.
  intros Hne. destruct Hcfg as (k & t & Hm & Ht & Hk & Hs & Hto & Hi).
  unfold translate_one. destruct (lines b) eqn:El; [congruence|]. simpl.
  unfold bind, lift, getitem, post_chat, ret, single_request.
  rewrite Hm, Ht, Hk, Hto, Hi, Hs, El. reflexivity.
Qed.

(** The fallback loop stops at the first request that fails. *)
Lemma fallback_fails missing blocks :
  forall zh contents e rest sent0 slept0,
  let miss := with_text (List.filter (fun b => bool_decide (idx b ∈ missing)) blocks) in
  (length contents < length miss)%nat ->
  fallback cfg missing blocks zh (mkWorld (map Ok contents ++ Err e :: rest) sent0 slept0)
  = (Err e, mkWorld rest (sent0 ++ map single (take (S (length contents)) miss)) slept0).
Proof.
  induction blocks as [|b blocks IH]; intros zh contents e rest sent0 slept0; simpl.
  - intros Hlen. simpl in Hlen. lia.
  - case_bool_decide as Hin; simpl; [|apply IH].
    destruct (lines b) as [|l ls] eqn:El; simpl.
    + intros Hlen. unfold bind at 1. simpl. apply IH. exact Hlen.
    + intros Hlen. unfold bind at 1. rewrite <- El.
      destruct contents as [|c contents]; simpl.
      * rewrite translate_one_fails by (rewrite El; discriminate).
        reflexivity.
      * rewrite (translate_one_text cfg model temperature api_key timeout_s Hcfg)
          by (rewrite El; discriminate).
        simpl in Hlen. rewrite IH by lia. rewrite <- app_assoc. reflexivity.
Qed.

Lemma translate_batch_fails_first blocks e rest sent0 slept0 :
  translate_batch cfg blocks (mkWorld (Err e :: rest) sent0 slept0)
  = (Err e, mkWorld rest (sent0 ++ [batch_req blocks]) slept0).
Proof.
  destruct Hcfg as (k & t & Hm & Ht & Hk & Hs & Hto & Hi).
  unfold translate_batch, bind, lift, getitem, post_chat.
  rewrite Hm, Ht, Hk, Hto, Hi, Hs. reflexivity.
Qed.

Lemma translate_batch_fails_later blocks content zh0 contents e rest sent0 slept0 :
  parse_zh_map content = Ok zh0 ->
  (length contents < length (with_text (missing_units zh0 blocks)))%nat ->
  translate_batch cfg blocks
    (mkWorld (Ok content :: map Ok contents ++ Err e :: rest) sent0 slept0)
  = (Err e,
     mkWorld rest
       (sent0 ++ batch_req blocks
          :: map single (take (S (length contents))
                           (with_text (missing_units zh0 blocks))))
       slept0).
Proof.
  intros Hparse Hlen. destruct Hcfg as (k & t & Hm & Ht & Hk & Hs & Hto & Hi).
  unfold translate_batch, bind, lift, getitem, post_chat.
  rewrite Hm, Ht, Hk, Hto, Hi, Hs. simpl. rewrite Hparse.
  rewrite fallback_guard.
  pose proof (fallback_fails (elements ((list_to_set (map idx blocks) : gset Z) ∖ dom zh0))
                blocks zh0 contents e rest (sent0 ++ [batch_req blocks]) slept0) as Hrun.
  simpl in Hrun. rewrite missing_units_filter in Hrun.
  unfold batch_request in Hrun. rewrite (Hrun Hlen), <- app_assoc. reflexivity.
Qed.

End Failures.

End Values.

(** X7: every line of every translation a worker returns, whether decoded
    from the batch response or obtained by the fallback, is non-empty, not
    blank, free of trailing white space and of line breaks; a line obtained
    by [translate_one] is moreover not a code-fence line. *)
Theorem translations_kept `{Host} (cfg : gmap string value) :
  (forall batch w zh w' i ls l,
     run_batch cfg batch w = (Ok zh, w') -> zh !! i = Some ls -> In l ls ->
     l <> [] /\ blank l = false /\ rstrip l = l /\ no_linebreak l = true)
  /\ (forall src w r w' l,
        translate_one cfg src w = (Ok r, w') -> In l r ->
        l <> [] /\ blank l = false /\ rstrip l = l /\ no_linebreak l = true
        /\ is_fence_line l = false).
Proof.
  split.
  - intros batch w zh w' i ls l Hrun Hls Hl.
    pose proof (run_batch_kept cfg batch w zh w' Hrun i ls Hls) as Hall.
    rewrite List.Forall_forall in Hall. exact (Hall l Hl).
  - intros src w r w' l Hrun Hl.
    pose proof (translate_one_kept cfg src w r w' Hrun) as Hall.
    rewrite List.Forall_forall in Hall. destruct (Hall l Hl) as [(H1 & H2 & H3 & H4) H5].
    auto.
Qed.

Lemma translations_kept_witness :
  rstrip (lit "ni hao") = lit "ni hao".
Proof.
  refine (proj1 (proj2 (proj2 (proj1 (translations_kept sample_cfg)
            sample_blocks (mkWorld [Ok (text_of ["<<<SRT:000001>>>"; "ni hao  "; "";
                                                 "<<<SRT:000002>>>"; "shi jie";
                                                 "<<<SRT:000003>>>"; "ce shi"])] [] [])
            _ _ 1 [lit "ni hao"] (lit "ni hao") _ _ _)))).
  - reflexivity.
  - reflexivity.
  - left. reflexivity.
Defined.

(** X8: a failed request is fatal for the batch.  When the batch request
    raises, [translate_batch] raises the same exception having sent that
    request alone; when a fallback request raises, the exception is raised
    at once: the requests sent are the batch request and the fallback
    requests up to the failed one, and the translations obtained so far are
    lost. *)
Theorem translate_batch_fails `{Host} (cfg : gmap string value)
    (model temperature : value) (api_key : str) (timeout_s : Z)
    (blocks : list SrtBlock) (e : exn) (rest : list reply)
    (sent0 : list request) (slept0 : list float) :
  client_cfg cfg model temperature api_key timeout_s ->
  translate_batch cfg blocks (mkWorld (Err e :: rest) sent0 slept0)
  = (Err e,
     mkWorld rest (sent0 ++ [batch_request model temperature api_key timeout_s blocks])
       slept0)
  /\ (forall content zh0 contents,
        parse_zh_map content = Ok zh0 ->
        (length contents < length (with_text (missing_units zh0 blocks)))%nat ->
        translate_batch cfg blocks
          (mkWorld (Ok content :: map Ok contents ++ Err e :: rest) sent0 slept0)
        = (Err e,
           mkWorld rest
             (sent0 ++ batch_request model temperature api_key timeout_s blocks
                :: map (single_request model temperature api_key timeout_s)
                     (take (S (length contents))
                        (with_text (missing_units zh0 blocks))))
             slept0)).
Proof.
  intros Hcfg. split.
  - apply (translate_batch_fails_first cfg model temperature api_key timeout_s Hcfg).
  - intros content zh0 contents Hparse Hlen.
    apply (translate_batch_fails_later cfg model temperature api_key timeout_s Hcfg
             blocks content zh0 contents e rest sent0 slept0 Hparse Hlen).
Qed.

Lemma translate_batch_fails_witness :
  fst (translate_batch sample_cfg sample_blocks
         (mkWorld [Ok sample_reply; Err TransportError] [] []))
  = Err TransportError.
Proof.
  refine (f_equal fst (proj2 (translate_batch_fails sample_cfg (VStr (lit "m")) (VInt 1)
            (lit "k") 60 sample_blocks TransportError [] [] [] _)
            sample_reply sample_decoded [] _ _)).
  - exists (VStr (lit "k")), (VInt 60). repeat split; reflexivity.
  - vm_compute. reflexivity.
  - vm_compute. lia.
Defined.

(** ** An echoed request *)

Lemma startswith_head_match s g : match_mark s = Some g -> startswith mark_head s = true.
Proof.
  unfold match_mark, mark_head.
  destruct (startswith (lit "<<<SRT:") s); [reflexivity|discriminate].
Qed.

Lemma finditer_go_skip a :
  forall pos b, finditer_go pos (length a) (a ++ b) = finditer_go (pos + length a) 0 b.
Proof.
  induction a as [|c a IH]; intros pos b; simpl.
  - rewrite Nat.add_0_r. reflexivity.
  - rewrite IH. f_equal. lia.
Qed.

Lemma finditer_go_here pos c s :
  finditer_go pos 0 (c :: s)
  = match match_mark (c :: s) with
    | Some g => mkMark pos (pos + 16) g :: finditer_go (S pos) 15 s
    | None => finditer_go (S pos) 0 s
    end.
Proof. reflexivity. Qed.

(** A marker at the head of the text is the first match, and the search
    resumes after it. *)
Lemma finditer_go_marker g pos rest :
  length g = 6%nat -> forallb is_decimal g = true ->
  finditer_go pos 0 (marker_text g ++ rest)
  = mkMark pos (pos + 16) g :: finditer_go (pos + 16) 0 rest.
Proof.
  intros Hlen Hdig.
  assert (Hm : match_mark (marker_text g ++ rest) = Some g)
    by (apply match_mark_iff; eauto).
  change (marker_text g ++ rest)
    with (60%N :: (lit "<<SRT:" ++ g ++ lit ">>>") ++ rest) in *.
  rewrite finditer_go_here, Hm. f_equal.
  assert (Hskip : length (lit "<<SRT:" ++ g ++ lit ">>>") = 15%nat)
    by (rewrite !length_app, Hlen; reflexivity).
  rewrite <- Hskip at 1. rewrite finditer_go_skip, Hskip. f_equal. lia.
Qed.

(** A stretch of text in which no marker opens holds no match. *)
Lemma finditer_go_no_head a :
  forall pos b,
  (forall k, (k < length a)%nat -> startswith mark_head (drop k (a ++ b)) = false) ->
  finditer_go pos 0 (a ++ b) = finditer_go (pos + length a) 0 b.
Proof.
  induction a as [|c a IH]; intros pos b Hno; simpl.
  - rewrite Nat.add_0_r. reflexivity.
  - destruct (match_mark (c :: a ++ b)) as [g|] eqn:E.
    + apply startswith_head_match in E.
      pose proof (Hno 0%nat ltac:(simpl; lia)) as H0.
      change (drop 0 ((c :: a) ++ b)) with (c :: a ++ b) in H0.
      rewrite H0 in E. discriminate.
    + rewrite IH; [f_equal; lia|].
      intros k Hk. apply (Hno (S k)). simpl. lia.
Qed.

Lemma startswith_line p :
  (forall c, In c p -> c <> LF) ->
  forall l rest, startswith p (l ++ LF :: rest) = true -> startswith p l = true.
Proof.
  induction p as [|a p IH]; intros Hp l rest; [reflexivity|].
  destruct l as [|c l]; simpl.
  - intros Hs. apply andb_prop in Hs as [Ha _]. apply N.eqb_eq in Ha.
    exfalso. apply (Hp a); [left; reflexivity|exact Ha].
  - intros Hs. apply andb_prop in Hs as [Ha Hs]. rewrite Ha. simpl.
    apply (IH (fun c Hc => Hp c (or_intror Hc)) l rest Hs).
Qed.

Lemma startswith_mono p : forall s t, startswith p s = true -> startswith p (s ++ t) = true.
Proof.
  induction p as [|a p IH]; intros s t; [reflexivity|].
  destruct s as [|c s]; simpl; [discriminate|].
  intros Hs. apply andb_prop in Hs as [Ha Hs]. rewrite Ha. simpl. apply IH, Hs.
Qed.

Lemma contains_drop p s :
  contains p s = false -> forall k, startswith p (drop k s) = false.
Proof.
  induction s as [|c s IH]; intros Hc k.
  - rewrite drop_nil. simpl in Hc. rewrite orb_false_r in Hc. exact Hc.
  - simpl in Hc. apply orb_false_elim in Hc as [Hhere Hlater].
    destruct k as [|k]; [exact Hhere|]. simpl. apply IH, Hlater.
Qed.

Lemma mark_head_no_lf c : In c mark_head -> c <> LF.
Proof.
  unfold mark_head. simpl.
  intros [<-|[<-|[<-|[<-|[<-|[<-|[<-|[]]]]]]]]; discriminate.
Qed.

(** No marker opens in lines that do not contain its head, nor across the
    line feeds between them. *)
Lemma join_no_head ls :
  Forall (fun l => contains mark_head l = false) ls ->
  forall rest k,
  (k <= length (join [LF] ls))%nat ->
  startswith mark_head (drop k (join [LF] ls ++ LF :: rest)) = false.
Proof.
  assert (Hline : forall l rest k,
             contains mark_head l = false -> (k <= length l)%nat ->
             startswith mark_head (drop k (l ++ LF :: rest)) = false).
  { intros l rest k Hl Hk.
    destruct (startswith mark_head (drop k (l ++ LF :: rest))) eqn:E; [|reflexivity].
    rewrite drop_app_le in E by exact Hk.
    apply (startswith_line _ mark_head_no_lf) in E.
    rewrite (contains_drop _ _ Hl k) in E. discriminate. }
  induction 1 as [|l ls Hl Hls IH]; intros rest k Hk.
  - simpl in *. replace k with 0%nat by lia. reflexivity.
  - destruct ls as [|l2 ls].
    + simpl in *. apply Hline; assumption.
    + change (join [LF] (l :: l2 :: ls)) with (l ++ [LF] ++ join [LF] (l2 :: ls)) in *.
      rewrite <- !app_assoc. simpl app.
      destruct (le_lt_dec k (length l)) as [Hin|Hout]; [apply Hline; assumption|].
      rewrite !length_app in Hk. change (length [LF]) with 1%nat in Hk.
      assert (Hsplit : k = (length l + S (k - length l - 1))%nat) by (clear -Hout; lia).
      rewrite Hsplit, drop_app_add. simpl drop. apply IH. clear -Hk Hout. unfold char in *. lia.
Qed.

Lemma rstrip_snoc_space s c : is_space c = true -> rstrip (s ++ [c]) = rstrip s.
Proof.
  intros Hc. induction s as [|x s IH]; simpl.
  - rewrite Hc. reflexivity.
  - rewrite IH. reflexivity.
Qed.

Lemma strip_snoc_space s c : is_space c = true -> strip (s ++ [c]) = strip s.
Proof.
  intros Hc. unfold strip. rewrite <- !lstrip_rstrip, rstrip_snoc_space by exact Hc.
  reflexivity.
Qed.

Lemma zh_loop_step cleaned m rest out i :
  int (m_group m) = Some i ->
  zh_loop cleaned (m :: rest) out
  = zh_loop cleaned rest (<[i := mark_lines cleaned m rest]> out).
Proof. intros Hint. simpl. rewrite Hint. reflexivity. Qed.

Lemma length_marker_text g : length g = 6%nat -> length (marker_text g) = 16%nat.
Proof. intros Hlen. unfold marker_text. rewrite !length_app, Hlen. reflexivity. Qed.

(** The segment of the last marker runs to the end of the text. *)
Lemma mark_lines_last prefix g seg :
  length g = 6%nat ->
  mark_lines (prefix ++ marker_text g ++ seg)
    (mkMark (length prefix) (length prefix + 16) g) []
  = seg_lines (strip seg).
Proof.
  intros Hlen. pose proof (length_marker_text g Hlen) as Hm.
  unfold mark_lines, seg_end, slice. cbn [m_end].
  rewrite drop_app_add. rewrite <- Hm, drop_app_length.
  rewrite take_ge; [reflexivity|]. rewrite !length_app. lia.
Qed.

(** The segment of a marker stops where the next match starts. *)
Lemma mark_lines_next prefix g seg rest m' marks :
  length g = 6%nat ->
  m_start m' = (length prefix + 16 + length seg)%nat ->
  mark_lines (prefix ++ marker_text g ++ seg ++ rest)
    (mkMark (length prefix) (length prefix + 16) g) (m' :: marks)
  = seg_lines (strip seg).
Proof.
  intros Hlen Hstart. pose proof (length_marker_text g Hlen) as Hm.
  unfold mark_lines, seg_end, slice. cbn [m_end]. rewrite Hstart.
  rewrite drop_app_add. rewrite <- Hm, drop_app_length.
  replace (length prefix + length (marker_text g) + length seg
           - (length prefix + length (marker_text g)))%nat
    with (length seg) by lia.
  rewrite take_app_length. reflexivity.
Qed.

Section Echo.

(** The request text of one unit: its marker, then its lines. *)
Local Abbreviation unit_text := (fun b : SrtBlock =>
  mk_mark (idx b) ++ LF :: join [LF] (lines b)).

Local Abbreviation bind_echoed := (fun (zh : gmap Z (list str)) (b : SrtBlock) =>
  <[idx b := echoed b]> zh).

Lemma unit_text_marks b rest pos :
  echo_safe b ->
  exists marks,
    finditer_go pos 0 (unit_text b ++ rest)
    = mkMark pos (pos + 16) (repr06 (idx b)) :: marks.
Proof.
  intros [Hid _]. destruct (repr06_fits _ Hid) as (Hlen & Hdig & _).
  eexists. rewrite <- app_assoc.
  apply (finditer_go_marker (repr06 (idx b)) pos _ Hlen Hdig).
Qed.

Lemma length_mk_mark i : 0 <= i < 1000000 -> length (mk_mark i) = 16%nat.
Proof.
  intros Hi. destruct (repr06_fits _ Hi) as (Hlen & _).
  unfold mk_mark. rewrite !length_app, Hlen. reflexivity.
Qed.

(** Decoding the units of a request, from any offset of the text. *)
Lemma echo_loop blocks :
  forall prefix out,
  Forall echo_safe blocks ->
  zh_loop (prefix ++ join [LF] (map unit_text blocks))
    (finditer_go (length prefix) 0 (join [LF] (map unit_text blocks))) out
  = Ok (fold_left bind_echoed blocks out).
Proof.
  induction blocks as [|b rest IH]; intros prefix out Hsafe; [reflexivity|].
  apply Forall_cons in Hsafe as [Hb Hrest].
  pose proof Hb as [Hid Hlines].
  destruct (repr06_fits _ Hid) as (Hlen & Hdig & Hval).
  assert (Hint : int (repr06 (idx b)) = Some (idx b)).
  { rewrite int_digits_str; [rewrite Hval; reflexivity|exact Hdig|].
    intros Hnil. rewrite Hnil in Hlen. discriminate. }
  assert (Hhead : Forall (fun l => contains mark_head l = false) (lines b))
    by (eapply Forall_impl; [exact Hlines|]; simpl; tauto).
  assert (Hlf : is_space LF = true) by reflexivity.
  set (g := repr06 (idx b)) in *.
  set (R := LF :: join [LF] (lines b)).
  assert (Hstrip : seg_lines (strip R) = echoed b) by reflexivity.
  destruct rest as [|b' rest'].
  - (* the last unit: its segment runs to the end of the text *)
    change (join [LF] (map unit_text [b])) with (marker_text g ++ R).
    rewrite (finditer_go_marker g _ R Hlen Hdig).
    assert (Hnone : finditer_go (length prefix + 16) 0 R = []).
    { rewrite <- (app_nil_r R). rewrite finditer_go_no_head; [reflexivity|].
      intros k Hk. rewrite app_nil_r.
      destruct k as [|k]; [reflexivity|]. subst R.
      change (drop (S k) (LF :: join [LF] (lines b)))
        with (drop k (join [LF] (lines b))).
      change (length (LF :: join [LF] (lines b)))
        with (S (length (join [LF] (lines b)))) in Hk.
      destruct (startswith mark_head (drop k (join [LF] (lines b)))) eqn:E; [|reflexivity].
      apply (startswith_mono _ _ [LF]) in E.
      rewrite <- drop_app_le in E by lia.
      rewrite (join_no_head _ Hhead [] k) in E by lia. discriminate. }
    rewrite Hnone, (zh_loop_step _ (mkMark (length prefix) (length prefix + 16) g) _ _ (idx b) Hint).
    rewrite (mark_lines_last prefix g R Hlen), Hstrip. reflexivity.
  - (* a unit followed by another: its segment stops at the next marker *)
    set (T := join [LF] (map unit_text (b' :: rest'))).
    change (join [LF] (map unit_text (b :: b' :: rest')))
      with ((marker_text g ++ R) ++ [LF] ++ T).
    set (prefix' := prefix ++ marker_text g ++ R ++ [LF]).
    assert (Hcleaned : prefix ++ (marker_text g ++ R) ++ [LF] ++ T = prefix' ++ T).
    { subst prefix'. rewrite <- !app_assoc. reflexivity. }
    assert (Hlen' : length prefix' = (length prefix + 16 + length (R ++ [LF]))%nat).
    { subst prefix'. rewrite !length_app, (length_marker_text g Hlen). lia. }
    assert (Hmarks : finditer_go (length prefix) 0 ((marker_text g ++ R) ++ [LF] ++ T)
                     = mkMark (length prefix) (length prefix + 16) g
                       :: finditer_go (length prefix') 0 T).
    { rewrite <- app_assoc. rewrite (finditer_go_marker g _ _ Hlen Hdig). f_equal.
      rewrite app_assoc. rewrite finditer_go_no_head.
      - rewrite Hlen'. f_equal; lia.
      - intros k Hk. destruct k as [|k]; [reflexivity|].
        subst R. rewrite length_app in Hk.
        change (length (LF :: join [LF] (lines b)))
          with (S (length (join [LF] (lines b)))) in Hk.
        change (length [LF]) with 1%nat in Hk.
        change (drop (S k) (((LF :: join [LF] (lines b)) ++ [LF]) ++ T))
          with (drop k ((join [LF] (lines b) ++ [LF]) ++ T)).
        rewrite <- app_assoc. apply (join_no_head _ Hhead). lia. }
    rewrite Hmarks, (zh_loop_step _ (mkMark (length prefix) (length prefix + 16) g) _ _ (idx b) Hint).
    assert (Hseg : mark_lines (prefix ++ (marker_text g ++ R) ++ [LF] ++ T)
                     (mkMark (length prefix) (length prefix + 16) g)
                     (finditer_go (length prefix') 0 T)
                   = echoed b).
    { apply Forall_cons in Hrest as [Hb' _].
      destruct (unit_text_marks b'
                  (match rest' with
                   | [] => []
                   | _ => [LF] ++ join [LF] (map unit_text rest')
                   end) (length prefix') Hb') as [marks Hnext].
      assert (HT : T = unit_text b' ++ match rest' with
                                       | [] => []
                                       | _ => [LF] ++ join [LF] (map unit_text rest')
                                       end).
      { subst T. destruct rest'; [symmetry; apply app_nil_r|reflexivity]. }
      rewrite HT at 2. rewrite Hnext.
      assert (Hshape : prefix ++ (marker_text g ++ R) ++ [LF] ++ T
                       = prefix ++ marker_text g ++ (R ++ [LF]) ++ T)
        by (rewrite <- !app_assoc; reflexivity).
      rewrite Hshape.
      rewrite (mark_lines_next prefix g (R ++ [LF]) T _ marks Hlen).
      - rewrite (strip_snoc_space R LF Hlf). exact Hstrip.
      - cbn [m_start]. exact Hlen'. }
    rewrite Hseg, Hcleaned. apply (IH prefix' (<[idx b := echoed b]> out) Hrest).
Qed.

End Echo.

Lemma join_app (sep : str) (xs ys : list str) :
  xs <> [] -> ys <> [] -> join sep (xs ++ ys) = join sep xs ++ sep ++ join sep ys.
Proof.
  intros Hxs Hys. induction xs as [|x xs IH]; [congruence|].
  destruct xs as [|x' xs].
  - destruct ys; [congruence|reflexivity].
  - change (join sep ((x :: x' :: xs) ++ ys)) with (x ++ sep ++ join sep ((x' :: xs) ++ ys)).
    rewrite IH by discriminate.
    change (join sep (x :: x' :: xs)) with (x ++ sep ++ join sep (x' :: xs)).
    rewrite <- !app_assoc. reflexivity.
Qed.

Lemma join_lf_write_lines ls : ls <> [] -> join [LF] ls ++ [LF] = write_lines ls.
Proof.
  induction ls as [|l ls IH]; [congruence|]. intros _.
  rewrite write_lines_cons. destruct ls as [|l' ls]; [reflexivity|].
  change (join [LF] (l :: l' :: ls)) with (l ++ [LF] ++ join [LF] (l' :: ls)).
  rewrite <- IH by discriminate. rewrite <- !app_assoc. reflexivity.
Qed.

Lemma digits_no_linebreak s : forallb is_decimal s = true -> no_linebreak s = true.
Proof.
  induction s as [|c s IH]; [reflexivity|]. intros Hs.
  apply andb_prop in Hs as [Hc Hs]. unfold no_linebreak. simpl.
  rewrite (space_or_not_linebreak c (digit_not_space c Hc)). apply IH, Hs.
Qed.

(** The marker of an id that fits is a line of its own kind: no line
    break, no white space, not a code fence. *)
Lemma mk_mark_line i :
  0 <= i < 1000000 ->
  no_linebreak (mk_mark i) = true /\ is_fence_line (mk_mark i) = false.
Proof.
  intros Hi. destruct (repr06_fits i Hi) as (_ & Hdig & _). split.
  - unfold mk_mark. rewrite !no_linebreak_app, (digits_no_linebreak _ Hdig). reflexivity.
  - unfold is_fence_line. rewrite strip_no_space; [reflexivity|].
    unfold mk_mark. rewrite !forallb_app.
    apply andb_true_intro. split; [reflexivity|].
    apply andb_true_intro. split; [apply digits_no_space, Hdig|reflexivity].
Qed.

Section EchoText.

Local Abbreviation unit_text := (fun b : SrtBlock =>
  mk_mark (idx b) ++ LF :: join [LF] (lines b)).

Local Abbreviation item := (fun b : SrtBlock =>
  mk_mark (idx b) :: (if truthy (lines b) then lines b else [[]])).

Lemma join_item b : join [LF] (item b) = unit_text b.
Proof. cbv beta. destruct (lines b) as [|l ls]; reflexivity. Qed.

Lemma join_items blocks :
  join [LF] (flat_map item blocks) = join [LF] (map unit_text blocks).
Proof.
  induction blocks as [|b rest IH]; [reflexivity|].
  destruct rest as [|b' rest'].
  - simpl flat_map. rewrite app_nil_r. apply join_item.
  - change (flat_map item (b :: b' :: rest')) with (item b ++ flat_map item (b' :: rest')).
    rewrite join_app; [|discriminate|discriminate].
    rewrite IH, join_item. reflexivity.
Qed.

(** The request text, once cleaned, is the units' texts joined. *)
Lemma clean_batch_text blocks :
  blocks <> [] -> Forall echo_safe blocks ->
  clean (mk_batch_text blocks) = join [LF] (map unit_text blocks).
Proof.
  intros Hne Hsafe. unfold clean, mk_batch_text.
  assert (Hout : flat_map item blocks <> []) by (destruct blocks; [congruence|discriminate]).
  assert (Hlines : Forall (fun l => no_linebreak l = true /\ is_fence_line l = false)
                     (flat_map item blocks)).
  { clear Hne Hout. induction Hsafe as [|b rest [Hid Hb] Hrest IH]; [constructor|].
    change (flat_map item (b :: rest)) with (item b ++ flat_map item rest).
    apply Forall_app. split; [|exact IH].
    constructor; [apply mk_mark_line, Hid|].
    destruct (lines b) as [|l ls]; [repeat constructor|].
    eapply Forall_impl; [exact Hb|]. simpl. tauto. }
  rewrite (join_lf_write_lines _ Hout), splitlines_write_lines
    by (eapply Forall_impl; [exact Hlines|]; simpl; tauto).
  rewrite filter_all; [apply join_items|].
  eapply Forall_impl; [exact Hlines|]. simpl. intros l [_ Hl]. rewrite Hl. reflexivity.
Qed.

End EchoText.

Lemma echo_map_other blocks :
  forall (out : gmap Z (list str)) i,
  ~ In i (map idx blocks) ->
  fold_left (fun zh b => <[idx b := echoed b]> zh) blocks out !! i = out !! i.
Proof.
  induction blocks as [|b rest IH]; intros out i Hi; [reflexivity|].
  simpl in *. rewrite IH by tauto. apply lookup_insert_ne. tauto.
Qed.

Lemma echo_map_dom blocks :
  forall (out : gmap Z (list str)) i,
  is_Some (fold_left (fun zh b => <[idx b := echoed b]> zh) blocks out !! i)
  <-> In i (map idx blocks) \/ is_Some (out !! i).
Proof.
  induction blocks as [|b rest IH]; intros out i; simpl; [tauto|].
  rewrite IH. destruct (decide (idx b = i)) as [<-|Hne].
  - rewrite lookup_insert_eq. split; [auto|eauto].
  - rewrite lookup_insert_ne by exact Hne. tauto.
Qed.

Lemma echo_map_lookup blocks :
  forall (out : gmap Z (list str)) b,
  NoDup (map idx blocks) -> In b blocks ->
  fold_left (fun zh b => <[idx b := echoed b]> zh) blocks out !! idx b
  = Some (echoed b).
Proof.
  induction blocks as [|x rest IH]; intros out b Hnd Hb; [destruct Hb|].
  simpl in Hnd. apply NoDup_cons in Hnd as [Hfresh Hnd]. simpl.
  destruct Hb as [->|Hb]; [|apply IH; assumption].
  rewrite echo_map_other; [apply lookup_insert_eq|].
  intros Hin. apply Hfresh, list_elem_of_In, Hin.
Qed.

(** ** Tidy lines come back unchanged *)

Lemma length_lstrip s : (length (lstrip s) <= length s)%nat.
Proof.
  induction s as [|c s IH]; simpl; [lia|].
  destruct (is_space c); simpl; lia.
Qed.

Lemma rstrip_app_keep a b : rstrip b <> [] -> rstrip (a ++ b) = a ++ rstrip b.
Proof.
  intros Hb. induction a as [|c a IH]; [reflexivity|].
  simpl. rewrite IH. destruct (a ++ rstrip b) eqn:E.
  - apply app_eq_nil in E as [_ E]. congruence.
  - simpl. rewrite andb_false_r. reflexivity.
Qed.

Lemma splitlines_go_plain l :
  forall acc, no_linebreak l = true -> acc ++ l <> [] ->
  splitlines_go false acc l = [acc ++ l].
Proof.
  induction l as [|c l IH]; intros acc Hl Hne; simpl.
  - rewrite app_nil_r in *. destruct acc; [congruence|reflexivity].
  - simpl in Hl. apply andb_prop in Hl as [Hc Hl]. apply negb_true_iff in Hc.
    rewrite Hc. rewrite IH; [rewrite <- app_assoc; reflexivity|exact Hl|].
    rewrite <- app_assoc. exact Hne.
Qed.

Lemma splitlines_join ls :
  Forall tidy_line ls -> splitlines (join [LF] ls) = ls.
Proof.
  unfold splitlines. induction 1 as [|l ls (Hne & _ & _ & Hnl) Hls IH]; [reflexivity|].
  destruct ls as [|l' ls].
  - simpl. apply (splitlines_go_plain l [] Hnl). exact Hne.
  - change (join [LF] (l :: l' :: ls)) with (l ++ LF :: join [LF] (l' :: ls)).
    rewrite (splitlines_go_line l [] _ Hnl). rewrite IH. reflexivity.
Qed.

Lemma join_nonempty l ls : l <> [] -> join [LF] (l :: ls) <> [].
Proof. destruct l; [congruence|]. intros _. destruct ls; discriminate. Qed.

Lemma rstrip_join ls : Forall tidy_line ls -> rstrip (join [LF] ls) = join [LF] ls.
Proof.
  induction 1 as [|l ls (Hne & _ & Hr & _) Hls IH]; [reflexivity|].
  destruct ls as [|l' ls]; [exact Hr|].
  change (join [LF] (l :: l' :: ls)) with (l ++ [LF] ++ join [LF] (l' :: ls)).
  rewrite app_assoc, rstrip_app_keep, IH; [reflexivity|]. rewrite IH.
  apply Forall_cons in Hls as [(Hne' & _) _]. apply join_nonempty, Hne'.
Qed.

Lemma lstrip_join l ls : tidy_line l -> lstrip (join [LF] (l :: ls)) = join [LF] (l :: ls).
Proof.
  intros (Hne & Hl & _). destruct l as [|c l]; [congruence|].
  assert (Hc : is_space c = false).
  { destruct (is_space c) eqn:E; [|reflexivity]. simpl in Hl. rewrite E in Hl.
    pose proof (length_lstrip l) as Hlen. rewrite Hl in Hlen. simpl in Hlen. lia. }
  destruct ls; simpl; rewrite Hc; reflexivity.
Qed.

(** What tidy lines decode to when echoed: themselves. *)
Lemma echoed_tidy b : Forall tidy_line (lines b) -> echoed b = lines b.
Proof.
  intros Hls. unfold echoed. destruct (lines b) as [|l ls] eqn:El; [reflexivity|].
  assert (Hstrip : strip (join [LF] (l :: ls)) = join [LF] (l :: ls)).
  { unfold strip. rewrite lstrip_join by (apply Forall_cons in Hls; tauto).
    apply rstrip_join, Hls. }
  rewrite Hstrip. unfold seg_lines. rewrite (splitlines_join _ Hls).
  rewrite filter_all.
  - rewrite <- (map_id (l :: ls)) at 2. apply map_ext_in.
    intros x Hx. rewrite List.Forall_forall in Hls. apply (Hls x Hx).
  - eapply Forall_impl; [exact Hls|]. intros x (Hne & Hl & Hr & _).
    destruct (strip x) eqn:E; [|reflexivity]. exfalso.
    unfold strip in E. rewrite Hl, Hr in E. congruence.
Qed.

(** The request text decodes to the echo dict. *)
Lemma parse_echo blocks :
  Forall echo_safe blocks ->
  parse_zh_map (mk_batch_text blocks) = Ok (echo_map blocks).
Proof.
  intros Hsafe. destruct blocks as [|b rest]; [reflexivity|].
  unfold parse_zh_map. rewrite clean_batch_text by (discriminate || exact Hsafe).
  apply (echo_loop (b :: rest) [] ∅ Hsafe).
Qed.

Lemma echo_map_keys blocks i :
  is_Some (echo_map blocks !! i) <-> In i (map idx blocks).
Proof.
  unfold echo_map. rewrite echo_map_dom, lookup_empty.
  split; [intros [Hi|[x Hx]]; [exact Hi|discriminate]|auto].
Qed.

(** X4: the marker codec round trip.  When the ids of a batch fit the
    marker and no text line holds a line break, a code fence or the head of
    a marker, decoding the request text [mk_batch_text blocks] itself binds
    exactly the ids of the batch; with distinct ids every unit is bound to
    its own lines as a segment keeps them (blank lines dropped, white space
    stripped at the ends), hence to its own lines unchanged when they carry
    no white space at either end. *)
Theorem echo_decodes (blocks : list SrtBlock) :
  Forall echo_safe blocks ->
  parse_zh_map (mk_batch_text blocks) = Ok (echo_map blocks)
  /\ (forall i, is_Some (echo_map blocks !! i) <-> In i (map idx blocks))
  /\ (NoDup (map idx blocks) ->
      forall b, In b blocks ->
        echo_map blocks !! idx b = Some (echoed b)
        /\ (Forall tidy_line (lines b) -> echo_map blocks !! idx b = Some (lines b))).
Proof.
  intros Hsafe. split; [apply parse_echo, Hsafe|]. split; [apply echo_map_keys|].
  - intros Hnd b Hb. unfold echo_map.
    rewrite (echo_map_lookup blocks ∅ b Hnd Hb). split; [reflexivity|].
    intros Htidy. rewrite (echoed_tidy b Htidy). reflexivity.
Qed.

Lemma echo_decodes_witness :
  exists zh,
    parse_zh_map (mk_batch_text sample_blocks) = Ok zh
    /\ zh !! 2 = Some [lit "World"].
Proof.
  destruct (echo_decodes sample_blocks) as (Hparse & _ & Hlookup).
  - repeat constructor; vm_compute; try reflexivity; intros; discriminate.
  - exists (echo_map sample_blocks). split; [exact Hparse|].
    refine (proj2 (Hlookup _ (mkSrtBlock 2 (lit "00:00:03,000 --> 00:00:04,000")
                                [lit "World"]) _) _).
    + apply (bool_decide_unpack _). vm_compute. exact I.
    + right. left. reflexivity.
    + repeat constructor; vm_compute; try reflexivity; intros; discriminate.
Defined.



(** ** Failing futures *)

Section LoopFailure.
Context `{Host}.
Variable batches : list (list SrtBlock).
Variable cfg : gmap string value.
Variable replies : nat -> list reply.
Variable s0 : sys.

Local Abbreviation res := (future_map cfg replies batches).
Local Abbreviation succeeded := (future_ok cfg replies batches).
Local Abbreviation inv := (drain_inv res batches s0).

(** The loop over the completed futures stops at the first one that
    failed, with its exception. *)
Lemma collect_fail_run i e post pre :
  forall done pending next_write s,
  NoDup (done ++ pre ++ [i]) ->
  (forall j, In j (done ++ pre ++ [i]) -> (j < length batches)%nat) ->
  (forall j, In j (done ++ pre) -> succeeded j) ->
  future_result cfg (replies i) (default [] (batches !! i)) = Err e ->
  inv done pending next_write s ->
  ~ In next_write done ->
  exists s' k,
    collect cfg replies batches (pre ++ i :: post) pending next_write s = (Err e, s')
    /\ (k <= i)%nat
    /\ trace s' = trace s0 ++ unit_events (prefix_units res batches k)
    /\ default [] (out_file s')
       = render (prefix_units res batches k) (default [] (out_file s0)).
Proof.
  induction pre as [|j pre IH]; intros done pending nw s Hnd Hrange Hdone Hfail Hinv Hnot;
    pose proof Hinv as (Hpend & Hbelow & Hle & Htrace & Hout).
  - assert (Hi : (i < length batches)%nat)
      by (apply Hrange, in_app_iff; right; left; reflexivity).
    destruct (lookup_lt_is_Some_2 batches i Hi) as [batch Hbatch].
    rewrite Hbatch in Hfail. simpl in Hfail.
    simpl. unfold bind at 1. unfold lift at 1, index. rewrite Hbatch.
    unfold bind at 1. unfold lift at 1. rewrite Hfail.
    exists s, nw. split; [reflexivity|]. split; [|auto].
    destruct (le_lt_dec nw i) as [|Hlt]; [assumption|]. exfalso.
    apply NoDup_app in Hnd as (_ & Hdisj & _).
    apply (Hdisj i); [apply list_elem_of_In, Hbelow, Hlt|left].
  - assert (Hj : (j < length batches)%nat)
      by (apply Hrange, in_app_iff; right; left; reflexivity).
    assert (Hfresh : ~ In j done).
    { apply NoDup_app in Hnd as (_ & Hdisj & _).
      intros Hin. apply (Hdisj j); [apply list_elem_of_In, Hin|left]. }
    assert (Hge : (nw <= j)%nat).
    { destruct (le_lt_dec nw j) as [|Hlt]; [assumption|].
      exfalso. apply Hfresh, Hbelow, Hlt. }
    assert (Hok : succeeded j) by (apply Hdone, in_app_iff; right; left; reflexivity).
    destruct (lookup_lt_is_Some_2 batches j Hj) as [batch Hbatch].
    simpl. unfold bind at 1. unfold lift at 1, index. rewrite Hbatch.
    unfold bind at 1. unfold lift at 1.
    pose proof Hok as Hok'. unfold future_ok in Hok'. rewrite Hbatch in Hok'.
    simpl in Hok'.
    destruct (future_result cfg (replies j) batch) as [zh|e'] eqn:Efut; [|discriminate].
    assert (Hzh : zh = res j)
      by (unfold future_map; rewrite Hbatch; simpl; rewrite Efut; reflexivity).
    subst zh.
    destruct (drain_run batches cfg replies s0 (done ++ [j])) with (k := length batches)
      (next_write := nw) (pending := <[j := res j]> pending) (s := s)
      as (pending' & nw' & s' & Hrun & Hinv' & Hnot').
    { intros x Hx. apply in_app_iff in Hx as [Hx|[<-|[]]]; [|auto].
      split; [|apply Hdone, in_app_iff; auto]. apply Hrange, in_app_iff. auto. }
    { lia. }
    { split; [|split; [|split; [exact Hle|split; assumption]]].
      - intros x z. rewrite in_app_iff. simpl.
        destruct (decide (j = x)) as [<-|Hne].
        + rewrite lookup_insert_eq. split; [intros [= <-]; auto|].
          intros (_ & _ & ->). reflexivity.
        + rewrite lookup_insert_ne by exact Hne. rewrite Hpend.
          split; [intros (? & ? & ?); auto|].
          intros ([?|[?|[]]] & ? & ?); [auto|contradiction].
      - intros x Hx. apply in_app_iff. left. apply Hbelow, Hx. }
    unfold bind at 1. rewrite Hrun. simpl.
    apply (IH (done ++ [j]) pending' nw' s').
    + rewrite <- app_assoc. exact Hnd.
    + rewrite <- app_assoc. exact Hrange.
    + intros x Hx. rewrite <- app_assoc in Hx. simpl in Hx.
      apply in_app_iff in Hx as [Hx|[<-|Hx]]; [|exact Hok|];
        apply Hdone, in_app_iff; simpl; auto.
    + exact Hfail.
    + exact Hinv'.
    + exact Hnot'.
Qed.

End LoopFailure.

(** X17: the loop over the completed futures stops at the first future,
    in completion order, that raised: the run ends with that exception, the
    later futures are never looked at, and what has been written by then is
    the units of the first [k] batches for some [k] not beyond the failed
    batch. *)
Theorem collect_stops_at_failure `{Host} (cfg : gmap string value)
    (replies : nat -> list reply) (batches : list (list SrtBlock))
    (pre : list nat) (i : nat) (post : list nat) (e : exn) (s : sys) :
  NoDup (pre ++ [i]) ->
  (forall j, In j (pre ++ [i]) -> (j < length batches)%nat) ->
  (forall j, In j pre -> future_ok cfg replies batches j) ->
  future_result cfg (replies i) (default [] (batches !! i)) = Err e ->
  exists s' k,
    collect cfg replies batches (pre ++ i :: post) ∅ 0%nat s = (Err e, s')
    /\ (k <= i)%nat
    /\ wrote (prefix_units (future_map cfg replies batches) batches k) s s'.
Proof.
  intros Hnd Hrange Hok Hfail.
  destruct (collect_fail_run batches cfg replies s i e post pre [] ∅ 0%nat s)
    as (s' & k & Hrun & Hk & Htrace & Hout); auto.
  - split; [|split; [|split; [lia|split]]].
    + intros j z. rewrite lookup_empty. simpl. split; [discriminate|tauto].
    + intros j Hj. lia.
    + unfold prefix_units. simpl. rewrite app_nil_r. reflexivity.
    + reflexivity.
  - exists s', k. split; [exact Hrun|]. split; [exact Hk|].
    split; [exact Htrace|]. split; [exact Hout|].
    destruct (collect_any batches cfg replies (pre ++ i :: post) ∅ 0%nat s)
      as (us & (_ & _ & Hopen) & _).
    rewrite Hrun in Hopen. exact Hopen.
Qed.

Lemma collect_stops_at_failure_witness :
  exists s',
    collect sample_cfg (fun i => match i with 0%nat => [] | _ => [Ok full_reply] end)
      [[mkSrtBlock 1 (lit "a --> b") [lit "Hello"]];
       [mkSrtBlock 2 (lit "c --> d") [lit "World"]];
       [mkSrtBlock 3 (lit "e --> f") [lit "Test"]]]
      ([2%nat] ++ [0%nat; 1%nat]) ∅ 0%nat (mkSys (Some []) [])
    = (Err TransportError, s')
    /\ trace s' = [].
Proof.
  destruct (collect_stops_at_failure sample_cfg
              (fun i => match i with 0%nat => [] | _ => [Ok full_reply] end)
              [[mkSrtBlock 1 (lit "a --> b") [lit "Hello"]];
               [mkSrtBlock 2 (lit "c --> d") [lit "World"]];
               [mkSrtBlock 3 (lit "e --> f") [lit "Test"]]]
              [2%nat] 0%nat [1%nat] TransportError (mkSys (Some []) []))
    as (s' & k & Hrun & Hk & Htrace & _).
  - apply (bool_decide_unpack _). vm_compute. exact I.
  - intros j [<-|[<-|[]]]; simpl; lia.
  - intros j [<-|[]]. vm_compute. reflexivity.
  - vm_compute. reflexivity.
  - exists s'. split; [exact Hrun|]. rewrite Htrace.
    destruct k as [|k]; [reflexivity|lia].
Defined.

(** ** Runs of the whole program *)

Section MoreRuns.
Context `{Host}.





End MoreRuns.

(** X18: a worker count of zero or less is rejected by the pool, with
    [ValueError], only after the output has been opened: nothing is
    dispatched or written, but at resume point zero an existing output has
    already been emptied. *)
Theorem pool_rejects_no_workers `{Host} (cfg : gmap string value) (text : str)
    (blocks : list SrtBlock) (done max_blocks max_chars max_workers bar_len : Z)
    (replies : nat -> list reply) (order : list nat) (s : sys) :
  is_Some (cfg !! "in_srt") ->
  parse_srt text = Ok blocks ->
  fst (resume_point s) = Ok done ->
  todo_units done blocks <> [] ->
  cfg_int cfg "max_blocks" = Ok max_blocks ->
  cfg_int cfg "max_chars" = Ok max_chars ->
  cfg_int cfg "max_workers" = Ok max_workers ->
  max_workers <= 0 ->
  cfg_int cfg "progress_len" = Ok bar_len ->
  main cfg (Some text) replies order s
  = (Err ValueError,
     mkSys (Some (if done =? 0 then [] else default [] (out_file s)))
           (trace s ++ [EvParse; EvOpen (negb (done =? 0))])).
Proof.
  intros [v Hin] Hparse Hres Htodo Hmb Hmc Hmw Hpos Hbl.
  unfold main, open_out, emit, resume_point, raise, ret, lift, modify, bind, getitem.
  rewrite Hin. simpl read_text. cbv beta iota.
  rewrite Hparse. cbv beta iota. unfold resume_point in Hres. simpl in Hres.
  simpl out_file. rewrite Hres. cbv beta iota.
  fold (todo_units done blocks).
  destruct (todo_units done blocks) as [|b0 todo]; [congruence|].
  change (negb (truthy (b0 :: todo))) with false. cbv beta iota.
  rewrite Hmb, Hmc, Hmw, Hbl. cbv beta iota.
  assert ((max_workers <=? 0) = true) as -> by (apply Z.leb_le; exact Hpos).
  cbv beta iota. simpl. rewrite <- !app_assoc.
  destruct (done =? 0); reflexivity.
Qed.

Lemma pool_rejects_no_workers_witness :
  main (<["max_workers" := VInt 0]> sample_cfg) (Some sample_input)
    (fun _ => [Ok full_reply]) [0%nat; 1%nat] (mkSys (Some (lit "junk")) [])
  = (Err ValueError, mkSys (Some []) [EvParse; EvOpen false]).
Proof.
  apply (pool_rejects_no_workers (<["max_workers" := VInt 0]> sample_cfg) sample_input
           sample_blocks 0 2 2000 0 30 (fun _ => [Ok full_reply]) [0%nat; 1%nat]
           (mkSys (Some (lit "junk")) [])).
  - exists (VStr (lit "in.srt")). reflexivity.
  - vm_compute. reflexivity.
  - vm_compute. reflexivity.
  - vm_compute. discriminate.
  - reflexivity.
  - reflexivity.
  - reflexivity.
  - lia.
  - reflexivity.
Defined.




(** ** The output stays a subtitle file *)

Section Provenance.
Context `{Host}.
Variable batches : list (list SrtBlock).

(** A unit handed to the writer: a planned unit with the lines a result
    for which [Q] holds binds to its id. *)
Local Abbreviation handed Q :=
  (fun u : SrtBlock * list str =>
     (exists batch, In batch batches /\ In u.1 batch)
     /\ exists zh : gmap Z (list str), Q zh /\ zh !! idx u.1 = Some u.2).



Variable cfg : gmap string value.
Variable replies : nat -> list reply.

(** A result some future returned. *)
Local Abbreviation returned := (fun zh : gmap Z (list str) =>
  exists i batch, future_result cfg (replies i) batch = Ok zh).


End Provenance.





(** ** Configuration reader *)

Section ConfigFacts.
Variable F : Type.
Variable float_of_str : str -> option F.

Local Abbreviation load := (load_lines F float_of_str).
Local Abbreviation scalar := (yaml_scalar F float_of_str).

Lemma skip_iff raw :
  negb (truthy (strip raw)) || startswith (lit "#") (strip raw) = negb (significant raw).
Proof.
  unfold significant. destruct (truthy (strip raw)); simpl; [|reflexivity].
  rewrite negb_involutive. reflexivity.
Qed.

(** The reader fails exactly when a significant line has no colon; the
    exception is then [ValueError]. *)
Lemma load_lines_outcome ls :
  forall out,
  (Exists (fun raw => significant raw = true /\ split_colon raw = None) ls
   /\ load ls out = Err ValueError)
  \/ (Forall (fun raw => significant raw = true -> is_Some (split_colon raw)) ls
      /\ exists out', load ls out = Ok out').
Proof.
  induction ls as [|raw ls IH]; intros out.
  - right. split; [constructor|]. exists out. reflexivity.
  - simpl. rewrite skip_iff. destruct (significant raw) eqn:Esig; simpl.
    + destruct (split_colon raw) as [[k v]|] eqn:Esplit.
      * destruct (IH (<[strip k := scalar (strip v)]> out)) as [[Hex Hrun]|[Hall Hrun]].
        -- left. split; [right; exact Hex|exact Hrun].
        -- right. split; [constructor; [eauto|exact Hall]|exact Hrun].
      * left. split; [left; auto|reflexivity].
    + destruct (IH out) as [[Hex Hrun]|[Hall Hrun]].
      * left. split; [right; exact Hex|exact Hrun].
      * right. split; [constructor; [intros ?; congruence|exact Hall]|exact Hrun].
Qed.

(** Lines that bind other keys leave a key as it is. *)
Lemma load_lines_other ls :
  forall out out' key,
  load ls out = Ok out' ->
  Forall (fun raw => significant raw = true ->
                     forall k v, split_colon raw = Some (k, v) -> strip k <> key) ls ->
  out' !! key = out !! key.
Proof.
  induction ls as [|raw ls IH]; intros out out' key; simpl.
  - intros [= <-] _. reflexivity.
  - rewrite skip_iff. intros Hrun Hall. apply Forall_cons in Hall as [Hraw Hall].
    destruct (significant raw); simpl in Hrun; [|eapply IH; eauto].
    destruct (split_colon raw) as [[k v]|]; [|discriminate].
    rewrite (IH _ _ key Hrun Hall). apply lookup_insert_ne. eapply Hraw; eauto.
Qed.

(** A key is bound by the last significant line that names it. *)
Lemma load_lines_last pre raw post out out' k v :
  load (pre ++ raw :: post) out = Ok out' ->
  significant raw = true -> split_colon raw = Some (k, v) ->
  Forall (fun raw' => significant raw' = true ->
                      forall k' v', split_colon raw' = Some (k', v') ->
                                    strip k' <> strip k) post ->
  out' !! strip k = Some (scalar (strip v)).
Proof.
  revert out. induction pre as [|x pre IH]; intros out; simpl.
  - rewrite skip_iff. intros Hrun Hsig Hsplit Hpost. rewrite Hsig, Hsplit in Hrun.
    simpl in Hrun. rewrite (load_lines_other _ _ _ _ Hrun Hpost).
    apply lookup_insert_eq.
  - rewrite skip_iff. intros Hrun Hsig Hsplit Hpost.
    destruct (significant x); simpl in Hrun; [|eapply IH; eauto].
    destruct (split_colon x) as [[k' v']|]; [|discriminate].
    eapply IH; eauto.
Qed.

Lemma slice_quoted (q : char) s :
  slice (q :: s ++ [q]) 1 (length (q :: s ++ [q]) - 1) = s.
Proof.
  unfold slice. simpl. rewrite length_app. simpl.
  replace (length s + 1 - 0 - 1)%nat with (length s) by lia.
  rewrite drop_0. apply take_app_length.
Qed.

Lemma quoted_wrap (q : char) s : quoted q (q :: s ++ [q]) = true.
Proof.
  unfold quoted, endswith. simpl. rewrite N.eqb_refl. simpl.
  rewrite rev_app_distr. simpl. rewrite N.eqb_refl. reflexivity.
Qed.

(** A printed integer starts with a digit or the minus sign. *)
Lemma repr_head z : exists c r, repr z = c :: r /\ (is_decimal c = true \/ c = 45%N).
Proof.
  unfold repr. destruct (z <? 0) eqn:E; [eauto|].
  apply Z.ltb_ge in E. destruct (digits_of_spec z E) as (Hne & Hdig & _).
  destruct (digits_of z) as [|c r]; [congruence|].
  simpl in Hdig. apply andb_prop in Hdig as [Hc _]. eauto.
Qed.

Lemma scalar_int z : scalar (repr z) = YInt z.
Proof.
  unfold yaml_scalar. destruct (repr_head z) as (c & r & Hrepr & Hc).
  assert (Hq : forall q, (q = 34 \/ q = 39)%N -> quoted q (repr z) = false).
  { intros q Hq. unfold quoted. rewrite Hrepr. simpl.
    assert ((q =? c)%N = false) as ->; [|reflexivity].
    apply N.eqb_neq. intros <-. destruct Hc as [Hc|Hc]; [|lia].
    destruct Hq as [-> | ->]; vm_compute in Hc; discriminate. }
  rewrite (Hq 34%N), (Hq 39%N) by auto. simpl.
  assert (Hlow : forall w, (w = 116 \/ w = 102)%N -> forall t, lower (repr z) <> w :: t).
  { intros w Hw t. rewrite Hrepr. simpl. intros [= Hhead _].
    destruct ((65 <=? c) && (c <=? 90))%N eqn:Eup.
    - apply andb_prop in Eup as [H1 H2]. apply N.leb_le in H1, H2.
      destruct Hc as [Hc| ->]; [|lia].
      apply decimal_ascii in Hc; lia.
    - subst c. destruct Hc as [Hc|Hc]; [|lia].
      destruct Hw as [-> | ->]; vm_compute in Hc; discriminate. }
  rewrite !bool_decide_eq_false_2, int_repr; [reflexivity| |].
  - apply (Hlow 102%N); auto.
  - apply (Hlow 116%N); auto.
Qed.

End ConfigFacts.

(** X22: the configuration reader either returns a dict or raises
    [ValueError], and it raises exactly when some line that is neither
    blank nor a comment has no colon. *)
Theorem load_yaml_kv_outcome (F : Type) (float_of_str : str -> option F) (text : str) :
  (load_yaml_kv F float_of_str text = Err ValueError
   /\ Exists (fun raw => significant raw = true /\ split_colon raw = None)
        (splitlines text))
  \/ ((exists out, load_yaml_kv F float_of_str text = Ok out)
      /\ Forall (fun raw => significant raw = true -> is_Some (split_colon raw))
           (splitlines text)).
Proof.
  unfold load_yaml_kv.
  destruct (load_lines_outcome F float_of_str (splitlines text) ∅) as [[Hex Hrun]|[Hall Hrun]];
    [left|right]; auto.
Qed.

(** X23: in the configuration file the last binding of a key wins: a key
    is bound to the typed value of the last significant line that names
    it; blank lines and comment lines bind nothing. *)
Theorem load_yaml_kv_last_wins (F : Type) (float_of_str : str -> option F)
    (pre : list str) (raw : str) (post : list str) (k v : str)
    (out : gmap str (yaml_value F)) :
  load_yaml_kv F float_of_str (write_lines (pre ++ raw :: post)) = Ok out ->
  Forall (fun l => no_linebreak l = true) (pre ++ raw :: post) ->
  significant raw = true -> split_colon raw = Some (k, v) ->
  Forall (fun raw' => significant raw' = true ->
                      forall k' v', split_colon raw' = Some (k', v') ->
                                    strip k' <> strip k) post ->
  out !! strip k = Some (yaml_scalar F float_of_str (strip v)).
Proof.
  unfold load_yaml_kv. intros Hrun Hnl Hsig Hsplit Hpost.
  rewrite (splitlines_write_lines _ Hnl) in Hrun.
  exact (load_lines_last F float_of_str pre raw post ∅ out k v Hrun Hsig Hsplit Hpost).
Qed.

(** X24: how the reader types a value.  A value between double quotes or
    between single quotes is the string between them, whatever it looks
    like; a printed integer is read as that integer. *)
Theorem yaml_scalar_forms (F : Type) (float_of_str : str -> option F) :
  (forall s, yaml_scalar F float_of_str (34%N :: s ++ [34%N]) = YStr s)
  /\ (forall s, yaml_scalar F float_of_str (39%N :: s ++ [39%N]) = YStr s)
  /\ (forall z, yaml_scalar F float_of_str (repr z) = YInt z).
Proof.
  split; [|split].
  - intros s. unfold yaml_scalar. rewrite quoted_wrap. simpl orb. cbv iota.
    rewrite slice_quoted. reflexivity.
  - intros s. unfold yaml_scalar. rewrite (quoted_wrap 39%N), orb_true_r.
    rewrite slice_quoted. reflexivity.
  - apply scalar_int.
Qed.

Lemma load_yaml_kv_last_wins_witness :
  exists out : gmap str (yaml_value unit),
    load_yaml_kv unit (fun _ => None)
      (text_of ["# options"; "max_blocks: 2"; ""; "max_blocks : 30"; "model: m"])
    = Ok out
    /\ out !! lit "max_blocks" = Some (YInt 30).
Proof.
  eexists. split; [vm_compute; reflexivity|].
  refine (load_yaml_kv_last_wins unit (fun _ => None)
            [lit "# options"; lit "max_blocks: 2"; []] (lit "max_blocks : 30")
            [lit "model: m"] (lit "max_blocks ") (lit " 30") _ _ _ _ _ _).
  - vm_compute. reflexivity.
  - repeat constructor.
  - reflexivity.
  - reflexivity.
  - repeat constructor. intros _ k' v' [= <- <-]. vm_compute. discriminate.
Defined.

(** ** Worked examples *)

(** The end-to-end example: three units, one batch, every marker echoed. *)
Example end_to_end :
  let run := main (<["max_blocks" := VInt 10]> sample_cfg) (Some sample_input)
               (fun _ => [Ok example_reply]) [0%nat] (mkSys None []) in
  run.1 = Ok tt /\ out_file run.2 = Some example_output.
Proof. vm_compute. split; reflexivity. Qed.

(** The third batch completes first: the output is the same. *)
Example scrambled_completion :
  let run := main (<["max_blocks" := VInt 1]> sample_cfg) (Some sample_input)
               (fun _ => [Ok example_reply]) [2%nat; 0%nat; 1%nat] (mkSys None []) in
  run.1 = Ok tt /\ out_file run.2 = Some example_output.
Proof. vm_compute. split; reflexivity. Qed.

(** A rerun over the output of the first unit appends the other two. *)
Example resumed_run :
  let old := write_lines [lit "1"; lit "00:00:01,000 --> 00:00:02,000"; ni_hao;
                          lit "Hello"; []] in
  let run := main sample_cfg (Some sample_input)
               (fun _ => [Ok example_reply]) [0%nat] (mkSys (Some old) []) in
  last_idx_in_srt old = Ok 1
  /\ run.1 = Ok tt /\ out_file run.2 = Some example_output.
Proof. vm_compute. repeat split; reflexivity. Qed.

(** Malformed input: a non-numeric index line, a missing timing line. *)
Example parse_failures :
  parse_srt (text_of ["one"; "00:00:01,000 --> 00:00:02,000"; "Hello"]) = Err ValueError
  /\ parse_srt (text_of ["1"]) = Err IndexError
  /\ parse_srt (text_of [""; ""]) = Ok [].
Proof. vm_compute. repeat split; reflexivity. Qed.

(** Units are grouped by count, then cut by the character budget. *)
Example planning :
  map (map idx) (split_batches sample_blocks 2 2000) = [[1; 2]; [3]]
  /\ map (map idx) (split_batches sample_blocks 5 70) = [[1]; [2]; [3]]
  /\ map add_chars sample_blocks = [37; 37; 36]
  /\ mk_batch_text [mkSrtBlock 7 (lit "a --> b") [lit "x"; lit "y"];
                    mkSrtBlock 8 (lit "c --> d") []]
     = text_of ["<<<SRT:000007>>>"; "x"; "y"; "<<<SRT:000008>>>"; ""].
Proof. vm_compute. repeat split; reflexivity. Qed.

Example int_ex : int (lit " 1_000 ") = Some 1000 /\ int (lit "-12") = Some (-12)
  /\ int (lit "1__0") = None /\ int (lit "") = None /\ int (lit "12_") = None
  /\ repr 1203 = lit "1203" /\ repr (-7) = lit "-7" /\ repr 0 = lit "0"
  /\ repr06 42 = lit "000042" /\ repr06 (-1) = lit "-00001" /\ repr06 1234567 = lit "1234567".
Proof. vm_compute. repeat split. Qed.

Example splitlines_ex :
  splitlines (lit "a" ++ [CR; LF] ++ lit "b" ++ [LF; LF] ++ lit "c") = [lit "a"; lit "b"; []; lit "c"]
  /\ splitlines [LF] = [[]] /\ splitlines [] = [] /\ splitlines [CR; CR; LF] = [[]; []].
Proof. vm_compute. repeat split. Qed.
